(** * Optimizing interpreters by node fusion: the four evaluators of oif.cpp

    A shallow embedding of the AST interpreter of [src/oif.cpp] and of its
    three fused redesigns, with the properties the specification states
    about them.

    Conventions of the embedding.
    - [uint32_t] values are integers in [Z]; every arithmetic operation of
      the source writes its wrap-around out ([wrap32]).
    - The polymorphic [Node] hierarchy is closed into one inductive type
      holding every subclass the file declares.  The classes of namespace
      [BetterFusion] that shadow a class of [Simplest] carry the prefix
      [BF_].
    - A [Function*] or [Node*] that is held but not owned (the back
      references of a recursive body) is a handle into a table owned by the
      driver.
    - A virtual call that enters a callee body consumes one unit of fuel, so
      fuel bounds the depth of interpreted calls.
    - C++ leaves the order of the two operand evaluations of [a + b],
      [a - b] and [a < b] unspecified; the evaluator takes the order as a
      parameter and the theorems hold for both.
    - An access outside the 4096 slots of the argument stack, or a read of a
      slot never written, is undefined behaviour in C++: the evaluator stops
      with [Undefined] there.
    - A ghost log records the [Return] statements that fire and the calls
      that complete; nothing the evaluator computes depends on it. *)

From stdpp Require Import base option list gmap.
From Stdlib Require Import ZArith Lia.

Local Open Scope Z_scope.

(** ** Unsigned 32-bit arithmetic *)

Definition wrap32 (z : Z) : Z := z mod 2 ^ 32.

Definition is_u32 (z : Z) : Prop := 0 <= z < 2 ^ 32.

(** [a + b] on [uint32_t]. *)
Definition add32 (a b : Z) : Z := wrap32 (a + b).

(** [a - b] on [uint32_t]. *)
Definition sub32 (a b : Z) : Z := wrap32 (a - b).

(** [a < b], a [bool] converted to [uint32_t]. *)
Definition less32 (a b : Z) : Z := if a <? b then 1 else 0.

(** A [uint32_t] used as a condition. *)
Definition truthy (c : Z) : bool := negb (c =? 0).

(** ** Context *)

(** [new uint32_t[4096]] *)
Definition STACK_SIZE : Z := 4096.

(** The array behind [stack] is allocated without initialisation: a slot
    holds a value once it has been written. *)
Record Context := mkContext {
  stopForReturn : bool;
  returnValue : Z;
  stack : gmap Z Z;
  stackTop : Z
}.

(** [Context()] *)
Definition new_Context : Context :=
  {| stopForReturn := false; returnValue := 0; stack := ∅; stackTop := 0 |}.

Definition in_bounds (i : Z) : bool := (0 <=? i) && (i <? STACK_SIZE).

(** ** Ghost log *)

#[local] Set Warnings "-register-all".

(** [Fired v]: a [Return] of the current frame stored [v].
    [Called inner v]: a call of the current frame completed; [inner] is the
    log of the callee body and [v] the [returnValue] on exit. *)
Inductive event :=
| Fired (v : Z)
| Called (inner : list event) (v : Z).

Definition event_value (e : event) : Z :=
  match e with
  | Fired v => v
  | Called _ v => v
  end.

(** Values stored by the [Return]s that fired, at any call depth, in the
    order they fired. *)
Fixpoint fired_of (e : event) : list Z :=
  match e with
  | Fired v => [v]
  | Called inner _ => flat_map fired_of inner
  end.

Definition fired (log : list event) : list Z := flat_map fired_of log.

(** Values stored by the [Return]s of the current frame only. *)
Definition own_fired (log : list event) : list Z :=
  flat_map (fun e => match e with Fired v => [v] | Called _ _ => [] end) log.

(** The value the last event of a log left in [returnValue]. *)
Definition last_value (log : list event) (before : Z) : Z :=
  match last log with
  | Some e => event_value e
  | None => before
  end.

(** The value stored by the last [Return] that fired, at any depth. *)
Definition last_fired (log : list event) (before : Z) : Z :=
  default before (last (fired log)).

(** The state the last event of the current frame left [stopForReturn] in:
    a [Return] of the frame raises it, a completed call lowers it. *)
Definition signal_after (log : list event) (before : bool) : bool :=
  match last log with
  | Some (Fired _) => true
  | Some (Called _ _) => false
  | None => before
  end.

(** ** Outcomes and the evaluation monad *)

(** [Done a]: the C++ function returns [a].
    [Undefined]: the program has run into undefined behaviour: an access
    through [ctx->stack] outside the array or to a slot never written, or
    a handle that refers to no object.  The source performs such an access
    without any check; nothing is reported to the caller.
    [OutOfFuel]: the bound on the depth of calls was reached (an artefact of
    the embedding). *)
Inductive outcome (A : Type) :=
| Done (a : A)
| Undefined
| OutOfFuel.

Arguments Done {A} a.
Arguments Undefined {A}.
Arguments OutOfFuel {A}.

Definition M (A : Type) : Type := Context -> outcome (A * Context * list event).

Definition ret {A} (a : A) : M A := fun c => Done (a, c, []).

Definition bind {A B} (m : M A) (k : A -> M B) : M B :=
  fun c =>
    match m c with
    | Done (a, c1, l1) =>
        match k a c1 with
        | Done (b, c2, l2) => Done (b, c2, l1 ++ l2)
        | Undefined => Undefined
        | OutOfFuel => OutOfFuel
        end
    | Undefined => Undefined
    | OutOfFuel => OutOfFuel
    end.

Declare Scope eval_scope.
Delimit Scope eval_scope with eval.
Notation "x <- m ;; k" := (bind m (fun x => k))
  (at level 100, m at next level, right associativity) : eval_scope.
Notation "m ;;; k" := (bind m (fun _ => k))
  (at level 100, right associativity) : eval_scope.
Local Open Scope eval_scope.

Definition undefined {A} : M A := fun _ => Undefined.
Definition out_of_fuel {A} : M A := fun _ => OutOfFuel.

Definition mark (e : event) : M unit := fun c => Done (tt, c, [e]).

(** Turns the log of a callee into one [Called] event of the caller, which
    also records the [returnValue] the call leaves behind. *)
Definition in_call (m : M Z) : M Z :=
  fun c =>
    match m c with
    | Done (v, c', l) => Done (v, c', [Called l (returnValue c')])
    | Undefined => Undefined
    | OutOfFuel => OutOfFuel
    end.

(** [ctx->stack[ctx->stackTop] = a] *)
Definition store_top (a : Z) : M unit :=
  fun c =>
    if in_bounds (stackTop c)
    then Done (tt, {| stopForReturn := stopForReturn c;
                      returnValue := returnValue c;
                      stack := <[stackTop c := a]> (stack c);
                      stackTop := stackTop c |}, [])
    else Undefined.

(** [ctx->stackTop += 1] *)
Definition incr_top : M unit :=
  fun c => Done (tt, {| stopForReturn := stopForReturn c;
                        returnValue := returnValue c;
                        stack := stack c;
                        stackTop := wrap32 (stackTop c + 1) |}, []).

(** [ctx->stackTop -= 1] *)
Definition decr_top : M unit :=
  fun c => Done (tt, {| stopForReturn := stopForReturn c;
                        returnValue := returnValue c;
                        stack := stack c;
                        stackTop := wrap32 (stackTop c - 1) |}, []).

(** [ctx->stopForReturn = b] *)
Definition set_stopForReturn (b : bool) : M unit :=
  fun c => Done (tt, {| stopForReturn := b;
                        returnValue := returnValue c;
                        stack := stack c;
                        stackTop := stackTop c |}, []).

(** [ctx->returnValue = v] *)
Definition set_returnValue (v : Z) : M unit :=
  fun c => Done (tt, {| stopForReturn := stopForReturn c;
                        returnValue := v;
                        stack := stack c;
                        stackTop := stackTop c |}, []).

Definition get_stopForReturn : M bool := fun c => Done (stopForReturn c, c, []).
Definition get_returnValue : M Z := fun c => Done (returnValue c, c, []).

(** [ctx->stack[ctx->stackTop - 1]] *)
Definition read_top : M Z :=
  fun c =>
    let i := wrap32 (stackTop c - 1) in
    if in_bounds i
    then match stack c !! i with
         | Some v => Done (v, c, [])
         | None => Undefined
         end
    else Undefined.

(** ** Nodes *)

(** Handles of the [Function]s and of the shared nodes. *)
Abbreviation fn_ref := nat (only parsing).
Abbreviation node_ref := nat (only parsing).

(** The two leaf classes of [BetterFusion], which [LessArgConstNode] and
    [SubArgConstNode] hold by their concrete type. *)
Inductive BF_Const : Set := BF_ConstNode (value : Z).
Inductive BF_Arg : Set := BF_ArgNode.

Inductive Node :=
| BaseNode
| ConstNode (value : Z)
| AddNode (lhs rhs : Node)
| SubNode (lhs rhs : Node)
| LessNode (lhs rhs : Node)
| IfNode (condition body : Node)
| CallNode (function : fn_ref) (arg : Node)
| ReturnNode (rhs : Node)
| ArgNode
| LessConstNode (lhs : Node) (constant : Z)
| SubConstNode (lhs : Node) (constant : Z)
| OfConst (n : BF_Const)
| OfArg (n : BF_Arg)
| LessArgConstNode (lhs : BF_Arg) (rhs : BF_Const)
| SubArgConstNode (lhs : BF_Arg) (rhs : BF_Const)
| BF_CallNode (function : fn_ref) (arg : Node)
| CallAnyNode (function : node_ref) (arg : Node)
| IfElseNode (condition ifBody elseBody : Node).

Coercion OfConst : BF_Const >-> Node.
Coercion OfArg : BF_Arg >-> Node.

(** [Function]: the statements of a body, [numNodes] being their number
    (bodies of [2 ^ 32] statements or more, whose count would not fit
    [numNodes], are not considered). *)
Abbreviation Function := (list Node) (only parsing).

Inductive operand_order := LeftFirst | RightFirst.

(** ** The [eval] and [compute] methods, class by class

    A child held as [Node*] is passed as the computation its virtual [eval]
    denotes; a child held by concrete type is passed as the object. *)

Section Methods.

Variable ord : operand_order.

(** The two operand evaluations of a binary operator. *)
Definition binop (op : Z -> Z -> Z) (lhs rhs : M Z) : M Z :=
  match ord with
  | LeftFirst => a <- lhs ;; b <- rhs ;; ret (op a b)
  | RightFirst => b <- rhs ;; a <- lhs ;; ret (op a b)
  end.

(** *** namespace Simplest *)

Definition Node_eval : M Z := ret 0.

Definition ConstNode_eval (value : Z) : M Z := ret value.

Definition AddNode_eval (lhs rhs : M Z) : M Z := binop add32 lhs rhs.

Definition SubNode_eval (lhs rhs : M Z) : M Z := binop sub32 lhs rhs.

Definition LessNode_eval (lhs rhs : M Z) : M Z := binop less32 lhs rhs.

Definition IfNode_eval (condition body : M Z) : M Z :=
  c <- condition ;;
  if truthy c then (_ <- body ;; ret 0) else ret 0.

(** The statement loop of [CallNode::eval]; [ev] is the virtual [eval]. *)
Fixpoint run_body (ev : Node -> M Z) (body : list Node) : M unit :=
  match body with
  | [] => ret tt
  | statement :: rest =>
      _ <- ev statement ;;
      stop <- get_stopForReturn ;;
      if stop then ret tt else run_body ev rest
  end.

(** [statements] is the loop over the body of [function].  The index of
    the store is read once [arg] has been evaluated; reading it before
    would give the same index, since an evaluation that returns leaves
    [stackTop] as it found it ([effectful_eval] below). *)
Definition CallNode_eval (statements : M unit) (arg : M Z) : M Z :=
  a <- arg ;;
  in_call (store_top a ;;; incr_top ;;;
           statements ;;;
           set_stopForReturn false ;;; decr_top ;;;
           get_returnValue).

Definition ReturnNode_eval (rhs : M Z) : M Z :=
  v <- rhs ;;
  set_returnValue v ;;; set_stopForReturn true ;;;
  mark (Fired v) ;;; ret 0.

Definition ArgNode_eval : M Z := read_top.

(** *** namespace SimpleFusion *)

Definition LessConstNode_eval (lhs : M Z) (constant : Z) : M Z :=
  a <- lhs ;; ret (less32 a constant).

Definition SubConstNode_eval (lhs : M Z) (constant : Z) : M Z :=
  a <- lhs ;; ret (sub32 a constant).

(** *** namespace BetterFusion *)

Definition BF_ConstNode_compute (n : BF_Const) : M Z :=
  match n with BF_ConstNode value => ret value end.

Definition BF_ConstNode_eval (n : BF_Const) : M Z := BF_ConstNode_compute n.

Definition BF_ArgNode_compute (n : BF_Arg) : M Z := read_top.

Definition BF_ArgNode_eval (n : BF_Arg) : M Z := BF_ArgNode_compute n.

Definition LessArgConstNode_compute (lhs : BF_Arg) (rhs : BF_Const) : M Z :=
  binop less32 (BF_ArgNode_compute lhs) (BF_ConstNode_compute rhs).

Definition LessArgConstNode_eval (lhs : BF_Arg) (rhs : BF_Const) : M Z :=
  LessArgConstNode_compute lhs rhs.

Definition SubArgConstNode_compute (lhs : BF_Arg) (rhs : BF_Const) : M Z :=
  binop sub32 (BF_ArgNode_compute lhs) (BF_ConstNode_compute rhs).

Definition SubArgConstNode_eval (lhs : BF_Arg) (rhs : BF_Const) : M Z :=
  SubArgConstNode_compute lhs rhs.

Definition BF_CallNode_eval (statements : M unit) (arg : M Z) : M Z :=
  a <- arg ;;
  in_call (store_top a ;;; incr_top ;;;
           statements ;;;
           set_stopForReturn false ;;; decr_top ;;;
           get_returnValue).

(** *** namespace SimplifyCalls *)

Definition CallAnyNode_eval (function arg : M Z) : M Z :=
  a <- arg ;;
  in_call (store_top a ;;; incr_top ;;;
           result <- function ;;
           set_stopForReturn false ;;; decr_top ;;;
           ret result).

Definition IfElseNode_eval (condition ifBody elseBody : M Z) : M Z :=
  c <- condition ;;
  if truthy c then ifBody else elseBody.

End Methods.

(** ** Virtual dispatch *)

Section Eval.

Variable ord : operand_order.

(** Dispatch on the class of a node; [enter_function] and [enter_node]
    are what following a [Function*], respectively a non-owned [Node*],
    leads to. *)
Section Dispatch.

Variable enter_function : fn_ref -> M unit.
Variable enter_node : node_ref -> M Z.

Fixpoint eval_with (n : Node) : M Z :=
  match n with
  | BaseNode => Node_eval
  | ConstNode value => ConstNode_eval value
  | AddNode lhs rhs => AddNode_eval ord (eval_with lhs) (eval_with rhs)
  | SubNode lhs rhs => SubNode_eval ord (eval_with lhs) (eval_with rhs)
  | LessNode lhs rhs => LessNode_eval ord (eval_with lhs) (eval_with rhs)
  | IfNode condition body =>
      IfNode_eval (eval_with condition) (eval_with body)
  | CallNode function arg =>
      CallNode_eval (enter_function function) (eval_with arg)
  | ReturnNode rhs => ReturnNode_eval (eval_with rhs)
  | ArgNode => ArgNode_eval
  | LessConstNode lhs constant =>
      LessConstNode_eval (eval_with lhs) constant
  | SubConstNode lhs constant =>
      SubConstNode_eval (eval_with lhs) constant
  | OfConst n => BF_ConstNode_eval n
  | OfArg n => BF_ArgNode_eval n
  | LessArgConstNode lhs rhs => LessArgConstNode_eval ord lhs rhs
  | SubArgConstNode lhs rhs => SubArgConstNode_eval ord lhs rhs
  | BF_CallNode function arg =>
      BF_CallNode_eval (enter_function function) (eval_with arg)
  | CallAnyNode function arg =>
      CallAnyNode_eval (enter_node function) (eval_with arg)
  | IfElseNode condition ifBody elseBody =>
      IfElseNode_eval (eval_with condition) (eval_with ifBody)
                      (eval_with elseBody)
  end.

End Dispatch.

(** The objects the driver owns: the [Function]s that [CallNode]s refer
    to and the nodes that [CallAnyNode]s refer to. *)
Variable funs : list Function.
Variable nodes : list Node.

(** Following a handle that refers to no object is undefined. *)
Definition run_function (ev : Node -> M Z) (f : fn_ref) : M unit :=
  fun c =>
    match funs !! f with
    | Some body => run_body ev body c
    | None => Undefined
    end.

Definition run_node (ev : Node -> M Z) (r : node_ref) : M Z :=
  fun c =>
    match nodes !! r with
    | Some callee => ev callee c
    | None => Undefined
    end.

Fixpoint eval (fuel : nat) (n : Node) {struct fuel} : M Z :=
  match fuel with
  | O => eval_with (fun _ => out_of_fuel) (fun _ => out_of_fuel) n
  | S fuel' =>
      eval_with (run_function (eval fuel')) (run_node (eval fuel')) n
  end.

End Eval.

(** Keeps the value of a finished evaluation. *)
Definition result_of {A} (o : outcome (A * Context * list event)) : outcome A :=
  match o with
  | Done (a, _, _) => Done a
  | Undefined => Undefined
  | OutOfFuel => OutOfFuel
  end.

(** ** The four drivers and the reference definition *)

Module Simplest.

Definition function : Function :=
  [ IfNode (LessNode ArgNode (ConstNode 2)) (ReturnNode ArgNode);
    ReturnNode
      (AddNode
         (CallNode 0%nat (SubNode ArgNode (ConstNode 1)))
         (CallNode 0%nat (SubNode ArgNode (ConstNode 2)))) ].

Definition fib (ord : operand_order) (fuel : nat) (n : Z) : outcome Z :=
  result_of
    (eval ord [function] [] fuel (CallNode 0%nat (ConstNode n)) new_Context).

End Simplest.

Module SimpleFusion.

Definition function : Function :=
  [ IfNode (LessConstNode ArgNode 2) (ReturnNode ArgNode);
    ReturnNode
      (AddNode
         (CallNode 0%nat (SubConstNode ArgNode 1))
         (CallNode 0%nat (SubConstNode ArgNode 2))) ].

Definition fib (ord : operand_order) (fuel : nat) (n : Z) : outcome Z :=
  result_of
    (eval ord [function] [] fuel (CallNode 0%nat (ConstNode n)) new_Context).

End SimpleFusion.

Module BetterFusion.

Definition function : Function :=
  [ IfNode (LessArgConstNode BF_ArgNode (BF_ConstNode 2))
           (ReturnNode BF_ArgNode);
    ReturnNode
      (AddNode
         (BF_CallNode 0%nat (SubArgConstNode BF_ArgNode (BF_ConstNode 1)))
         (BF_CallNode 0%nat (SubArgConstNode BF_ArgNode (BF_ConstNode 2)))) ].

Definition fib (ord : operand_order) (fuel : nat) (n : Z) : outcome Z :=
  result_of
    (eval ord [function] [] fuel
       (BF_CallNode 0%nat (BF_ConstNode n)) new_Context).

End BetterFusion.

Module SimplifyCalls.

Definition function : Node :=
  IfElseNode
    (LessArgConstNode BF_ArgNode (BF_ConstNode 2))
    BF_ArgNode
    (AddNode
       (CallAnyNode 0%nat (SubArgConstNode BF_ArgNode (BF_ConstNode 1)))
       (CallAnyNode 0%nat (SubArgConstNode BF_ArgNode (BF_ConstNode 2)))).

Definition fib (ord : operand_order) (fuel : nat) (n : Z) : outcome Z :=
  result_of
    (eval ord [] [function] fuel
       (CallAnyNode 0%nat (BF_ConstNode n)) new_Context).

End SimplifyCalls.

(** The plain recursive [fib] at the end of the file; fuel bounds the depth
    of the recursion. *)
Fixpoint fib (fuel : nat) (n : Z) : outcome Z :=
  match fuel with
  | O => OutOfFuel
  | S fuel' =>
      if n <? 2 then Done n
      else
        match fib fuel' (sub32 n 1), fib fuel' (sub32 n 2) with
        | Done a, Done b => Done (add32 a b)
        | _, _ => OutOfFuel
        end
  end.


(** ** What an evaluation may change *)

(** The effect of a finished evaluation on the context, in terms of its
    log: the stack pointer is back where it was, the slots below it are
    untouched, [returnValue] is what the last event left there, and
    [stopForReturn] is decided by the last event of the frame. *)
Record effect (c c' : Context) (l : list event) : Prop := {
  eff_top : stackTop c' = stackTop c;
  eff_frame : forall i, i < stackTop c -> stack c' !! i = stack c !! i;
  eff_value : returnValue c' = last_value l (returnValue c);
  eff_fired : returnValue c' = last_fired l (returnValue c);
  eff_signal : stopForReturn c' = signal_after l (stopForReturn c)
}.

Definition effectful {A} (m : M A) : Prop :=
  forall c a c' l, m c = Done (a, c', l) -> effect c c' l.

(** The context a callee body starts in, and the context a call leaves. *)
Definition enter_frame (a : Z) (c : Context) : Context :=
  {| stopForReturn := stopForReturn c;
     returnValue := returnValue c;
     stack := <[stackTop c := a]> (stack c);
     stackTop := stackTop c + 1 |}.

Definition leave_frame (c : Context) : Context :=
  {| stopForReturn := false;
     returnValue := returnValue c;
     stack := stack c;
     stackTop := wrap32 (stackTop c - 1) |}.

(** The node classes whose [eval] follows the call protocol. *)
Definition is_call (n : Node) : Prop :=
  match n with
  | CallNode _ _ | BF_CallNode _ _ | CallAnyNode _ _ => True
  | _ => False
  end.

(** A program whose second callee has a body in which no [Return] fires:
    [main] calls [seven] as a statement, then returns the value of a call
    of [silent]. *)
Module MissingReturn.

Definition seven : Function := [ReturnNode (ConstNode 7)].

Definition silent : Function := [].

Definition main : Function :=
  [ CallNode 0%nat (ConstNode 0);
    ReturnNode (CallNode 1%nat (ConstNode 0)) ].

Definition funs : list Function := [seven; silent; main].

(** The context in which [main] evaluates the call of [silent]: slot 0
    holds the argument of [main], slot 1 the argument [seven] was
    called with. *)
Definition before_silent : Context :=
  {| stopForReturn := false;
     returnValue := 7;
     stack := <[1 := 0]> (<[0 := 0]> ∅);
     stackTop := 1 |}.

End MissingReturn.

(** A program with a [Return] inside a nested [If]: [early] returns from
    inside two [If]s, [late] only from its second statement; [main] calls
    [early] as a statement and then adds a call of each. *)
Module ReturnIsolation.

Definition early : Function :=
  [ IfNode (ConstNode 1) (IfNode (ConstNode 1) (ReturnNode (ConstNode 5)));
    ReturnNode (ConstNode 6) ].

Definition late : Function :=
  [ IfNode (ConstNode 0) (ReturnNode (ConstNode 8));
    ReturnNode (ConstNode 9) ].

Definition main : Function :=
  [ CallNode 0%nat (ConstNode 0);
    ReturnNode (AddNode (CallNode 0%nat (ConstNode 0))
                        (CallNode 1%nat (ConstNode 0))) ].

Definition funs : list Function := [early; late; main].

End ReturnIsolation.

(** ** Undoing the fusion

    [unfuse] rewrites a tree into classes of namespace [Simplest] (and the
    two classes of [SimplifyCalls], which fuse nothing): a fused node becomes
    the [Less] or [Sub] over [Arg] and [Const] children it stands for, and
    a class of [BetterFusion] the class it shadows. *)
Fixpoint unfuse (n : Node) : Node :=
  match n with
  | BaseNode => BaseNode
  | ConstNode value => ConstNode value
  | AddNode lhs rhs => AddNode (unfuse lhs) (unfuse rhs)
  | SubNode lhs rhs => SubNode (unfuse lhs) (unfuse rhs)
  | LessNode lhs rhs => LessNode (unfuse lhs) (unfuse rhs)
  | IfNode condition body => IfNode (unfuse condition) (unfuse body)
  | CallNode function arg => CallNode function (unfuse arg)
  | ReturnNode rhs => ReturnNode (unfuse rhs)
  | ArgNode => ArgNode
  | LessConstNode lhs constant => LessNode (unfuse lhs) (ConstNode constant)
  | SubConstNode lhs constant => SubNode (unfuse lhs) (ConstNode constant)
  | OfConst (BF_ConstNode value) => ConstNode value
  | OfArg BF_ArgNode => ArgNode
  | LessArgConstNode BF_ArgNode (BF_ConstNode value) =>
      LessNode ArgNode (ConstNode value)
  | SubArgConstNode BF_ArgNode (BF_ConstNode value) =>
      SubNode ArgNode (ConstNode value)
  | BF_CallNode function arg => CallNode function (unfuse arg)
  | CallAnyNode function arg => CallAnyNode function (unfuse arg)
  | IfElseNode condition ifBody elseBody =>
      IfElseNode (unfuse condition) (unfuse ifBody) (unfuse elseBody)
  end.

Definition unfuse_body (body : list Node) : list Node :=
  fmap (M := list) unfuse body.

Definition unfuse_functions (funs : list (list Node)) : list (list Node) :=
  fmap (M := list) unfuse_body funs.

(** Two computations that do the same in every context. *)
Definition same {A} (m m' : M A) : Prop := forall c, m c = m' c.

(** The current frame's argument is [k]. *)
Definition top_is (k : Z) (c : Context) : Prop :=
  1 <= stackTop c <= STACK_SIZE /\ stack c !! (stackTop c - 1) = Some k.

(** The Fibonacci numbers as the specification names them, [F 0 = 0],
    [F 1 = 1], [F (n + 2) = F (n + 1) + F n], without any bound; the
    programs above are compared with them modulo [2 ^ 32]. *)
Fixpoint fibonacci (n : nat) : Z :=
  match n with
  | O => 0
  | S m =>
      match m with
      | O => 1
      | S p => fibonacci m + fibonacci p
      end
  end.

(** The two operands of a binary node evaluate, in the order [ord], to [a]
    (left) and [b] (right), taking the context from [c] to [c']. *)
Definition operands_yield (ord : operand_order) (lhs rhs : M Z)
    (c : Context) (a b : Z) (c' : Context) (l : list event) : Prop :=
  match ord with
  | LeftFirst =>
      exists c1 l1 l2,
        lhs c = Done (a, c1, l1) /\ rhs c1 = Done (b, c', l2) /\ l = l1 ++ l2
  | RightFirst =>
      exists c1 l1 l2,
        rhs c = Done (b, c1, l1) /\ lhs c1 = Done (a, c', l2) /\ l = l1 ++ l2
  end.

(** ** Shapes of trees *)

(** No call node anywhere in the tree. *)
Fixpoint call_free (n : Node) : bool :=
  match n with
  | CallNode _ _ | BF_CallNode _ _ | CallAnyNode _ _ => false
  | AddNode lhs rhs | SubNode lhs rhs | LessNode lhs rhs =>
      call_free lhs && call_free rhs
  | IfNode condition body => call_free condition && call_free body
  | ReturnNode rhs => call_free rhs
  | LessConstNode lhs _ | SubConstNode lhs _ => call_free lhs
  | IfElseNode condition ifBody elseBody =>
      call_free condition && call_free ifBody && call_free elseBody
  | _ => true
  end.

(** No [ReturnNode] anywhere in the tree. *)
Fixpoint return_free (n : Node) : bool :=
  match n with
  | ReturnNode _ => false
  | AddNode lhs rhs | SubNode lhs rhs | LessNode lhs rhs =>
      return_free lhs && return_free rhs
  | IfNode condition body => return_free condition && return_free body
  | CallNode _ arg | BF_CallNode _ arg | CallAnyNode _ arg => return_free arg
  | LessConstNode lhs _ | SubConstNode lhs _ => return_free lhs
  | IfElseNode condition ifBody elseBody =>
      return_free condition && return_free ifBody && return_free elseBody
  | _ => true
  end.

(** An outcome that returns without having changed the context [c], or
    is undefined. *)
Definition unchanged_or_undefined (c : Context)
    (o : outcome (Z * Context * list event)) : Prop :=
  o = Undefined \/ exists v, o = Done (v, c, []).

(** A computation during which no [Return] fires. *)
Definition silent {A} (m : M A) : Prop :=
  forall c a c' l, m c = Done (a, c', l) -> fired l = [].

(** Every tree the driver owns is free of [ReturnNode]. *)
Definition return_free_program (funs : list (list Node)) (nodes : list Node)
    : Prop :=
  Forall (Forall (fun s => return_free s = true)) funs /\
  Forall (fun s => return_free s = true) nodes.

(** The deepest nesting of calls a log records: a completed call counts
    one more than the deepest call of its callee. *)
Fixpoint event_depth (e : event) : nat :=
  match e with
  | Fired _ => 0
  | Called inner _ =>
      S (fold_right (fun e d => Nat.max (event_depth e) d) 0%nat inner)
  end.

Definition log_depth (l : list event) : nat :=
  fold_right (fun e d => Nat.max (event_depth e) d) 0%nat l.

(** A computation that, when it returns, has put [stackTop] back and has
    nested its calls no deeper than the free slots allow. *)
Definition within_capacity {A} (m : M A) : Prop :=
  forall c a c' l,
    m c = Done (a, c', l) ->
    stackTop c' = stackTop c /\
    ((0 < log_depth l)%nat -> Z.of_nat (log_depth l) + stackTop c <= STACK_SIZE).

(** What running [b2] after [b1] amounts to, given the outcome of [b1]:
    the statements of [b2] are run unless [b1] ended with the signal
    raised. *)
Definition then_run (ev : Node -> M Z) (b1 b2 : list Node)
    (o : outcome (unit * Context * list event))
    : outcome (unit * Context * list event) :=
  match o with
  | Done (_, c1, l1) =>
      if stopForReturn c1 && negb (bool_decide (b1 = []))
      then Done (tt, c1, l1)
      else match run_body ev b2 c1 with
           | Done (x, c2, l2) => Done (x, c2, l1 ++ l2)
           | Undefined => Undefined
           | OutOfFuel => OutOfFuel
           end
  | Undefined => Undefined
  | OutOfFuel => OutOfFuel
  end.

(** A callee of two statements, called with a [Return] as its argument. *)
Module SignalAtEntry.

Definition callee : list Node := [ConstNode 1; ReturnNode (ConstNode 9)].

Definition funs : list (list Node) := [callee].

Definition call : Node := CallNode 0%nat (ReturnNode (ConstNode 5)).

End SignalAtEntry.

(** A computation that cannot lower a raised signal. *)
Definition keeps_signal {A} (m : M A) : Prop :=
  forall c a c' l,
    m c = Done (a, c', l) -> stopForReturn c = true -> stopForReturn c' = true.

(** ** Values of type [uint32_t]

    The fields and constants the source declares as [uint32_t] are
    integers in the embedding; these predicates say that they are in
    range. *)

Definition u32b (z : Z) : bool := (0 <=? z) && (z <? 2 ^ 32).

Fixpoint u32_constants (n : Node) : bool :=
  match n with
  | ConstNode value => u32b value
  | OfConst (BF_ConstNode value) => u32b value
  | LessArgConstNode _ (BF_ConstNode value)
  | SubArgConstNode _ (BF_ConstNode value) => u32b value
  | LessConstNode lhs constant | SubConstNode lhs constant =>
      u32_constants lhs && u32b constant
  | AddNode lhs rhs | SubNode lhs rhs | LessNode lhs rhs =>
      u32_constants lhs && u32_constants rhs
  | IfNode condition body => u32_constants condition && u32_constants body
  | CallNode _ arg | BF_CallNode _ arg | CallAnyNode _ arg => u32_constants arg
  | ReturnNode rhs => u32_constants rhs
  | IfElseNode condition ifBody elseBody =>
      u32_constants condition && u32_constants ifBody && u32_constants elseBody
  | BaseNode | ArgNode | OfArg _ => true
  end.

Definition u32_program (funs : list (list Node)) (nodes : list Node) : Prop :=
  Forall (Forall (fun s => u32_constants s = true)) funs /\
  Forall (fun s => u32_constants s = true) nodes.

Definition u32_Context (c : Context) : Prop :=
  is_u32 (returnValue c) /\ is_u32 (stackTop c) /\
  map_Forall (fun _ v => is_u32 v) (stack c).

(** A computation that keeps the context in range and returns a value
    satisfying [good]. *)
Definition in_range {A} (good : A -> Prop) (m : M A) : Prop :=
  forall c a c' l,
    u32_Context c -> m c = Done (a, c', l) -> u32_Context c' /\ good a.

(** A tree built without the fused classes of stages 2 and 3 and without
    the classes of [BetterFusion] that shadow those of [Simplest]. *)
Fixpoint unfused (n : Node) : bool :=
  match n with
  | BaseNode | ConstNode _ | ArgNode => true
  | AddNode lhs rhs | SubNode lhs rhs | LessNode lhs rhs =>
      unfused lhs && unfused rhs
  | IfNode condition body => unfused condition && unfused body
  | CallNode _ arg | CallAnyNode _ arg => unfused arg
  | ReturnNode rhs => unfused rhs
  | IfElseNode condition ifBody elseBody =>
      unfused condition && unfused ifBody && unfused elseBody
  | LessConstNode _ _ | SubConstNode _ _ | OfConst _ | OfArg _
  | LessArgConstNode _ _ | SubArgConstNode _ _ | BF_CallNode _ _ => false
  end.

(** ** The redesign of stage 4, as a translation

    Stage 4 replaces a body made of [If (c) Return a] followed by
    [Return b] by the one node [IfElse (c, a, b)], and a call of the
    function by a [CallAny] of that node.  [simplify_calls] does this to
    the calls of a tree and [simplify_function] to a body. *)

(** A tree used for its value: no [ReturnNode] in it, and no [CallAnyNode]
    (whose callees the translation replaces). *)
Fixpoint expression (n : Node) : bool :=
  match n with
  | ReturnNode _ | CallAnyNode _ _ => false
  | AddNode lhs rhs | SubNode lhs rhs | LessNode lhs rhs =>
      expression lhs && expression rhs
  | IfNode condition body => expression condition && expression body
  | CallNode _ arg | BF_CallNode _ arg => expression arg
  | LessConstNode lhs _ | SubConstNode lhs _ => expression lhs
  | IfElseNode condition ifBody elseBody =>
      expression condition && expression ifBody && expression elseBody
  | _ => true
  end.

Fixpoint simplify_calls (n : Node) : Node :=
  match n with
  | CallNode function arg => CallAnyNode function (simplify_calls arg)
  | BF_CallNode function arg => CallAnyNode function (simplify_calls arg)
  | AddNode lhs rhs => AddNode (simplify_calls lhs) (simplify_calls rhs)
  | SubNode lhs rhs => SubNode (simplify_calls lhs) (simplify_calls rhs)
  | LessNode lhs rhs => LessNode (simplify_calls lhs) (simplify_calls rhs)
  | IfNode condition body =>
      IfNode (simplify_calls condition) (simplify_calls body)
  | ReturnNode rhs => ReturnNode (simplify_calls rhs)
  | LessConstNode lhs constant => LessConstNode (simplify_calls lhs) constant
  | SubConstNode lhs constant => SubConstNode (simplify_calls lhs) constant
  | CallAnyNode function arg => CallAnyNode function (simplify_calls arg)
  | IfElseNode condition ifBody elseBody =>
      IfElseNode (simplify_calls condition) (simplify_calls ifBody)
                 (simplify_calls elseBody)
  | _ => n
  end.

(** The bodies the redesign applies to. *)
Definition guarded_body (body : list Node) : bool :=
  match body with
  | [IfNode condition (ReturnNode a); ReturnNode b] =>
      expression condition && expression a && expression b
  | _ => false
  end.

Definition simplify_function (body : list Node) : Node :=
  match body with
  | [IfNode condition (ReturnNode a); ReturnNode b] =>
      IfElseNode (simplify_calls condition) (simplify_calls a)
                 (simplify_calls b)
  | _ => BaseNode
  end.

Definition simplify_functions (funs : list (list Node)) : list Node :=
  fmap (M := list) simplify_function funs.

(** Contexts with the same argument stack. *)
Definition same_stack (c1 c4 : Context) : Prop :=
  stack c1 = stack c4 /\ stackTop c1 = stackTop c4.

(** The context of the original program and that of the simplified one
    while both evaluate an expression: the same stack, and no return in
    progress in the original. *)
Definition agree (c1 c4 : Context) : Prop :=
  same_stack c1 c4 /\ stopForReturn c1 = false.

(** Two outcomes that fail alike or return results related by [P]. *)
Definition sim_outcome {A B} (P : A -> Context -> B -> Context -> Prop)
    (o1 : outcome (A * Context * list event))
    (o4 : outcome (B * Context * list event)) : Prop :=
  match o1, o4 with
  | Done (a, c1, _), Done (b, c4, _) => P a c1 b c4
  | Undefined, Undefined => True
  | OutOfFuel, OutOfFuel => True
  | _, _ => False
  end.

Definition sim {A B} (P : A -> Context -> B -> Context -> Prop)
    (m1 : M A) (m4 : M B) : Prop :=
  forall c1 c4, agree c1 c4 -> sim_outcome P (m1 c1) (m4 c4).

(** An expression and its translation: the same value. *)
Definition expr_post (a : Z) (c1 : Context) (b : Z) (c4 : Context) : Prop :=
  a = b /\ agree c1 c4.

(** A body and the node that replaces it: what the body leaves in
    [returnValue] is the value of the node. *)
Definition body_post (_ : unit) (c1 : Context) (b : Z) (c4 : Context) : Prop :=
  returnValue c1 = b /\ same_stack c1 c4.

(** ** Contexts that differ only above [stackTop] *)

Definition alike (c d : Context) : Prop :=
  stopForReturn c = stopForReturn d /\
  returnValue c = returnValue d /\
  stackTop c = stackTop d /\
  0 <= stackTop c /\
  forall i, 0 <= i < stackTop c -> stack c !! i = stack d !! i.

(** A computation that cannot tell such contexts apart: it fails alike or
    returns the same value and log, leaving contexts that are alike again
    and [stackTop] where it was. *)
Definition blind_above {A} (m : M A) : Prop :=
  forall c d,
    alike c d ->
    match m c, m d with
    | Done (a, c', l), Done (b, d', l') =>
        a = b /\ l = l' /\ alike c' d' /\ stackTop c' = stackTop c
    | Undefined, Undefined => True
    | OutOfFuel, OutOfFuel => True
    | _, _ => False
    end.

(** * Proofs *)

(** ** Reasoning about the monad *)

Lemma bind_Done_inv {A B} (m : M A) (k : A -> M B) c b c2 l :
  bind m k c = Done (b, c2, l) ->
  exists a c1 l1 l2,
    m c = Done (a, c1, l1) /\ k a c1 = Done (b, c2, l2) /\ l = l1 ++ l2.
Proof.
  unfold bind. destruct (m c) as [[[a c1] l1]| |]; try discriminate.
  destruct (k a c1) as [[[b' c2'] l2]| |] eqn:Hk; try discriminate.
  intros [= <- <- <-]. exists a, c1, l1, l2. auto.
Qed.

Lemma bind_Done {A B} (m : M A) (k : A -> M B) c a c1 l1 b c2 l2 l :
  m c = Done (a, c1, l1) -> k a c1 = Done (b, c2, l2) -> l = l1 ++ l2 ->
  bind m k c = Done (b, c2, l).
Proof. unfold bind. intros -> -> ->. reflexivity. Qed.

Lemma bind_Undefined_l {A B} (m : M A) (k : A -> M B) c :
  m c = Undefined -> bind m k c = Undefined.
Proof. unfold bind. intros ->. reflexivity. Qed.

Lemma bind_Undefined_r {A B} (m : M A) (k : A -> M B) c a c1 l1 :
  m c = Done (a, c1, l1) -> k a c1 = Undefined -> bind m k c = Undefined.
Proof. unfold bind. intros -> ->. reflexivity. Qed.

Lemma bind_ret_l {A B} (a : A) (k : A -> M B) c : bind (ret a) k c = k a c.
Proof. unfold bind, ret. destruct (k a c) as [[[b c2] l2]| |]; reflexivity. Qed.

Lemma bind_ext {A B} (m m' : M A) (k k' : A -> M B) c :
  m c = m' c -> (forall a c1, k a c1 = k' a c1) -> bind m k c = bind m' k' c.
Proof.
  unfold bind. intros -> Hk. destruct (m' c) as [[[a c1] l1]| |]; try reflexivity.
  rewrite Hk. reflexivity.
Qed.

Lemma in_call_Done_inv (m : M Z) c v c' l :
  in_call m c = Done (v, c', l) ->
  exists lb, m c = Done (v, c', lb) /\ l = [Called lb (returnValue c')].
Proof.
  unfold in_call. destruct (m c) as [[[v' c''] lb]| |]; try discriminate.
  intros [= <- <- <-]. eauto.
Qed.

(** ** Logs *)

Lemma fired_app l1 l2 : fired (l1 ++ l2) = fired l1 ++ fired l2.
Proof. unfold fired. apply flat_map_app. Qed.

Lemma fired_Called lb v : fired [Called lb v] = fired lb.
Proof. unfold fired. simpl. apply app_nil_r. Qed.

Lemma last_value_app l1 l2 d :
  last_value (l1 ++ l2) d = last_value l2 (last_value l1 d).
Proof.
  unfold last_value. rewrite last_app. destruct (last l2); reflexivity.
Qed.

Lemma last_fired_app l1 l2 d :
  last_fired (l1 ++ l2) d = last_fired l2 (last_fired l1 d).
Proof.
  unfold last_fired. rewrite fired_app, last_app.
  destruct (last (fired l2)); reflexivity.
Qed.

Lemma signal_after_app l1 l2 b :
  signal_after (l1 ++ l2) b = signal_after l2 (signal_after l1 b).
Proof.
  unfold signal_after. rewrite last_app. destruct (last l2) as [[]|]; reflexivity.
Qed.

(** ** What an evaluation may change: proofs *)

Lemma effect_refl c : effect c c [].
Proof. split; reflexivity || auto. Qed.

Lemma effect_trans c c1 c2 l1 l2 :
  effect c c1 l1 -> effect c1 c2 l2 -> effect c c2 (l1 ++ l2).
Proof.
  intros [T1 F1 V1 R1 S1] [T2 F2 V2 R2 S2]. split.
  - congruence.
  - intros i Hi. rewrite F2 by lia. auto.
  - rewrite last_value_app. congruence.
  - rewrite last_fired_app. congruence.
  - rewrite signal_after_app. congruence.
Qed.

Lemma effectful_ret {A} (a : A) : effectful (ret a).
Proof. intros c a' c' l [= <- <- <-]. apply effect_refl. Qed.

Lemma effectful_bind {A B} (m : M A) (k : A -> M B) :
  effectful m -> (forall a, effectful (k a)) -> effectful (bind m k).
Proof.
  intros Hm Hk c b c2 l H.
  apply bind_Done_inv in H as (a & c1 & l1 & l2 & H1 & H2 & ->).
  eapply effect_trans; [eapply Hm | eapply Hk]; eassumption.
Qed.

Lemma effectful_read_top : effectful read_top.
Proof.
  intros c a c' l. unfold read_top.
  destruct (in_bounds _); try discriminate.
  destruct (stack c !! _); try discriminate.
  intros [= <- <- <-]. apply effect_refl.
Qed.

Lemma effectful_get_stopForReturn : effectful get_stopForReturn.
Proof. intros c a c' l [= <- <- <-]. apply effect_refl. Qed.

Lemma effectful_out_of_fuel {A} : effectful (@out_of_fuel A).
Proof. intros c a c' l. discriminate. Qed.

Lemma effectful_undefined {A} : effectful (@undefined A).
Proof. intros c a c' l. discriminate. Qed.

Ltac inv_bind H :=
  let a := fresh "a" in
  let c1 := fresh "c" in
  let l1 := fresh "l" in
  let l2 := fresh "l" in
  let H1 := fresh "Hm" in
  apply bind_Done_inv in H as (a & c1 & l1 & l2 & H1 & H & ->).

Lemma effectful_binop ord op (lhs rhs : M Z) :
  effectful lhs -> effectful rhs -> effectful (binop ord op lhs rhs).
Proof.
  intros Hl Hr. unfold binop. destruct ord;
    repeat (apply effectful_bind; [assumption | intros ?]);
    apply effectful_ret.
Qed.

Lemma effectful_IfNode_eval (condition body : M Z) :
  effectful condition -> effectful body ->
  effectful (IfNode_eval condition body).
Proof.
  intros Hc Hb. unfold IfNode_eval.
  apply effectful_bind; [assumption | intros c].
  destruct (truthy c); [| apply effectful_ret].
  apply effectful_bind; [assumption | intros ?; apply effectful_ret].
Qed.

Lemma effectful_IfElseNode_eval (condition ifBody elseBody : M Z) :
  effectful condition -> effectful ifBody -> effectful elseBody ->
  effectful (IfElseNode_eval condition ifBody elseBody).
Proof.
  intros Hc Hi He. unfold IfElseNode_eval.
  apply effectful_bind; [assumption | intros c].
  destruct (truthy c); assumption.
Qed.

Lemma effectful_ReturnNode_eval (rhs : M Z) :
  effectful rhs -> effectful (ReturnNode_eval rhs).
Proof.
  intros Hr c a c' l H. unfold ReturnNode_eval in H.
  inv_bind H. eapply effect_trans; [eapply Hr; eassumption |].
  revert H. unfold bind, set_returnValue, set_stopForReturn, mark, ret.
  intros [= <- <- <-]. split; simpl; auto.
Qed.

Lemma in_bounds_spec i : in_bounds i = true <-> 0 <= i < STACK_SIZE.
Proof. unfold in_bounds. rewrite andb_true_iff, Z.leb_le, Z.ltb_lt. tauto. Qed.

Lemma wrap32_small z : 0 <= z < 2 ^ 32 -> wrap32 z = z.
Proof. intros H. unfold wrap32. apply Z.mod_small. exact H. Qed.

(** The frame of a call: the argument is stored at [stackTop], the callee
    runs one slot higher, and the exit lowers the signal and pops. *)
Lemma call_frame_inv {A} (callee : M A) (finish : A -> M Z) a c v c' l :
  (forall x c0 v0 c1 l1, finish x c0 = Done (v0, c1, l1) -> c1 = c0 /\ l1 = []) ->
  (store_top a ;;; incr_top ;;; x <- callee ;;
   set_stopForReturn false ;;; decr_top ;;; finish x) c = Done (v, c', l) ->
  exists x c2,
    0 <= stackTop c < STACK_SIZE /\
    callee (enter_frame a c) = Done (x, c2, l) /\
    c' = leave_frame c2 /\
    finish x c' = Done (v, c', []).
Proof.
  intros Hfin H.
  inv_bind H. unfold store_top in Hm.
  destruct (in_bounds (stackTop c)) eqn:Hb; try discriminate.
  apply in_bounds_spec in Hb. injection Hm as <- <- <-.
  inv_bind H. injection Hm as <- <- <-. simpl in H.
  inv_bind H. inv_bind H. injection Hm0 as <- <- <-.
  inv_bind H. injection Hm0 as <- <- <-.
  destruct (Hfin _ _ _ _ _ H) as [-> ->].
  rewrite wrap32_small in Hm by (unfold STACK_SIZE in Hb; lia).
  simpl. rewrite app_nil_r. unfold enter_frame, leave_frame. eauto 6.
Qed.

Lemma CallNode_eval_inv (statements : M unit) (arg : M Z) c v c' l :
  CallNode_eval statements arg c = Done (v, c', l) ->
  exists a c1 la c2 lb,
    arg c = Done (a, c1, la) /\
    0 <= stackTop c1 < STACK_SIZE /\
    statements (enter_frame a c1) = Done (tt, c2, lb) /\
    c' = leave_frame c2 /\ v = returnValue c2 /\
    l = la ++ [Called lb v].
Proof.
  unfold CallNode_eval. intros H. inv_bind H.
  apply in_call_Done_inv in H as (lb & H & ->).
  apply (call_frame_inv statements (fun _ => get_returnValue)) in H
    as ([] & c2 & Hb & Hs & -> & Hf).
  - injection Hf as <-. exists a, c0, l0, c2, lb. auto 7.
  - intros _ c1 v0 c2 l1 [= <- <- <-]. auto.
Qed.

Lemma CallAnyNode_eval_inv (function arg : M Z) c v c' l :
  CallAnyNode_eval function arg c = Done (v, c', l) ->
  exists a c1 la c2 lb,
    arg c = Done (a, c1, la) /\
    0 <= stackTop c1 < STACK_SIZE /\
    function (enter_frame a c1) = Done (v, c2, lb) /\
    c' = leave_frame c2 /\
    l = la ++ [Called lb (returnValue c2)].
Proof.
  unfold CallAnyNode_eval. intros H. inv_bind H.
  apply in_call_Done_inv in H as (lb & H & ->).
  apply (call_frame_inv function (fun result => ret result)) in H
    as (x & c2 & Hb & Hs & -> & Hf).
  - injection Hf as <-. exists a, c0, l0, c2, lb. auto 7.
  - intros _ c1 v0 c2 l1 [= <- <- <-]. auto.
Qed.

Lemma effect_call a c1 c2 lb :
  0 <= stackTop c1 < STACK_SIZE ->
  effect (enter_frame a c1) c2 lb ->
  effect c1 (leave_frame c2) [Called lb (returnValue c2)].
Proof.
  intros Hb [T F V R S]. simpl in *. split; simpl.
  - rewrite T. replace (stackTop c1 + 1 - 1) with (stackTop c1) by lia.
    apply wrap32_small. unfold STACK_SIZE in Hb. lia.
  - intros i Hi. rewrite F by lia. apply lookup_insert_ne. lia.
  - reflexivity.
  - unfold last_fired in *. rewrite fired_Called. exact R.
  - reflexivity.
Qed.

Lemma effectful_CallNode_eval (statements : M unit) (arg : M Z) :
  effectful statements -> effectful arg ->
  effectful (CallNode_eval statements arg).
Proof.
  intros Hs Ha c v c' l H.
  apply CallNode_eval_inv in H
    as (a & c1 & la & c2 & lb & H1 & Hb & H2 & -> & -> & ->).
  eapply effect_trans; [eapply Ha; eassumption |].
  eapply effect_call; [assumption | eapply Hs; eassumption].
Qed.

Lemma effectful_CallAnyNode_eval (function arg : M Z) :
  effectful function -> effectful arg ->
  effectful (CallAnyNode_eval function arg).
Proof.
  intros Hs Ha c v c' l H.
  apply CallAnyNode_eval_inv in H
    as (a & c1 & la & c2 & lb & H1 & Hb & H2 & -> & ->).
  eapply effect_trans; [eapply Ha; eassumption |].
  eapply effect_call; [assumption | eapply Hs; eassumption].
Qed.

Lemma effectful_run_body (ev : Node -> M Z) body :
  (forall n, effectful (ev n)) -> effectful (run_body ev body).
Proof.
  intros Hev. induction body as [| statement rest IH]; simpl.
  - apply effectful_ret.
  - apply effectful_bind; [apply Hev | intros _].
    apply effectful_bind; [apply effectful_get_stopForReturn | intros stop].
    destruct stop; [apply effectful_ret | exact IH].
Qed.

Lemma effectful_eval_with ord (enter_function : fn_ref -> M unit)
    (enter_node : node_ref -> M Z) :
  (forall f, effectful (enter_function f)) ->
  (forall r, effectful (enter_node r)) ->
  forall n, effectful (eval_with ord enter_function enter_node n).
Proof.
  intros Hf Hn. induction n; simpl.
  - apply effectful_ret.
  - apply effectful_ret.
  - apply effectful_binop; assumption.
  - apply effectful_binop; assumption.
  - apply effectful_binop; assumption.
  - apply effectful_IfNode_eval; assumption.
  - apply effectful_CallNode_eval; auto.
  - apply effectful_ReturnNode_eval; assumption.
  - apply effectful_read_top.
  - apply effectful_bind; [assumption | intros ?; apply effectful_ret].
  - apply effectful_bind; [assumption | intros ?; apply effectful_ret].
  - destruct n. apply effectful_ret.
  - apply effectful_read_top.
  - destruct rhs. apply effectful_binop;
      [apply effectful_read_top | apply effectful_ret].
  - destruct rhs. apply effectful_binop;
      [apply effectful_read_top | apply effectful_ret].
  - apply effectful_CallNode_eval; auto.
  - apply effectful_CallAnyNode_eval; auto.
  - apply effectful_IfElseNode_eval; assumption.
Qed.

(** Every finished evaluation has the effect its log describes. *)
Lemma effectful_eval ord funs nodes fuel :
  forall n, effectful (eval ord funs nodes fuel n).
Proof.
  induction fuel as [| fuel IH]; intros n; simpl.
  - apply effectful_eval_with; intros; apply effectful_out_of_fuel.
  - apply effectful_eval_with.
    + intros f. unfold run_function. destruct (funs !! f).
      * apply effectful_run_body. exact IH.
      * apply effectful_undefined.
    + intros r. unfold run_node. destruct (nodes !! r).
      * apply IH.
      * apply effectful_undefined.
Qed.


(** ** Calls, seen from [eval] *)

Lemma eval_S ord funs nodes fuel n :
  eval ord funs nodes (S fuel) n =
  eval_with ord (run_function funs (eval ord funs nodes fuel))
            (run_node nodes (eval ord funs nodes fuel)) n.
Proof. reflexivity. Qed.

Lemma eval_CallNode_inv ord funs nodes fuel f arg c v c' l :
  eval ord funs nodes fuel (CallNode f arg) c = Done (v, c', l) ->
  exists fuel' body a c1 la c2 lb,
    fuel = S fuel' /\ funs !! f = Some body /\
    eval ord funs nodes fuel arg c = Done (a, c1, la) /\
    0 <= stackTop c1 < STACK_SIZE /\
    run_body (eval ord funs nodes fuel') body (enter_frame a c1)
      = Done (tt, c2, lb) /\
    c' = leave_frame c2 /\ v = returnValue c2 /\ l = la ++ [Called lb v].
Proof.
  destruct fuel as [| fuel']; simpl; intros H;
    apply CallNode_eval_inv in H
      as (a & c1 & la & c2 & lb & H1 & Hb & H2 & -> & -> & ->).
  - discriminate.
  - unfold run_function in H2. destruct (funs !! f) as [body |] eqn:Hf;
      [| discriminate].
    exists fuel', body, a, c1, la, c2, lb. auto 10.
Qed.

Lemma eval_BF_CallNode_inv ord funs nodes fuel f arg c v c' l :
  eval ord funs nodes fuel (BF_CallNode f arg) c = Done (v, c', l) ->
  exists fuel' body a c1 la c2 lb,
    fuel = S fuel' /\ funs !! f = Some body /\
    eval ord funs nodes fuel arg c = Done (a, c1, la) /\
    0 <= stackTop c1 < STACK_SIZE /\
    run_body (eval ord funs nodes fuel') body (enter_frame a c1)
      = Done (tt, c2, lb) /\
    c' = leave_frame c2 /\ v = returnValue c2 /\ l = la ++ [Called lb v].
Proof.
  intros H. apply (eval_CallNode_inv ord funs nodes fuel f arg).
  destruct fuel; exact H.
Qed.

Lemma eval_CallAnyNode_inv ord funs nodes fuel r arg c v c' l :
  eval ord funs nodes fuel (CallAnyNode r arg) c = Done (v, c', l) ->
  exists fuel' callee a c1 la c2 lb,
    fuel = S fuel' /\ nodes !! r = Some callee /\
    eval ord funs nodes fuel arg c = Done (a, c1, la) /\
    0 <= stackTop c1 < STACK_SIZE /\
    eval ord funs nodes fuel' callee (enter_frame a c1) = Done (v, c2, lb) /\
    c' = leave_frame c2 /\ l = la ++ [Called lb (returnValue c2)].
Proof.
  destruct fuel as [| fuel']; simpl; intros H;
    apply CallAnyNode_eval_inv in H
      as (a & c1 & la & c2 & lb & H1 & Hb & H2 & -> & ->).
  - discriminate.
  - unfold run_node in H2. destruct (nodes !! r) as [callee |] eqn:Hf;
      [| discriminate].
    exists fuel', callee, a, c1, la, c2, lb. auto 10.
Qed.

Lemma effectful_statements ord funs nodes fuel body :
  effectful (run_body (eval ord funs nodes fuel) body).
Proof. apply effectful_run_body. apply effectful_eval. Qed.

(** ** Stack discipline *)

(** C6: every evaluation that completes leaves [stackTop] where it found
    it, so a top-level evaluation started on a fresh context ends with
    [stackTop = 0]; a call runs its callee exactly one slot higher
    and pops exactly that slot on exit. *)
Theorem stackTop_restored ord funs nodes fuel n c v c' l :
  eval ord funs nodes fuel n c = Done (v, c', l) ->
  stackTop c' = stackTop c /\
  (c = new_Context -> stackTop c' = 0) /\
  (forall f arg, n = CallNode f arg \/ n = BF_CallNode f arg ->
     exists fuel' body a c1 la c2 lb,
       fuel = S fuel' /\ funs !! f = Some body /\
       eval ord funs nodes fuel arg c = Done (a, c1, la) /\
       run_body (eval ord funs nodes fuel') body (enter_frame a c1)
         = Done (tt, c2, lb) /\
       stackTop (enter_frame a c1) = stackTop c + 1 /\
       stackTop c2 = stackTop c + 1 /\
       stackTop c' = stackTop c2 - 1) /\
  (forall r arg, n = CallAnyNode r arg ->
     exists fuel' callee a c1 la c2 lb,
       fuel = S fuel' /\ nodes !! r = Some callee /\
       eval ord funs nodes fuel arg c = Done (a, c1, la) /\
       eval ord funs nodes fuel' callee (enter_frame a c1)
         = Done (v, c2, lb) /\
       stackTop (enter_frame a c1) = stackTop c + 1 /\
       stackTop c2 = stackTop c + 1 /\
       stackTop c' = stackTop c2 - 1).
Proof.
  intros H. pose proof (eff_top _ _ _ (effectful_eval _ _ _ _ _ _ _ _ _ H)) as Htop.
  split; [exact Htop |]. split; [intros ->; exact Htop |]. split.
  - intros f arg Hn.
    assert (Hc : eval ord funs nodes fuel (CallNode f arg) c = Done (v, c', l)).
    { destruct Hn as [-> | ->]; [exact H | destruct fuel; exact H]. }
    apply eval_CallNode_inv in Hc
      as (fuel' & body & a & c1 & la & c2 & lb & -> & Hf & Ha & Hb & Hs & -> & -> & ->).
    pose proof (eff_top _ _ _ (effectful_eval _ _ _ _ _ _ _ _ _ Ha)) as T1.
    pose proof (eff_top _ _ _ (effectful_statements _ _ _ _ _ _ _ _ _ Hs)) as T2.
    simpl in T2. exists fuel', body, a, c1, la, c2, lb.
    repeat split; try assumption; simpl; try lia.
    apply wrap32_small. unfold STACK_SIZE in Hb. lia.
  - intros r arg ->.
    apply eval_CallAnyNode_inv in H
      as (fuel' & callee & a & c1 & la & c2 & lb & -> & Hf & Ha & Hb & Hs & -> & ->).
    pose proof (eff_top _ _ _ (effectful_eval _ _ _ _ _ _ _ _ _ Ha)) as T1.
    pose proof (eff_top _ _ _ (effectful_eval _ _ _ _ _ _ _ _ _ Hs)) as T2.
    simpl in T2. exists fuel', callee, a, c1, la, c2, lb.
    repeat split; try assumption; simpl; try lia.
    apply wrap32_small. unfold STACK_SIZE in Hb. lia.
Qed.

Lemma stackTop_restored_witness :
  eval LeftFirst [Simplest.function] [] 1 (CallNode 0%nat (ConstNode 1))
       new_Context
  = Done (1, {| stopForReturn := false; returnValue := 1;
                stack := <[0 := 1]> ∅; stackTop := 0 |},
          [Called [Fired 1] 1]) /\
  stackTop {| stopForReturn := false; returnValue := 1;
              stack := <[0 := 1]> ∅; stackTop := 0 |} = stackTop new_Context.
Proof.
  split; [vm_compute; reflexivity |].
  refine (proj1 (stackTop_restored LeftFirst [Simplest.function] [] 1
                   (CallNode 0%nat (ConstNode 1)) new_Context 1 _
                   [Called [Fired 1] 1] _)).
  vm_compute. reflexivity.
Defined.

(** ** The return signal *)

Lemma run_body_continues (ev : Node -> M Z) n rest c v c' l :
  ev n c = Done (v, c', l) -> stopForReturn c' = false ->
  run_body ev (n :: rest) c = (ev n ;;; run_body ev rest) c.
Proof.
  intros H Hs. simpl. unfold bind. rewrite H.
  unfold get_stopForReturn. rewrite Hs.
  destruct (run_body ev rest c') as [[[x c2] l2]| |]; reflexivity.
Qed.

Lemma call_lowers_signal ord funs nodes fuel n c v c' l :
  is_call n -> eval ord funs nodes fuel n c = Done (v, c', l) ->
  stopForReturn c' = false.
Proof.
  intros Hn H. destruct n; try contradiction.
  - apply eval_CallNode_inv in H
      as (? & ? & ? & ? & ? & ? & ? & _ & _ & _ & _ & _ & -> & _).
    reflexivity.
  - apply eval_BF_CallNode_inv in H
      as (? & ? & ? & ? & ? & ? & ? & _ & _ & _ & _ & _ & -> & _).
    reflexivity.
  - apply eval_CallAnyNode_inv in H
      as (? & ? & ? & ? & ? & ? & ? & _ & _ & _ & _ & _ & -> & _).
    reflexivity.
Qed.

(** C7: the return signal is local to a frame.  After any evaluation the
    signal is decided by the last event of the current frame alone, the
    [Return]s that fired inside a completed call playing no part; every
    call protocol leaves the signal lowered, so the statements that follow
    a call statement in the caller are run. *)
Theorem return_signal_frame_local ord funs nodes fuel n c v c' l :
  eval ord funs nodes fuel n c = Done (v, c', l) ->
  stopForReturn c' = signal_after l (stopForReturn c) /\
  (is_call n ->
   stopForReturn c' = false /\
   forall rest,
     run_body (eval ord funs nodes fuel) (n :: rest) c
     = (eval ord funs nodes fuel n ;;;
        run_body (eval ord funs nodes fuel) rest) c).
Proof.
  intros H. split.
  - exact (eff_signal _ _ _ (effectful_eval _ _ _ _ _ _ _ _ _ H)).
  - intros Hn.
    pose proof (call_lowers_signal _ _ _ _ _ _ _ _ _ Hn H) as Hs.
    split; [exact Hs |]. intros rest.
    eapply run_body_continues; eassumption.
Qed.

Lemma return_signal_frame_local_witness :
  eval LeftFirst ReturnIsolation.funs [] 1 (CallNode 0%nat (ConstNode 0))
       new_Context
  = Done (5, {| stopForReturn := false; returnValue := 5;
                stack := <[0 := 0]> ∅; stackTop := 0 |},
          [Called [Fired 5] 5]) /\
  stopForReturn {| stopForReturn := false; returnValue := 5;
                   stack := <[0 := 0]> ∅; stackTop := 0 |}
  = signal_after [Called [Fired 5] 5] (stopForReturn new_Context).
Proof.
  split; [vm_compute; reflexivity |].
  refine (proj1 (return_signal_frame_local LeftFirst ReturnIsolation.funs []
                   1 (CallNode 0%nat (ConstNode 0)) new_Context 5 _
                   [Called [Fired 5] 5] _)).
  vm_compute. reflexivity.
Defined.

(** The [Return] that [early] fires inside its nested [If]s skips the rest
    of [early] only: [main] goes on to its second statement, and [late]
    runs both of its statements. *)
Example nested_return_stays_in_its_frame :
  result_of (eval LeftFirst ReturnIsolation.funs [] 2
               (CallNode 2%nat (ConstNode 0)) new_Context) = Done 14 /\
  result_of (eval RightFirst ReturnIsolation.funs [] 2
               (CallNode 2%nat (ConstNode 0)) new_Context) = Done 14.
Proof. split; vm_compute; reflexivity. Qed.

(** ** The result of a call *)

Lemma last_fired_nil lb d : fired lb = [] -> last_fired lb d = d.
Proof. unfold last_fired. intros ->. reflexivity. Qed.

Lemma last_fired_snoc lb d vs x : fired lb = vs ++ [x] -> last_fired lb d = x.
Proof. unfold last_fired. intros ->. rewrite last_snoc. reflexivity. Qed.

Lemma own_fired_app l1 l2 : own_fired (l1 ++ l2) = own_fired l1 ++ own_fired l2.
Proof. unfold own_fired. apply flat_map_app. Qed.

Lemma last_value_no_own_return lb d :
  own_fired lb = [] ->
  lb = [] \/ exists lb' inner, lb = lb' ++ [Called inner (last_value lb d)].
Proof.
  destruct lb as [| e lb'] using rev_ind; [auto |]. intros H. right.
  rewrite own_fired_app in H. apply app_eq_nil in H as [_ H].
  destruct e as [x | inner x]; [discriminate |].
  exists lb', inner. unfold last_value. rewrite last_snoc. reflexivity.
Qed.

(** C2, the claim as worded, fails: in [MissingReturn] the call of
    [silent] completes without any [Return] firing in its body, and its
    result is 7, the value the earlier call of [seven] left behind. *)
Lemma silent_call_yields_stale_value :
  eval LeftFirst MissingReturn.funs [] 1 (CallNode 1%nat (ConstNode 0))
       MissingReturn.before_silent
  = Done (7, MissingReturn.before_silent, [Called [] 7]) /\
  fired ([] : list event) = [] /\ 7 <> 0 /\
  run_body (eval LeftFirst MissingReturn.funs [] 1)
           [CallNode 0%nat (ConstNode 0)] (enter_frame 0 new_Context)
  = Done (tt, MissingReturn.before_silent, [Called [Fired 7] 7]) /\
  result_of (eval LeftFirst MissingReturn.funs [] 2
               (CallNode 2%nat (ConstNode 0)) new_Context) = Done 7 /\
  result_of (eval RightFirst MissingReturn.funs [] 2
               (CallNode 2%nat (ConstNode 0)) new_Context) = Done 7.
Proof. repeat split; try (vm_compute; reflexivity). discriminate. Qed.

(** C2 as amended: the result of a call is the [returnValue] at the end of
    the callee body, which is the value stored by the last [Return] that
    fired during the body; when none fired there, it is the [returnValue]
    the context held when the body was entered, which is that of the
    caller's context if the argument fired none either. *)
Theorem call_result_is_last_return ord funs nodes fuel f arg c v c' l :
  eval ord funs nodes fuel (CallNode f arg) c = Done (v, c', l) ->
  exists fuel' body a c1 la c2 lb,
    fuel = S fuel' /\ funs !! f = Some body /\
    eval ord funs nodes fuel arg c = Done (a, c1, la) /\
    run_body (eval ord funs nodes fuel') body (enter_frame a c1)
      = Done (tt, c2, lb) /\
    l = la ++ [Called lb v] /\
    v = returnValue c2 /\
    (forall vs x, fired lb = vs ++ [x] -> v = x) /\
    (fired lb = [] -> v = returnValue c1) /\
    (fired lb = [] -> fired la = [] -> v = returnValue c).
Proof.
  intros H. apply eval_CallNode_inv in H
    as (fuel' & body & a & c1 & la & c2 & lb & -> & Hf & Ha & Hb & Hs & -> & -> & ->).
  pose proof (eff_fired _ _ _ (effectful_eval _ _ _ _ _ _ _ _ _ Ha)) as R1.
  pose proof (eff_fired _ _ _ (effectful_statements _ _ _ _ _ _ _ _ _ Hs)) as R2.
  simpl in R2. exists fuel', body, a, c1, la, c2, lb.
  repeat split; try assumption.
  - intros vs x Hl. rewrite R2. eapply last_fired_snoc. exact Hl.
  - intros Hl. rewrite R2. apply last_fired_nil. exact Hl.
  - intros Hl Hla. rewrite R2, R1, !last_fired_nil by assumption. reflexivity.
Qed.

Lemma call_result_is_last_return_witness :
  eval LeftFirst MissingReturn.funs [] 1 (CallNode 0%nat (ConstNode 0))
       (enter_frame 0 new_Context)
  = Done (7, MissingReturn.before_silent, [Called [Fired 7] 7]) /\
  exists fuel' body a c1 la c2 lb,
    1%nat = S fuel' /\ MissingReturn.funs !! 0%nat = Some body /\
    eval LeftFirst MissingReturn.funs [] 1 (ConstNode 0)
         (enter_frame 0 new_Context) = Done (a, c1, la) /\
    run_body (eval LeftFirst MissingReturn.funs [] fuel') body
             (enter_frame a c1) = Done (tt, c2, lb) /\
    [Called [Fired 7] 7] = la ++ [Called lb 7] /\
    7 = returnValue c2 /\
    (forall vs x, fired lb = vs ++ [x] -> 7 = x) /\
    (fired lb = [] -> 7 = returnValue c1) /\
    (fired lb = [] -> fired la = [] ->
     7 = returnValue (enter_frame 0 new_Context)).
Proof.
  split; [vm_compute; reflexivity |].
  apply (call_result_is_last_return LeftFirst MissingReturn.funs [] 1 0%nat
           (ConstNode 0) (enter_frame 0 new_Context) 7
           MissingReturn.before_silent [Called [Fired 7] 7]).
  vm_compute. reflexivity.
Defined.

(** C10: the call protocol restores [stackTop] and lowers the signal, and
    leaves [returnValue] as the callee left it: on exit [returnValue] is
    the result of the call, and that result is what the last event of the
    callee's frame stored.  A body whose own frame fires no [Return]
    therefore yields what its last completed call left, or, if it made no
    call, the [returnValue] it was entered with; the result is the initial
    0 of a fresh context when no [Return] has fired at all, and the value
    of the last [Return] as soon as one has fired. *)
Theorem returnValue_not_saved ord funs nodes fuel f arg c v c' l :
  eval ord funs nodes fuel (CallNode f arg) c = Done (v, c', l) ->
  stackTop c' = stackTop c /\
  stopForReturn c' = false /\
  returnValue c' = v /\
  exists fuel' body a c1 la c2 lb,
    fuel = S fuel' /\ funs !! f = Some body /\
    eval ord funs nodes fuel arg c = Done (a, c1, la) /\
    run_body (eval ord funs nodes fuel') body (enter_frame a c1)
      = Done (tt, c2, lb) /\
    l = la ++ [Called lb v] /\
    v = last_value lb (returnValue c1) /\
    (own_fired lb = [] ->
     (lb = [] /\ v = returnValue c1) \/
     (exists lb' inner, lb = lb' ++ [Called inner v])) /\
    (fired l = [] -> v = returnValue c) /\
    (fired l = [] -> c = new_Context -> v = 0) /\
    (forall vs x, fired l = vs ++ [x] -> v = x).
Proof.
  intros H.
  pose proof (effectful_eval _ _ _ _ _ _ _ _ _ H) as [T _ _ R _].
  pose proof (call_lowers_signal _ _ _ _ (CallNode f arg) _ _ _ _ I H) as Hs.
  apply eval_CallNode_inv in H
    as (fuel' & body & a & c1 & la & c2 & lb & -> & Hf & Ha & Hb & Hr & -> & -> & ->).
  pose proof (eff_value _ _ _ (effectful_statements _ _ _ _ _ _ _ _ _ Hr)) as V2.
  simpl in V2. simpl in R.
  split; [exact T |]. split; [exact Hs |]. split; [reflexivity |].
  exists fuel', body, a, c1, la, c2, lb. repeat split; try assumption.
  - intros Hown. destruct (last_value_no_own_return lb (returnValue c1) Hown)
      as [-> | (lb' & inner & Hlb)].
    + left. split; [reflexivity | exact V2].
    + right. exists lb', inner. rewrite V2. exact Hlb.
  - intros Hl. rewrite R. apply last_fired_nil. exact Hl.
  - intros Hl ->. rewrite R. rewrite last_fired_nil by exact Hl. reflexivity.
  - intros vs x Hl. rewrite R. eapply last_fired_snoc. exact Hl.
Qed.

Lemma returnValue_not_saved_witness :
  eval LeftFirst MissingReturn.funs [] 1 (CallNode 1%nat (ConstNode 0))
       MissingReturn.before_silent
  = Done (7, MissingReturn.before_silent, [Called [] 7]) /\
  returnValue MissingReturn.before_silent = 7.
Proof.
  split; [vm_compute; reflexivity |].
  refine (proj1 (proj2 (proj2
    (returnValue_not_saved LeftFirst MissingReturn.funs [] 1 1%nat
       (ConstNode 0) MissingReturn.before_silent 7
       MissingReturn.before_silent [Called [] 7] _)))).
  vm_compute. reflexivity.
Defined.

(** ** Fusion is transparent *)

Lemma same_refl {A} (m : M A) : same m m.
Proof. intros c. reflexivity. Qed.

Lemma same_trans {A} (m1 m2 m3 : M A) : same m1 m2 -> same m2 m3 -> same m1 m3.
Proof. intros H1 H2 c. rewrite H1. apply H2. Qed.

Lemma same_bind {A B} (m m' : M A) (k k' : A -> M B) :
  same m m' -> (forall a, same (k a) (k' a)) -> same (bind m k) (bind m' k').
Proof. intros Hm Hk c. apply bind_ext; [apply Hm | intros a c1; apply Hk]. Qed.

Lemma same_in_call (m m' : M Z) : same m m' -> same (in_call m) (in_call m').
Proof. intros H c. unfold in_call. rewrite H. reflexivity. Qed.

Lemma same_binop ord op (l l' r r' : M Z) :
  same l l' -> same r r' -> same (binop ord op l r) (binop ord op l' r').
Proof.
  intros Hl Hr. unfold binop. destruct ord;
    repeat (apply same_bind; [assumption | intros ?]); apply same_refl.
Qed.

Lemma same_CallNode_eval (s s' : M unit) (arg arg' : M Z) :
  same s s' -> same arg arg' ->
  same (CallNode_eval s arg) (CallNode_eval s' arg').
Proof.
  intros Hs Ha. unfold CallNode_eval.
  apply same_bind; [assumption | intros a]. apply same_in_call.
  do 2 (apply same_bind; [apply same_refl | intros _]).
  apply same_bind; [assumption | intros _]. apply same_refl.
Qed.

Lemma same_CallAnyNode_eval (f f' arg arg' : M Z) :
  same f f' -> same arg arg' ->
  same (CallAnyNode_eval f arg) (CallAnyNode_eval f' arg').
Proof.
  intros Hs Ha. unfold CallAnyNode_eval.
  apply same_bind; [assumption | intros a]. apply same_in_call.
  do 2 (apply same_bind; [apply same_refl | intros _]).
  apply same_bind; [assumption | intros x]. apply same_refl.
Qed.

Lemma same_IfNode_eval (cnd cnd' body body' : M Z) :
  same cnd cnd' -> same body body' ->
  same (IfNode_eval cnd body) (IfNode_eval cnd' body').
Proof.
  intros Hc Hb. unfold IfNode_eval. apply same_bind; [assumption | intros c].
  destruct (truthy c); [| apply same_refl].
  apply same_bind; [assumption | intros _; apply same_refl].
Qed.

Lemma same_IfElseNode_eval (cnd cnd' i i' e e' : M Z) :
  same cnd cnd' -> same i i' -> same e e' ->
  same (IfElseNode_eval cnd i e) (IfElseNode_eval cnd' i' e').
Proof.
  intros Hc Hi He. unfold IfElseNode_eval.
  apply same_bind; [assumption | intros c]. destruct (truthy c); assumption.
Qed.

Lemma same_ReturnNode_eval (rhs rhs' : M Z) :
  same rhs rhs' -> same (ReturnNode_eval rhs) (ReturnNode_eval rhs').
Proof.
  intros H. unfold ReturnNode_eval.
  apply same_bind; [assumption | intros v; apply same_refl].
Qed.

(** An operator over a constant right operand does what the fused node
    does, whichever operand is evaluated first. *)
Lemma binop_const ord op (lhs : M Z) constant :
  same (binop ord op lhs (ConstNode_eval constant))
       (a <- lhs ;; ret (op a constant)).
Proof.
  intros c. unfold binop, ConstNode_eval. destruct ord.
  - apply bind_ext; [reflexivity | intros a c1].
    exact (bind_ret_l constant (fun b => ret (op a b)) c1).
  - exact (bind_ret_l constant (fun b => a <- lhs ;; ret (op a b)) c).
Qed.

Lemma same_run_body (ev ev' : Node -> M Z) (t : Node -> Node) body :
  (forall n, same (ev' (t n)) (ev n)) ->
  same (run_body ev' (fmap (M := list) t body)) (run_body ev body).
Proof.
  intros H. induction body as [| statement rest IH]; simpl.
  - apply same_refl.
  - apply same_bind; [apply H | intros _].
    apply same_bind; [apply same_refl | intros stop].
    destruct stop; [apply same_refl | exact IH].
Qed.

Lemma unfuse_eval_with ord (ef ef' : fn_ref -> M unit) (en en' : node_ref -> M Z) :
  (forall f, same (ef' f) (ef f)) -> (forall r, same (en' r) (en r)) ->
  forall n, same (eval_with ord ef' en' (unfuse n)) (eval_with ord ef en n).
Proof.
  intros Hf Hn. induction n; simpl.
  - apply same_refl.
  - apply same_refl.
  - apply same_binop; assumption.
  - apply same_binop; assumption.
  - apply same_binop; assumption.
  - apply same_IfNode_eval; assumption.
  - apply same_CallNode_eval; auto.
  - apply same_ReturnNode_eval; assumption.
  - apply same_refl.
  - eapply same_trans; [apply binop_const |].
    apply same_bind; [assumption | intros ?; apply same_refl].
  - eapply same_trans; [apply binop_const |].
    apply same_bind; [assumption | intros ?; apply same_refl].
  - destruct n. apply same_refl.
  - destruct n. apply same_refl.
  - destruct lhs, rhs. apply same_refl.
  - destruct lhs, rhs. apply same_refl.
  - apply same_CallNode_eval; auto.
  - apply same_CallAnyNode_eval; auto.
  - apply same_IfElseNode_eval; assumption.
Qed.

(** A program and its unfused form do the same at every node, in every
    context and with every amount of fuel: same value, same context, same
    log, and the same failure when there is one. *)
Lemma unfuse_eval ord (funs : list (list Node)) (nodes : list Node) fuel n :
  same (eval ord (unfuse_functions funs) (unfuse_body nodes) fuel (unfuse n))
       (eval ord funs nodes fuel n).
Proof.
  revert n. induction fuel as [| fuel IH]; intros n; simpl.
  - apply unfuse_eval_with; intros; apply same_refl.
  - apply unfuse_eval_with.
    + intros f. unfold run_function, unfuse_functions. rewrite list_lookup_fmap.
      destruct (funs !! f) as [body |]; simpl; [| apply same_refl].
      apply same_run_body. exact IH.
    + intros r. unfold run_node, unfuse_body. rewrite list_lookup_fmap.
      destruct (nodes !! r) as [callee |]; simpl; [apply IH | apply same_refl].
Qed.

(** C3: each fused node evaluates, in every context and with every child
    and constant, to what the [Less] or [Sub] over a [Const] (and [Arg])
    child evaluates to: same value, same context, same failure. *)
Theorem fused_node_is_unfused_composition ord funs nodes fuel c lhs constant :
  eval ord funs nodes fuel (LessConstNode lhs constant) c
  = eval ord funs nodes fuel (LessNode lhs (ConstNode constant)) c /\
  eval ord funs nodes fuel (SubConstNode lhs constant) c
  = eval ord funs nodes fuel (SubNode lhs (ConstNode constant)) c /\
  eval ord funs nodes fuel (LessArgConstNode BF_ArgNode (BF_ConstNode constant)) c
  = eval ord funs nodes fuel (LessNode ArgNode (ConstNode constant)) c /\
  eval ord funs nodes fuel (SubArgConstNode BF_ArgNode (BF_ConstNode constant)) c
  = eval ord funs nodes fuel (SubNode ArgNode (ConstNode constant)) c /\
  eval ord funs nodes fuel (LessArgConstNode BF_ArgNode (BF_ConstNode constant)) c
  = eval ord funs nodes fuel
      (LessNode (OfArg BF_ArgNode) (OfConst (BF_ConstNode constant))) c /\
  eval ord funs nodes fuel (SubArgConstNode BF_ArgNode (BF_ConstNode constant)) c
  = eval ord funs nodes fuel
      (SubNode (OfArg BF_ArgNode) (OfConst (BF_ConstNode constant))) c.
Proof.
  repeat split; destruct fuel; simpl; try reflexivity;
    symmetry; apply binop_const.
Qed.

(** ** Running the methods forwards *)

Lemma eval_IfNode ord funs nodes fuel condition body :
  eval ord funs nodes fuel (IfNode condition body)
  = IfNode_eval (eval ord funs nodes fuel condition) (eval ord funs nodes fuel body).
Proof. destruct fuel; reflexivity. Qed.

Lemma eval_IfElseNode ord funs nodes fuel condition ifBody elseBody :
  eval ord funs nodes fuel (IfElseNode condition ifBody elseBody)
  = IfElseNode_eval (eval ord funs nodes fuel condition)
      (eval ord funs nodes fuel ifBody) (eval ord funs nodes fuel elseBody).
Proof. destruct fuel; reflexivity. Qed.

Lemma eval_ReturnNode ord funs nodes fuel rhs :
  eval ord funs nodes fuel (ReturnNode rhs)
  = ReturnNode_eval (eval ord funs nodes fuel rhs).
Proof. destruct fuel; reflexivity. Qed.

Lemma eval_AddNode ord funs nodes fuel lhs rhs :
  eval ord funs nodes fuel (AddNode lhs rhs)
  = AddNode_eval ord (eval ord funs nodes fuel lhs) (eval ord funs nodes fuel rhs).
Proof. destruct fuel; reflexivity. Qed.

Lemma eval_SubNode ord funs nodes fuel lhs rhs :
  eval ord funs nodes fuel (SubNode lhs rhs)
  = SubNode_eval ord (eval ord funs nodes fuel lhs) (eval ord funs nodes fuel rhs).
Proof. destruct fuel; reflexivity. Qed.

Lemma eval_LessNode ord funs nodes fuel lhs rhs :
  eval ord funs nodes fuel (LessNode lhs rhs)
  = LessNode_eval ord (eval ord funs nodes fuel lhs) (eval ord funs nodes fuel rhs).
Proof. destruct fuel; reflexivity. Qed.

Lemma eval_ConstNode ord funs nodes fuel value :
  eval ord funs nodes fuel (ConstNode value) = ConstNode_eval value.
Proof. destruct fuel; reflexivity. Qed.

Lemma eval_ArgNode ord funs nodes fuel :
  eval ord funs nodes fuel ArgNode = ArgNode_eval.
Proof. destruct fuel; reflexivity. Qed.

Lemma eval_OfConst ord funs nodes fuel n :
  eval ord funs nodes fuel (OfConst n) = BF_ConstNode_eval n.
Proof. destruct fuel; reflexivity. Qed.

Lemma eval_OfArg ord funs nodes fuel n :
  eval ord funs nodes fuel (OfArg n) = BF_ArgNode_eval n.
Proof. destruct fuel; reflexivity. Qed.

Lemma eval_LessArgConstNode ord funs nodes fuel lhs rhs :
  eval ord funs nodes fuel (LessArgConstNode lhs rhs)
  = LessArgConstNode_eval ord lhs rhs.
Proof. destruct fuel; reflexivity. Qed.

Lemma eval_SubArgConstNode ord funs nodes fuel lhs rhs :
  eval ord funs nodes fuel (SubArgConstNode lhs rhs)
  = SubArgConstNode_eval ord lhs rhs.
Proof. destruct fuel; reflexivity. Qed.

Lemma eval_CallNode_S ord funs nodes fuel f arg body :
  funs !! f = Some body ->
  eval ord funs nodes (S fuel) (CallNode f arg)
  = CallNode_eval (run_body (eval ord funs nodes fuel) body)
                  (eval ord funs nodes (S fuel) arg).
Proof. intros H. simpl. unfold run_function. rewrite H. reflexivity. Qed.

Lemma eval_CallAnyNode_S ord funs nodes fuel r arg callee :
  nodes !! r = Some callee ->
  eval ord funs nodes (S fuel) (CallAnyNode r arg)
  = CallAnyNode_eval (eval ord funs nodes fuel callee)
                     (eval ord funs nodes (S fuel) arg).
Proof. intros H. simpl. unfold run_node. rewrite H. reflexivity. Qed.

Create Rewrite HintDb eval_unfold.
#[local] Hint Rewrite eval_IfNode eval_IfElseNode eval_ReturnNode eval_AddNode
  eval_SubNode eval_LessNode eval_ConstNode eval_ArgNode eval_OfConst
  eval_OfArg eval_LessArgConstNode eval_SubArgConstNode : eval_unfold.

Lemma binop_pure ord op (lhs rhs : M Z) c a b :
  lhs c = Done (a, c, []) -> rhs c = Done (b, c, []) ->
  binop ord op lhs rhs c = Done (op a b, c, []).
Proof.
  intros Hl Hr. unfold binop. destruct ord.
  - eapply bind_Done; [exact Hl | | reflexivity].
    eapply bind_Done; [exact Hr | reflexivity | reflexivity].
  - eapply bind_Done; [exact Hr | | reflexivity].
    eapply bind_Done; [exact Hl | reflexivity | reflexivity].
Qed.

Lemma binop_LeftFirst op (lhs rhs : M Z) c a c1 l1 b c2 l2 :
  lhs c = Done (a, c1, l1) -> rhs c1 = Done (b, c2, l2) ->
  binop LeftFirst op lhs rhs c = Done (op a b, c2, l1 ++ l2).
Proof.
  intros Hl Hr. unfold binop.
  eapply bind_Done; [exact Hl | | reflexivity].
  eapply bind_Done; [exact Hr | reflexivity | symmetry; apply app_nil_r].
Qed.

Lemma binop_RightFirst op (lhs rhs : M Z) c a c1 l1 b c2 l2 :
  rhs c = Done (b, c1, l1) -> lhs c1 = Done (a, c2, l2) ->
  binop RightFirst op lhs rhs c = Done (op a b, c2, l1 ++ l2).
Proof.
  intros Hr Hl. unfold binop.
  eapply bind_Done; [exact Hr | | reflexivity].
  eapply bind_Done; [exact Hl | reflexivity | symmetry; apply app_nil_r].
Qed.

Lemma IfNode_eval_skip (condition body : M Z) c x c1 l1 :
  condition c = Done (x, c1, l1) -> truthy x = false ->
  IfNode_eval condition body c = Done (0, c1, l1).
Proof.
  intros Hc Hx. unfold IfNode_eval.
  eapply bind_Done; [exact Hc | rewrite Hx; reflexivity |].
  symmetry; apply app_nil_r.
Qed.

Lemma IfNode_eval_enter (condition body : M Z) c x c1 l1 y c2 l2 :
  condition c = Done (x, c1, l1) -> truthy x = true ->
  body c1 = Done (y, c2, l2) ->
  IfNode_eval condition body c = Done (0, c2, l1 ++ l2).
Proof.
  intros Hc Hx Hb. unfold IfNode_eval.
  eapply bind_Done; [exact Hc | rewrite Hx | reflexivity].
  eapply bind_Done; [exact Hb | reflexivity | symmetry; apply app_nil_r].
Qed.

Lemma ReturnNode_eval_Done (rhs : M Z) c v c1 l1 :
  rhs c = Done (v, c1, l1) ->
  ReturnNode_eval rhs c
  = Done (0, {| stopForReturn := true; returnValue := v;
                stack := stack c1; stackTop := stackTop c1 |},
          l1 ++ [Fired v]).
Proof.
  intros H. unfold ReturnNode_eval.
  eapply bind_Done; [exact H | reflexivity | reflexivity].
Qed.

Lemma CallNode_eval_Done (statements : M unit) (arg : M Z) c a c1 la c2 lb :
  arg c = Done (a, c1, la) -> 0 <= stackTop c1 < STACK_SIZE ->
  statements (enter_frame a c1) = Done (tt, c2, lb) ->
  CallNode_eval statements arg c
  = Done (returnValue c2, leave_frame c2, la ++ [Called lb (returnValue c2)]).
Proof.
  intros Ha Hb Hs. unfold CallNode_eval.
  eapply bind_Done; [exact Ha | | reflexivity].
  unfold in_call, bind, store_top. apply in_bounds_spec in Hb as Hb'.
  rewrite Hb'. unfold incr_top. simpl.
  rewrite wrap32_small by (unfold STACK_SIZE in Hb; lia).
  unfold enter_frame in Hs. rewrite Hs. simpl. rewrite app_nil_r. reflexivity.
Qed.

Lemma CallAnyNode_eval_Done (function arg : M Z) c a c1 la v c2 lb :
  arg c = Done (a, c1, la) -> 0 <= stackTop c1 < STACK_SIZE ->
  function (enter_frame a c1) = Done (v, c2, lb) ->
  CallAnyNode_eval function arg c
  = Done (v, leave_frame c2, la ++ [Called lb (returnValue c2)]).
Proof.
  intros Ha Hb Hs. unfold CallAnyNode_eval.
  eapply bind_Done; [exact Ha | | reflexivity].
  unfold in_call, bind, store_top. apply in_bounds_spec in Hb as Hb'.
  rewrite Hb'. unfold incr_top. simpl.
  rewrite wrap32_small by (unfold STACK_SIZE in Hb; lia).
  unfold enter_frame in Hs. rewrite Hs. simpl. rewrite app_nil_r. reflexivity.
Qed.

Lemma run_body_stops (ev : Node -> M Z) n rest c v c' l :
  ev n c = Done (v, c', l) -> stopForReturn c' = true ->
  run_body ev (n :: rest) c = Done (tt, c', l).
Proof.
  intros H Hs. simpl. unfold bind. rewrite H. unfold get_stopForReturn.
  rewrite Hs. simpl. rewrite app_nil_r. reflexivity.
Qed.

(** ** The argument of the current frame *)

Lemma top_is_enter_frame a c :
  0 <= stackTop c < STACK_SIZE -> top_is a (enter_frame a c).
Proof.
  intros Hb. unfold top_is, enter_frame; simpl. split; [lia |].
  replace (stackTop c + 1 - 1) with (stackTop c) by lia.
  apply lookup_insert_eq.
Qed.

Lemma top_is_effect k c c' l : top_is k c -> effect c c' l -> top_is k c'.
Proof.
  intros [Hb Hk] [T F _ _ _]. unfold top_is. rewrite T. split; [exact Hb |].
  rewrite F by lia. exact Hk.
Qed.

Lemma read_top_top_is k c : top_is k c -> read_top c = Done (k, c, []).
Proof.
  intros [Hb Hk]. unfold read_top.
  rewrite wrap32_small by (unfold STACK_SIZE in Hb; lia).
  replace (in_bounds (stackTop c - 1)) with true
    by (symmetry; apply in_bounds_spec; lia).
  rewrite Hk. reflexivity.
Qed.

(** ** The reference definition *)

Lemma sub32_small n j : 0 <= j <= n -> n < 2 ^ 32 -> sub32 n j = n - j.
Proof. intros H1 H2. unfold sub32. apply wrap32_small. lia. Qed.

Lemma fib_step fuel n v :
  fib (S fuel) n = Done v -> 2 <= n ->
  exists a b, fib fuel (sub32 n 1) = Done a /\ fib fuel (sub32 n 2) = Done b /\
              v = add32 a b.
Proof.
  simpl. intros H Hn. destruct (Z.ltb_spec n 2) as [? | _]; [lia |].
  destruct (fib fuel (sub32 n 1)) as [a | |],
           (fib fuel (sub32 n 2)) as [b | |]; try discriminate.
  injection H as <-. eauto.
Qed.

Lemma fib_base fuel n v : fib (S fuel) n = Done v -> n < 2 -> v = n.
Proof.
  simpl. intros H Hn. destruct (Z.ltb_spec n 2) as [_ | ?]; [| lia].
  congruence.
Qed.

(** With fuel for the depth of the recursion, [fib] returns. *)
Lemma fib_returns fuel : forall n,
  0 <= n < 2 ^ 32 -> (Z.to_nat n <= fuel)%nat -> (1 <= fuel)%nat ->
  exists v, fib fuel n = Done v.
Proof.
  induction fuel as [| fuel IH]; intros n Hn Hf H1; [lia |].
  simpl. destruct (Z.ltb_spec n 2) as [Hlt | Hge]; [eauto |].
  destruct (IH (sub32 n 1)) as [a Ha];
    [rewrite ?sub32_small by lia; lia .. |].
  destruct (IH (sub32 n 2)) as [b Hb];
    [rewrite ?sub32_small by lia; lia .. |].
  rewrite Ha, Hb. eauto.
Qed.

Lemma run_body_goes_on (ev : Node -> M Z) n rest c v c1 l1 c2 l2 :
  ev n c = Done (v, c1, l1) -> stopForReturn c1 = false ->
  run_body ev rest c1 = Done (tt, c2, l2) ->
  run_body ev (n :: rest) c = Done (tt, c2, l1 ++ l2).
Proof.
  intros H Hs Hr. simpl. unfold bind. rewrite H. unfold get_stopForReturn.
  rewrite Hs, Hr. reflexivity.
Qed.

Lemma less32_truthy k j : truthy (less32 k j) = (k <? j).
Proof. unfold less32. destruct (k <? j); reflexivity. Qed.

(** ** Stage 1 computes the reference function *)

(** A call of the body of [Simplest::fib] with argument [k] returns what
    [fib k] returns, provided the stack has room for the [k] frames the
    recursion stacks up. *)
Lemma Simplest_call ord fuel : forall k v c arg la,
  fib fuel k = Done v -> 0 <= k < 2 ^ 32 ->
  eval ord [Simplest.function] [] fuel arg c = Done (k, c, la) ->
  stopForReturn c = false -> 0 <= stackTop c ->
  stackTop c + Z.max k 1 <= STACK_SIZE ->
  exists c' l,
    eval ord [Simplest.function] [] fuel (CallNode 0%nat arg) c = Done (v, c', l).
Proof.
  induction fuel as [| fuel IH]; intros k v c arg la Hfib Hk Harg Hstop Htop Hroom;
    [discriminate |].
  rewrite (eval_CallNode_S _ _ _ _ _ _ Simplest.function) by reflexivity.
  set (c0 := enter_frame k c).
  assert (Hc0 : top_is k c0) by (apply top_is_enter_frame; lia).
  cut (exists c2 lb,
          run_body (eval ord [Simplest.function] [] fuel) Simplest.function c0
          = Done (tt, c2, lb) /\ returnValue c2 = v).
  { intros (c2 & lb & Hb & <-). eexists _, _.
    eapply CallNode_eval_Done; [exact Harg | lia | exact Hb]. }
  pose proof (read_top_top_is _ _ Hc0) as Hread.
  assert (Hcond : eval ord [Simplest.function] [] fuel
                    (LessNode ArgNode (ConstNode 2)) c0
                  = Done (less32 k 2, c0, [])).
  { autorewrite with eval_unfold. apply binop_pure; [exact Hread | reflexivity]. }
  unfold Simplest.function.
  destruct (Z.ltb_spec k 2) as [Hlt | Hge].
  - apply fib_base in Hfib; [subst v | assumption].
    eexists _, _. split.
    + eapply run_body_stops.
      * rewrite eval_IfNode. eapply IfNode_eval_enter; [exact Hcond | |].
        -- rewrite less32_truthy. apply Z.ltb_lt. exact Hlt.
        -- rewrite eval_ReturnNode, eval_ArgNode.
           apply ReturnNode_eval_Done. exact Hread.
      * reflexivity.
    + reflexivity.
  - apply fib_step in Hfib as (a & b & Ha & Hb & ->); [| assumption].
    assert (Hcall : forall j r cx,
      j = 1 \/ j = 2 -> fib fuel (sub32 k j) = Done r ->
      top_is k cx -> stopForReturn cx = false -> stackTop cx = stackTop c + 1 ->
      exists c' l,
        eval ord [Simplest.function] [] fuel
          (CallNode 0%nat (SubNode ArgNode (ConstNode j))) cx = Done (r, c', l) /\
        top_is k c' /\ stopForReturn c' = false /\
        stackTop c' = stackTop c + 1).
    { intros j r cx Hj Hr Hcx Hsx Htx.
      destruct (IH (sub32 k j) r cx (SubNode ArgNode (ConstNode j)) [])
        as (c' & l & Hc'); try assumption.
      - unfold sub32, wrap32. apply Z.mod_pos_bound. lia.
      - autorewrite with eval_unfold.
        apply binop_pure; [apply read_top_top_is; exact Hcx | reflexivity].
      - lia.
      - rewrite sub32_small by lia. lia.
      - pose proof (effectful_eval _ _ _ _ _ _ _ _ _ Hc') as He.
        exists c', l. split; [exact Hc' |]. split; [| split].
        + eapply top_is_effect; eassumption.
        + eapply call_lowers_signal; [| exact Hc']. exact I.
        + rewrite (eff_top _ _ _ He). exact Htx. }
    assert (Hsum : exists c3 l3,
      eval ord [Simplest.function] [] fuel
        (AddNode (CallNode 0%nat (SubNode ArgNode (ConstNode 1)))
                 (CallNode 0%nat (SubNode ArgNode (ConstNode 2)))) c0
      = Done (add32 a b, c3, l3)).
    { rewrite eval_AddNode. unfold AddNode_eval. destruct ord.
      - destruct (Hcall 1 a c0) as (c2 & l2 & H2 & Hk2 & Hs2 & Ht2); auto.
        destruct (Hcall 2 b c2) as (c3 & l3 & H3 & _); auto.
        eexists _, _. eapply binop_LeftFirst; eassumption.
      - destruct (Hcall 2 b c0) as (c2 & l2 & H2 & Hk2 & Hs2 & Ht2); auto.
        destruct (Hcall 1 a c2) as (c3 & l3 & H3 & _); auto.
        eexists _, _. eapply binop_RightFirst; eassumption. }
    destruct Hsum as (c3 & l3 & Hsum).
    eexists _, _. split.
    + eapply run_body_goes_on.
      * rewrite eval_IfNode. eapply IfNode_eval_skip; [exact Hcond |].
        rewrite less32_truthy. apply Z.ltb_ge. exact Hge.
      * exact Hstop.
      * eapply run_body_stops.
        -- rewrite eval_ReturnNode. apply ReturnNode_eval_Done. exact Hsum.
        -- reflexivity.
    + reflexivity.
Qed.

(** ** Stage 4 computes the reference function *)

Lemma IfElseNode_eval_then (condition ifBody elseBody : M Z) c x c1 l1 y c2 l2 :
  condition c = Done (x, c1, l1) -> truthy x = true ->
  ifBody c1 = Done (y, c2, l2) ->
  IfElseNode_eval condition ifBody elseBody c = Done (y, c2, l1 ++ l2).
Proof.
  intros Hc Hx Hb. unfold IfElseNode_eval.
  eapply bind_Done; [exact Hc | rewrite Hx; exact Hb | reflexivity].
Qed.

Lemma IfElseNode_eval_else (condition ifBody elseBody : M Z) c x c1 l1 y c2 l2 :
  condition c = Done (x, c1, l1) -> truthy x = false ->
  elseBody c1 = Done (y, c2, l2) ->
  IfElseNode_eval condition ifBody elseBody c = Done (y, c2, l1 ++ l2).
Proof.
  intros Hc Hx Hb. unfold IfElseNode_eval.
  eapply bind_Done; [exact Hc | rewrite Hx; exact Hb | reflexivity].
Qed.

Lemma SimplifyCalls_call ord fuel : forall k v c arg la,
  fib fuel k = Done v -> 0 <= k < 2 ^ 32 ->
  eval ord [] [SimplifyCalls.function] fuel arg c = Done (k, c, la) ->
  0 <= stackTop c -> stackTop c + Z.max k 1 <= STACK_SIZE ->
  exists c' l,
    eval ord [] [SimplifyCalls.function] fuel (CallAnyNode 0%nat arg) c
    = Done (v, c', l).
Proof.
  induction fuel as [| fuel IH]; intros k v c arg la Hfib Hk Harg Htop Hroom;
    [discriminate |].
  rewrite (eval_CallAnyNode_S _ _ _ _ _ _ SimplifyCalls.function) by reflexivity.
  set (c0 := enter_frame k c).
  assert (Hc0 : top_is k c0) by (apply top_is_enter_frame; lia).
  cut (exists c2 lb,
          eval ord [] [SimplifyCalls.function] fuel SimplifyCalls.function c0
          = Done (v, c2, lb)).
  { intros (c2 & lb & Hb). eexists _, _.
    eapply CallAnyNode_eval_Done; [exact Harg | lia | exact Hb]. }
  pose proof (read_top_top_is _ _ Hc0) as Hread.
  assert (Hcond : eval ord [] [SimplifyCalls.function] fuel
                    (LessArgConstNode BF_ArgNode (BF_ConstNode 2)) c0
                  = Done (less32 k 2, c0, [])).
  { rewrite eval_LessArgConstNode. apply binop_pure; [exact Hread | reflexivity]. }
  unfold SimplifyCalls.function at 2. rewrite eval_IfElseNode.
  destruct (Z.ltb_spec k 2) as [Hlt | Hge].
  - apply fib_base in Hfib; [subst v | assumption].
    eexists _, _. eapply IfElseNode_eval_then; [exact Hcond | |].
    + rewrite less32_truthy. apply Z.ltb_lt. exact Hlt.
    + rewrite eval_OfArg. exact Hread.
  - apply fib_step in Hfib as (a & b & Ha & Hb & ->); [| assumption].
    assert (Hcall : forall j r cx,
      j = 1 \/ j = 2 -> fib fuel (sub32 k j) = Done r ->
      top_is k cx -> stackTop cx = stackTop c + 1 ->
      exists c' l,
        eval ord [] [SimplifyCalls.function] fuel
          (CallAnyNode 0%nat (SubArgConstNode BF_ArgNode (BF_ConstNode j))) cx
        = Done (r, c', l) /\
        top_is k c' /\ stackTop c' = stackTop c + 1).
    { intros j r cx Hj Hr Hcx Htx.
      destruct (IH (sub32 k j) r cx
                  (SubArgConstNode BF_ArgNode (BF_ConstNode j)) [])
        as (c' & l & Hc'); try assumption.
      - unfold sub32, wrap32. apply Z.mod_pos_bound. lia.
      - rewrite eval_SubArgConstNode.
        apply binop_pure; [apply read_top_top_is; exact Hcx | reflexivity].
      - lia.
      - rewrite sub32_small by lia. lia.
      - pose proof (effectful_eval _ _ _ _ _ _ _ _ _ Hc') as He.
        exists c', l. split; [exact Hc' |]. split.
        + eapply top_is_effect; eassumption.
        + rewrite (eff_top _ _ _ He). exact Htx. }
    assert (Hsum : exists c3 l3,
      eval ord [] [SimplifyCalls.function] fuel
        (AddNode
           (CallAnyNode 0%nat (SubArgConstNode BF_ArgNode (BF_ConstNode 1)))
           (CallAnyNode 0%nat (SubArgConstNode BF_ArgNode (BF_ConstNode 2)))) c0
      = Done (add32 a b, c3, l3)).
    { rewrite eval_AddNode. unfold AddNode_eval. destruct ord.
      - destruct (Hcall 1 a c0) as (c2 & l2 & H2 & Hk2 & Ht2); auto.
        destruct (Hcall 2 b c2) as (c3 & l3 & H3 & _); auto.
        eexists _, _. eapply binop_LeftFirst; eassumption.
      - destruct (Hcall 2 b c0) as (c2 & l2 & H2 & Hk2 & Ht2); auto.
        destruct (Hcall 1 a c2) as (c3 & l3 & H3 & _); auto.
        eexists _, _. eapply binop_RightFirst; eassumption. }
    destruct Hsum as (c3 & l3 & Hsum).
    eexists _, _. eapply IfElseNode_eval_else; [exact Hcond | | exact Hsum].
    rewrite less32_truthy. apply Z.ltb_ge. exact Hge.
Qed.

(** ** The four drivers *)

Lemma Simplest_fib_correct ord fuel n v :
  fib fuel n = Done v -> 0 <= n <= STACK_SIZE -> Simplest.fib ord fuel n = Done v.
Proof.
  intros Hfib Hn. unfold Simplest.fib. unfold STACK_SIZE in Hn.
  destruct (Simplest_call ord fuel n v new_Context (ConstNode n) [])
    as (c' & l & ->); try assumption; try reflexivity.
  - lia.
  - rewrite eval_ConstNode. reflexivity.
  - unfold STACK_SIZE. simpl. lia.
Qed.

Lemma SimplifyCalls_fib_correct ord fuel n v :
  fib fuel n = Done v -> 0 <= n <= STACK_SIZE ->
  SimplifyCalls.fib ord fuel n = Done v.
Proof.
  intros Hfib Hn. unfold SimplifyCalls.fib. unfold STACK_SIZE in Hn.
  destruct (SimplifyCalls_call ord fuel n v new_Context (BF_ConstNode n) [])
    as (c' & l & ->); try assumption; try reflexivity.
  - lia.
  - rewrite eval_OfConst. reflexivity.
  - unfold STACK_SIZE. simpl. lia.
Qed.

(** Stages 2 and 3 run the unfused program of stage 1 step for step, for
    every argument and every amount of fuel. *)
Lemma SimpleFusion_fib_is_Simplest ord fuel n :
  SimpleFusion.fib ord fuel n = Simplest.fib ord fuel n.
Proof.
  unfold SimpleFusion.fib, Simplest.fib.
  rewrite <- (unfuse_eval ord [SimpleFusion.function] []). reflexivity.
Qed.

Lemma BetterFusion_fib_is_Simplest ord fuel n :
  BetterFusion.fib ord fuel n = Simplest.fib ord fuel n.
Proof.
  unfold BetterFusion.fib, Simplest.fib.
  rewrite <- (unfuse_eval ord [BetterFusion.function] []). reflexivity.
Qed.

(** ** Wrap-around arithmetic *)

Lemma binop_operands_yield ord op (lhs rhs : M Z) c a b c' l :
  operands_yield ord lhs rhs c a b c' l ->
  binop ord op lhs rhs c = Done (op a b, c', l).
Proof.
  destruct ord; intros (c1 & l1 & l2 & H1 & H2 & ->).
  - eapply binop_LeftFirst; eassumption.
  - eapply binop_RightFirst; eassumption.
Qed.

Lemma wrap32_u32 z : is_u32 (wrap32 z).
Proof. unfold is_u32, wrap32. apply Z.mod_pos_bound. lia. Qed.

(** C9: [Add] and [Sub] and the fused [Sub]s combine the values of their
    operands modulo [2 ^ 32] and evaluate whenever their operands do; the
    result is again a [uint32_t], and a [Sub] whose left operand is the
    smaller one wraps around to [a - b + 2 ^ 32]. *)
Theorem add_sub_wrap_around ord funs nodes fuel lhs rhs c a b c' l :
  operands_yield ord (eval ord funs nodes fuel lhs) (eval ord funs nodes fuel rhs)
                 c a b c' l ->
  eval ord funs nodes fuel (AddNode lhs rhs) c = Done ((a + b) mod 2 ^ 32, c', l) /\
  eval ord funs nodes fuel (SubNode lhs rhs) c = Done ((a - b) mod 2 ^ 32, c', l) /\
  is_u32 ((a + b) mod 2 ^ 32) /\ is_u32 ((a - b) mod 2 ^ 32) /\
  (is_u32 a -> is_u32 b -> a < b -> (a - b) mod 2 ^ 32 = a - b + 2 ^ 32) /\
  (is_u32 a -> is_u32 b -> b <= a -> (a - b) mod 2 ^ 32 = a - b) /\
  (is_u32 a -> is_u32 b -> 2 ^ 32 <= a + b ->
   (a + b) mod 2 ^ 32 = a + b - 2 ^ 32) /\
  (forall constant a1 c1 l1,
     eval ord funs nodes fuel lhs c = Done (a1, c1, l1) ->
     eval ord funs nodes fuel (SubConstNode lhs constant) c
     = Done ((a1 - constant) mod 2 ^ 32, c1, l1)) /\
  (forall constant a1,
     read_top c = Done (a1, c, []) ->
     eval ord funs nodes fuel
       (SubArgConstNode BF_ArgNode (BF_ConstNode constant)) c
     = Done ((a1 - constant) mod 2 ^ 32, c, [])).
Proof.
  intros H. repeat split.
  - rewrite eval_AddNode. exact (binop_operands_yield _ add32 _ _ _ _ _ _ _ H).
  - rewrite eval_SubNode. exact (binop_operands_yield _ sub32 _ _ _ _ _ _ _ H).
  - apply (wrap32_u32 (a + b)).
  - apply (wrap32_u32 (a + b)).
  - apply (wrap32_u32 (a - b)).
  - apply (wrap32_u32 (a - b)).
  - unfold is_u32. intros Ha Hb Hlt.
    rewrite <- (Z.mod_add (a - b) 1 (2 ^ 32)) by lia.
    apply Z.mod_small. lia.
  - unfold is_u32. intros Ha Hb Hle. apply Z.mod_small. lia.
  - unfold is_u32. intros Ha Hb Hle.
    rewrite <- (Z.mod_add (a + b) (-1) (2 ^ 32)) by lia.
    apply Z.mod_small. lia.
  - intros constant a1 c1 l1 H1. destruct fuel; simpl;
      (eapply bind_Done; [exact H1 | reflexivity | symmetry; apply app_nil_r]).
  - intros constant a1 H1. rewrite eval_SubArgConstNode.
    apply (binop_pure ord sub32); [exact H1 | reflexivity].
Qed.

Lemma add_sub_wrap_around_witness :
  operands_yield LeftFirst (eval LeftFirst [] [] 0 (ConstNode 0))
    (eval LeftFirst [] [] 0 (ConstNode 1)) new_Context 0 1 new_Context [] /\
  eval LeftFirst [] [] 0 (SubNode (ConstNode 0) (ConstNode 1)) new_Context
  = Done ((0 - 1) mod 2 ^ 32, new_Context, []).
Proof.
  assert (H : operands_yield LeftFirst (eval LeftFirst [] [] 0 (ConstNode 0))
    (eval LeftFirst [] [] 0 (ConstNode 1)) new_Context 0 1 new_Context []).
  { exists new_Context, [], []. repeat split. }
  split; [exact H |].
  exact (proj1 (proj2 (add_sub_wrap_around LeftFirst [] [] 0 (ConstNode 0)
                         (ConstNode 1) new_Context 0 1 new_Context [] H))).
Defined.

Example sub_underflow :
  result_of (eval LeftFirst [] [] 0 (SubNode (ConstNode 0) (ConstNode 1))
               new_Context) = Done 4294967295 /\
  result_of (eval RightFirst [] [] 0
               (AddNode (ConstNode 4294967295) (ConstNode 2)) new_Context)
  = Done 1.
Proof. split; vm_compute; reflexivity. Qed.

(** ** Cross-stage equivalence *)

Lemma fib_u32 fuel n v : fib fuel n = Done v -> is_u32 n -> is_u32 v.
Proof.
  destruct fuel as [| fuel]; [discriminate |]. intros H Hn.
  destruct (Z.lt_ge_cases n 2) as [Hlt | Hge].
  - apply fib_base in H; [subst v; exact Hn | exact Hlt].
  - apply fib_step in H as (a & b & _ & _ & ->); [| exact Hge].
    apply wrap32_u32.
Qed.

(** The reference function computes the Fibonacci numbers modulo
    [2 ^ 32]. *)
Lemma fib_is_fibonacci fuel : forall n v,
  Z.of_nat n < 2 ^ 32 -> fib fuel (Z.of_nat n) = Done v ->
  v = wrap32 (fibonacci n).
Proof.
  induction fuel as [| fuel IH]; intros n v Hn H; [discriminate |].
  destruct n as [| [| p]].
  - apply fib_base in H; [subst v; reflexivity | lia].
  - apply fib_base in H; [subst v; reflexivity | lia].
  - apply fib_step in H as (a & b & Ha & Hb & ->); [| lia].
    rewrite sub32_small in Ha, Hb by lia.
    replace (Z.of_nat (S (S p)) - 1) with (Z.of_nat (S p)) in Ha by lia.
    replace (Z.of_nat (S (S p)) - 2) with (Z.of_nat p) in Hb by lia.
    apply IH in Ha; [| lia]. apply IH in Hb; [| lia]. subst a b.
    change (fibonacci (S (S p))) with (fibonacci (S p) + fibonacci p).
    unfold add32, wrap32. symmetry. apply Zplus_mod.
Qed.

(** C1: for every argument from 0 up to the capacity of the argument
    stack, and with fuel for the depth of the recursion, the four stage
    evaluators and the plain recursive [fib] return the same [uint32_t],
    the Fibonacci number of the argument modulo [2 ^ 32], whatever order
    each stage evaluates its operands in. *)
Theorem stages_agree_with_reference o1 o2 o3 o4 fuel n :
  0 <= n <= STACK_SIZE -> (Z.to_nat n <= fuel)%nat -> (1 <= fuel)%nat ->
  exists v,
    is_u32 v /\
    v = fibonacci (Z.to_nat n) mod 2 ^ 32 /\
    fib fuel n = Done v /\
    Simplest.fib o1 fuel n = Done v /\
    SimpleFusion.fib o2 fuel n = Done v /\
    BetterFusion.fib o3 fuel n = Done v /\
    SimplifyCalls.fib o4 fuel n = Done v.
Proof.
  intros Hn Hf H1.
  assert (Hu : is_u32 n) by (unfold is_u32, STACK_SIZE in *; lia).
  destruct (fib_returns fuel n Hu Hf H1) as [v Hv].
  exists v. split; [eapply fib_u32; eassumption |].
  split; [apply (fib_is_fibonacci fuel); rewrite Z2Nat.id by lia;
          [apply Hu | exact Hv] |].
  split; [exact Hv |].
  rewrite SimpleFusion_fib_is_Simplest, BetterFusion_fib_is_Simplest.
  repeat split; try (apply Simplest_fib_correct; assumption).
  apply SimplifyCalls_fib_correct; assumption.
Qed.

Lemma stages_agree_with_reference_witness :
  0 <= 30 <= STACK_SIZE /\
  exists v,
    is_u32 v /\
    v = fibonacci (Z.to_nat 30) mod 2 ^ 32 /\
    fib 30 30 = Done v /\
    Simplest.fib LeftFirst 30 30 = Done v /\
    SimpleFusion.fib RightFirst 30 30 = Done v /\
    BetterFusion.fib LeftFirst 30 30 = Done v /\
    SimplifyCalls.fib RightFirst 30 30 = Done v.
Proof.
  assert (H : 0 <= 30 <= STACK_SIZE) by (unfold STACK_SIZE; lia).
  split; [exact H |].
  apply (stages_agree_with_reference LeftFirst RightFirst LeftFirst RightFirst
           30 30 H); simpl; lia.
Defined.

(** C4: in namespace [BetterFusion] the polymorphic [eval] of [ConstNode],
    [ArgNode], [LessArgConstNode] and [SubArgConstNode] does, in every
    context, what the [compute] of the class does, and what the classes of
    stages 1 and 2 it replaces do; the stage 3 driver returns what the
    drivers of stages 1 and 2 return, for every argument. *)
Theorem eval_is_compute ord funs nodes fuel c (a : BF_Arg) (k : BF_Const) n :
  eval ord funs nodes fuel (OfConst k) c = BF_ConstNode_compute k c /\
  eval ord funs nodes fuel (OfArg a) c = BF_ArgNode_compute a c /\
  eval ord funs nodes fuel (LessArgConstNode a k) c
  = LessArgConstNode_compute ord a k c /\
  eval ord funs nodes fuel (SubArgConstNode a k) c
  = SubArgConstNode_compute ord a k c /\
  eval ord funs nodes fuel (OfConst k) c
  = eval ord funs nodes fuel (unfuse (OfConst k)) c /\
  eval ord funs nodes fuel (OfArg a) c = eval ord funs nodes fuel ArgNode c /\
  eval ord funs nodes fuel (LessArgConstNode a k) c
  = eval ord funs nodes fuel (unfuse (LessArgConstNode a k)) c /\
  eval ord funs nodes fuel (SubArgConstNode a k) c
  = eval ord funs nodes fuel (unfuse (SubArgConstNode a k)) c /\
  BetterFusion.fib ord fuel n = Simplest.fib ord fuel n /\
  BetterFusion.fib ord fuel n = SimpleFusion.fib ord fuel n.
Proof.
  destruct a, k as [value].
  repeat split; try (destruct fuel; reflexivity).
  - apply BetterFusion_fib_is_Simplest.
  - rewrite SimpleFusion_fib_is_Simplest. apply BetterFusion_fib_is_Simplest.
Qed.

(** C8: every stage returns 0 for the argument 0, 1 for 1, 55 for 10 and
    6765 for 20, as the plain recursive [fib] does; these are the
    Fibonacci numbers of those indices. *)
Theorem fib_values ord :
  (Simplest.fib ord 1 0 = Done 0 /\ Simplest.fib ord 1 1 = Done 1 /\
   Simplest.fib ord 10 10 = Done 55 /\ Simplest.fib ord 20 20 = Done 6765) /\
  (SimpleFusion.fib ord 1 0 = Done 0 /\ SimpleFusion.fib ord 1 1 = Done 1 /\
   SimpleFusion.fib ord 10 10 = Done 55 /\
   SimpleFusion.fib ord 20 20 = Done 6765) /\
  (BetterFusion.fib ord 1 0 = Done 0 /\ BetterFusion.fib ord 1 1 = Done 1 /\
   BetterFusion.fib ord 10 10 = Done 55 /\
   BetterFusion.fib ord 20 20 = Done 6765) /\
  (SimplifyCalls.fib ord 1 0 = Done 0 /\ SimplifyCalls.fib ord 1 1 = Done 1 /\
   SimplifyCalls.fib ord 10 10 = Done 55 /\
   SimplifyCalls.fib ord 20 20 = Done 6765) /\
  (fib 1 0 = Done 0 /\ fib 1 1 = Done 1 /\
   fib 10 10 = Done 55 /\ fib 20 20 = Done 6765) /\
  (fibonacci 0 = 0 /\ fibonacci 1 = 1 /\
   fibonacci 10 = 55 /\ fibonacci 20 = 6765).
Proof.
  assert (R : fib 1 0 = Done 0 /\ fib 1 1 = Done 1 /\
              fib 10 10 = Done 55 /\ fib 20 20 = Done 6765)
    by (split; [| split; [| split]]; vm_compute; reflexivity).
  pose proof R as (R0 & R1 & R10 & R20).
  assert (B : forall k, 0 <= k <= 20 -> 0 <= k <= STACK_SIZE)
    by (unfold STACK_SIZE; lia).
  assert (S1 : Simplest.fib ord 1 0 = Done 0 /\ Simplest.fib ord 1 1 = Done 1 /\
               Simplest.fib ord 10 10 = Done 55 /\
               Simplest.fib ord 20 20 = Done 6765)
    by (repeat split; apply Simplest_fib_correct;
        (assumption || (apply B; lia))).
  rewrite !SimpleFusion_fib_is_Simplest, !BetterFusion_fib_is_Simplest.
  split; [exact S1 |]. split; [exact S1 |]. split; [exact S1 |].
  split; [| split].
  - repeat split; apply SimplifyCalls_fib_correct;
      (assumption || (apply B; lia)).
  - exact R.
  - split; [| split; [| split]]; vm_compute; reflexivity.
Qed.

(** ** Beyond the capacity of the argument stack *)

Lemma binop_LeftFirst_Undefined_l op (lhs rhs : M Z) c :
  lhs c = Undefined -> binop LeftFirst op lhs rhs c = Undefined.
Proof. intros H. apply bind_Undefined_l. exact H. Qed.

Lemma binop_LeftFirst_Undefined_r op (lhs rhs : M Z) c a c1 l1 :
  lhs c = Done (a, c1, l1) -> rhs c1 = Undefined ->
  binop LeftFirst op lhs rhs c = Undefined.
Proof.
  intros Hl Hr. eapply bind_Undefined_r; [exact Hl |].
  apply bind_Undefined_l. exact Hr.
Qed.

Lemma binop_RightFirst_Undefined_r op (lhs rhs : M Z) c :
  rhs c = Undefined -> binop RightFirst op lhs rhs c = Undefined.
Proof. intros H. apply bind_Undefined_l. exact H. Qed.

Lemma binop_RightFirst_Undefined_l op (lhs rhs : M Z) c b c1 l1 :
  rhs c = Done (b, c1, l1) -> lhs c1 = Undefined ->
  binop RightFirst op lhs rhs c = Undefined.
Proof.
  intros Hr Hl. eapply bind_Undefined_r; [exact Hr |].
  apply bind_Undefined_l. exact Hl.
Qed.

Lemma run_body_Undefined_head (ev : Node -> M Z) n rest c :
  ev n c = Undefined -> run_body ev (n :: rest) c = Undefined.
Proof. intros H. simpl. apply bind_Undefined_l. exact H. Qed.

Lemma run_body_goes_on_Undefined (ev : Node -> M Z) n rest c v c1 l1 :
  ev n c = Done (v, c1, l1) -> stopForReturn c1 = false ->
  run_body ev rest c1 = Undefined ->
  run_body ev (n :: rest) c = Undefined.
Proof.
  intros H Hs Hr. simpl. unfold bind. rewrite H. unfold get_stopForReturn.
  rewrite Hs, Hr. reflexivity.
Qed.

Lemma store_top_overflow a c :
  STACK_SIZE <= stackTop c -> store_top a c = Undefined.
Proof.
  intros H. unfold store_top.
  replace (in_bounds (stackTop c)) with false; [reflexivity |].
  symmetry. apply not_true_is_false. rewrite in_bounds_spec. lia.
Qed.

Lemma CallNode_eval_overflow (statements : M unit) (arg : M Z) c a c1 la :
  arg c = Done (a, c1, la) -> STACK_SIZE <= stackTop c1 ->
  CallNode_eval statements arg c = Undefined.
Proof.
  intros Ha Hb. unfold CallNode_eval. eapply bind_Undefined_r; [exact Ha |].
  unfold in_call, bind. rewrite store_top_overflow by exact Hb. reflexivity.
Qed.

Lemma CallAnyNode_eval_overflow (function arg : M Z) c a c1 la :
  arg c = Done (a, c1, la) -> STACK_SIZE <= stackTop c1 ->
  CallAnyNode_eval function arg c = Undefined.
Proof.
  intros Ha Hb. unfold CallAnyNode_eval. eapply bind_Undefined_r; [exact Ha |].
  unfold in_call, bind. rewrite store_top_overflow by exact Hb. reflexivity.
Qed.

Lemma CallNode_eval_Undefined_body (statements : M unit) (arg : M Z) c a c1 la :
  arg c = Done (a, c1, la) -> 0 <= stackTop c1 < STACK_SIZE ->
  statements (enter_frame a c1) = Undefined ->
  CallNode_eval statements arg c = Undefined.
Proof.
  intros Ha Hb Hs. unfold CallNode_eval. eapply bind_Undefined_r; [exact Ha |].
  unfold in_call, bind, store_top. apply in_bounds_spec in Hb as Hb'.
  rewrite Hb'. unfold incr_top. simpl.
  rewrite wrap32_small by (unfold STACK_SIZE in Hb; lia).
  unfold enter_frame in Hs. rewrite Hs. reflexivity.
Qed.

Lemma CallAnyNode_eval_Undefined_body (function arg : M Z) c a c1 la :
  arg c = Done (a, c1, la) -> 0 <= stackTop c1 < STACK_SIZE ->
  function (enter_frame a c1) = Undefined ->
  CallAnyNode_eval function arg c = Undefined.
Proof.
  intros Ha Hb Hs. unfold CallAnyNode_eval. eapply bind_Undefined_r; [exact Ha |].
  unfold in_call, bind, store_top. apply in_bounds_spec in Hb as Hb'.
  rewrite Hb'. unfold incr_top. simpl.
  rewrite wrap32_small by (unfold STACK_SIZE in Hb; lia).
  unfold enter_frame in Hs. rewrite Hs. reflexivity.
Qed.

(** A call of the body of [Simplest::fib] whose recursion needs more
    frames than the stack has left runs into the store past the array. *)
Lemma Simplest_call_overflow ord fuel : forall k c arg la,
  0 <= k < 2 ^ 32 -> (Z.to_nat k <= fuel)%nat -> (1 <= fuel)%nat ->
  eval ord [Simplest.function] [] fuel arg c = Done (k, c, la) ->
  stopForReturn c = false -> 0 <= stackTop c ->
  STACK_SIZE < stackTop c + Z.max k 1 ->
  eval ord [Simplest.function] [] fuel (CallNode 0%nat arg) c = Undefined.
Proof.
  induction fuel as [| fuel IH]; intros k c arg la Hk Hf H1 Harg Hstop Htop Hroom;
    [lia |].
  rewrite (eval_CallNode_S _ _ _ _ _ _ Simplest.function) by reflexivity.
  destruct (Z.le_gt_cases STACK_SIZE (stackTop c)) as [Hfull | Hfree].
  { eapply CallNode_eval_overflow; eassumption. }
  assert (Hk2 : 2 <= k) by lia.
  eapply CallNode_eval_Undefined_body; [exact Harg | lia |].
  set (c0 := enter_frame k c).
  assert (Hc0 : top_is k c0) by (apply top_is_enter_frame; lia).
  pose proof (read_top_top_is _ _ Hc0) as Hread.
  assert (Hcond : eval ord [Simplest.function] [] fuel
                    (LessNode ArgNode (ConstNode 2)) c0
                  = Done (less32 k 2, c0, [])).
  { autorewrite with eval_unfold. apply binop_pure; [exact Hread | reflexivity]. }
  assert (Harg' : forall j cx, top_is k cx ->
            eval ord [Simplest.function] [] fuel
              (SubNode ArgNode (ConstNode j)) cx = Done (sub32 k j, cx, [])).
  { intros j cx Hcx. autorewrite with eval_unfold.
    apply binop_pure; [apply read_top_top_is; exact Hcx | reflexivity]. }
  assert (Hover : forall j cx,
    j = 1 \/ j = 2 -> top_is k cx -> stopForReturn cx = false ->
    stackTop cx = stackTop c + 1 ->
    STACK_SIZE < stackTop cx + Z.max (k - j) 1 ->
    eval ord [Simplest.function] [] fuel
      (CallNode 0%nat (SubNode ArgNode (ConstNode j))) cx = Undefined).
  { intros j cx Hj Hcx Hsx Htx Hrx.
    apply (IH (sub32 k j) cx _ []).
    - apply wrap32_u32.
    - rewrite sub32_small by lia. lia.
    - lia.
    - apply Harg'. exact Hcx.
    - exact Hsx.
    - lia.
    - rewrite sub32_small by lia. exact Hrx. }
  unfold Simplest.function. eapply run_body_goes_on_Undefined.
  - rewrite eval_IfNode. eapply IfNode_eval_skip; [exact Hcond |].
    rewrite less32_truthy. apply Z.ltb_ge. exact Hk2.
  - exact Hstop.
  - apply run_body_Undefined_head. rewrite eval_ReturnNode.
    unfold ReturnNode_eval. apply bind_Undefined_l.
    rewrite eval_AddNode. unfold AddNode_eval. destruct ord.
    + apply binop_LeftFirst_Undefined_l. apply Hover; auto.
      unfold c0; simpl. lia.
    + destruct (Z.lt_ge_cases STACK_SIZE (stackTop c0 + Z.max (k - 2) 1))
        as [Hdeep | Hfits].
      * apply binop_RightFirst_Undefined_r. apply Hover; auto.
      * destruct (fib_returns fuel (sub32 k 2)) as [r Hr].
        { apply wrap32_u32. }
        { rewrite sub32_small by lia. lia. }
        { lia. }
        destruct (Simplest_call RightFirst fuel (sub32 k 2) r c0
                    (SubNode ArgNode (ConstNode 2)) [])
          as (c2 & l2 & H2).
        { exact Hr. }
        { apply wrap32_u32. }
        { apply Harg'. exact Hc0. }
        { exact Hstop. }
        { unfold c0; simpl. lia. }
        { rewrite sub32_small by lia. exact Hfits. }
        pose proof (effectful_eval _ _ _ _ _ _ _ _ _ H2) as He.
        eapply binop_RightFirst_Undefined_l; [exact H2 |].
        apply Hover; auto.
        -- eapply top_is_effect; eassumption.
        -- eapply call_lowers_signal; [| exact H2]. exact I.
        -- rewrite (eff_top _ _ _ He). reflexivity.
        -- rewrite (eff_top _ _ _ He). unfold c0; simpl. lia.
Qed.

Lemma IfElseNode_eval_else_Undefined (condition ifBody elseBody : M Z) c x c1 l1 :
  condition c = Done (x, c1, l1) -> truthy x = false ->
  elseBody c1 = Undefined ->
  IfElseNode_eval condition ifBody elseBody c = Undefined.
Proof.
  intros Hc Hx Hb. unfold IfElseNode_eval.
  eapply bind_Undefined_r; [exact Hc | rewrite Hx; exact Hb].
Qed.

Lemma SimplifyCalls_call_overflow ord fuel : forall k c arg la,
  0 <= k < 2 ^ 32 -> (Z.to_nat k <= fuel)%nat -> (1 <= fuel)%nat ->
  eval ord [] [SimplifyCalls.function] fuel arg c = Done (k, c, la) ->
  0 <= stackTop c ->
  STACK_SIZE < stackTop c + Z.max k 1 ->
  eval ord [] [SimplifyCalls.function] fuel (CallAnyNode 0%nat arg) c
  = Undefined.
Proof.
  induction fuel as [| fuel IH]; intros k c arg la Hk Hf H1 Harg Htop Hroom;
    [lia |].
  rewrite (eval_CallAnyNode_S _ _ _ _ _ _ SimplifyCalls.function) by reflexivity.
  destruct (Z.le_gt_cases STACK_SIZE (stackTop c)) as [Hfull | Hfree].
  { eapply CallAnyNode_eval_overflow; eassumption. }
  assert (Hk2 : 2 <= k) by lia.
  eapply CallAnyNode_eval_Undefined_body; [exact Harg | lia |].
  set (c0 := enter_frame k c).
  assert (Hc0 : top_is k c0) by (apply top_is_enter_frame; lia).
  pose proof (read_top_top_is _ _ Hc0) as Hread.
  assert (Hcond : eval ord [] [SimplifyCalls.function] fuel
                    (LessArgConstNode BF_ArgNode (BF_ConstNode 2)) c0
                  = Done (less32 k 2, c0, [])).
  { rewrite eval_LessArgConstNode. apply binop_pure; [exact Hread | reflexivity]. }
  assert (Harg' : forall j cx, top_is k cx ->
            eval ord [] [SimplifyCalls.function] fuel
              (SubArgConstNode BF_ArgNode (BF_ConstNode j)) cx
            = Done (sub32 k j, cx, [])).
  { intros j cx Hcx. rewrite eval_SubArgConstNode.
    apply binop_pure; [apply read_top_top_is; exact Hcx | reflexivity]. }
  assert (Hover : forall j cx,
    j = 1 \/ j = 2 -> top_is k cx -> stackTop cx = stackTop c + 1 ->
    STACK_SIZE < stackTop cx + Z.max (k - j) 1 ->
    eval ord [] [SimplifyCalls.function] fuel
      (CallAnyNode 0%nat (SubArgConstNode BF_ArgNode (BF_ConstNode j))) cx
    = Undefined).
  { intros j cx Hj Hcx Htx Hrx.
    apply (IH (sub32 k j) cx _ []).
    - apply wrap32_u32.
    - rewrite sub32_small by lia. lia.
    - lia.
    - apply Harg'. exact Hcx.
    - lia.
    - rewrite sub32_small by lia. exact Hrx. }
  unfold SimplifyCalls.function at 2. rewrite eval_IfElseNode.
  eapply IfElseNode_eval_else_Undefined; [exact Hcond | |].
  { rewrite less32_truthy. apply Z.ltb_ge. exact Hk2. }
  rewrite eval_AddNode. unfold AddNode_eval. destruct ord.
  - apply binop_LeftFirst_Undefined_l. apply Hover; auto.
    unfold c0; simpl. lia.
  - destruct (Z.lt_ge_cases STACK_SIZE (stackTop c0 + Z.max (k - 2) 1))
      as [Hdeep | Hfits].
    + apply binop_RightFirst_Undefined_r. apply Hover; auto.
    + destruct (fib_returns fuel (sub32 k 2)) as [r Hr].
      { apply wrap32_u32. }
      { rewrite sub32_small by lia. lia. }
      { lia. }
      destruct (SimplifyCalls_call RightFirst fuel (sub32 k 2) r c0
                  (SubArgConstNode BF_ArgNode (BF_ConstNode 2)) [])
        as (c2 & l2 & H2).
      { exact Hr. }
      { apply wrap32_u32. }
      { apply Harg'. exact Hc0. }
      { unfold c0; simpl. lia. }
      { rewrite sub32_small by lia. exact Hfits. }
      pose proof (effectful_eval _ _ _ _ _ _ _ _ _ H2) as He.
      eapply binop_RightFirst_Undefined_l; [exact H2 |].
      apply Hover; auto.
      * eapply top_is_effect; eassumption.
      * rewrite (eff_top _ _ _ He). reflexivity.
      * rewrite (eff_top _ _ _ He). unfold c0; simpl. lia.
Qed.

Lemma Simplest_fib_overflow ord fuel n :
  STACK_SIZE < n < 2 ^ 32 -> (Z.to_nat n <= fuel)%nat ->
  Simplest.fib ord fuel n = Undefined.
Proof.
  intros Hn Hf. unfold Simplest.fib. unfold STACK_SIZE in Hn.
  rewrite (Simplest_call_overflow ord fuel n new_Context (ConstNode n) []);
    try reflexivity; try lia.
  - rewrite eval_ConstNode. reflexivity.
  - unfold STACK_SIZE. simpl. lia.
Qed.

Lemma SimplifyCalls_fib_overflow ord fuel n :
  STACK_SIZE < n < 2 ^ 32 -> (Z.to_nat n <= fuel)%nat ->
  SimplifyCalls.fib ord fuel n = Undefined.
Proof.
  intros Hn Hf. unfold SimplifyCalls.fib. unfold STACK_SIZE in Hn.
  rewrite (SimplifyCalls_call_overflow ord fuel n new_Context (BF_ConstNode n) []);
    try reflexivity; try lia.
  - rewrite eval_OfConst. reflexivity.
  - unfold STACK_SIZE. simpl. lia.
Qed.

(** C5, the claim as worded, fails: no stage reports an error when the
    recursion outgrows the argument stack.  With the argument 4097 the
    recursion reaches [stackTop = 4096] and the store of the call protocol
    goes past the array, which [eval] does without any check. *)
Lemma deep_recursion_is_not_reported :
  Simplest.fib LeftFirst 4097 4097 = Undefined /\
  SimpleFusion.fib LeftFirst 4097 4097 = Undefined /\
  BetterFusion.fib LeftFirst 4097 4097 = Undefined /\
  SimplifyCalls.fib LeftFirst 4097 4097 = Undefined /\
  eval LeftFirst [[]] [] 1 (CallNode 0%nat (ConstNode 1))
    {| stopForReturn := false; returnValue := 0; stack := ∅;
       stackTop := STACK_SIZE |} = Undefined.
Proof.
  split; [| split; [| split; [| split]]]; vm_compute; reflexivity.
Qed.

(** C5 as amended: the call protocol stores the argument without checking
    [stackTop] and no [StackOverflow] error exists.  A call evaluated
    with [stackTop] at or beyond the capacity stores outside the array
    (undefined behaviour); a push below the capacity stores the argument
    at index [stackTop] and touches no other slot.  Accordingly each stage,
    given an argument above 4096, runs into the store outside the array. *)
Theorem push_is_unchecked ord funs nodes fuel arg c a c1 la :
  eval ord funs nodes fuel arg c = Done (a, c1, la) ->
  (STACK_SIZE <= stackTop c1 ->
   forall f r,
     eval ord funs nodes fuel (CallNode f arg) c = Undefined /\
     eval ord funs nodes fuel (BF_CallNode f arg) c = Undefined /\
     eval ord funs nodes fuel (CallAnyNode r arg) c = Undefined) /\
  (0 <= stackTop c1 < STACK_SIZE ->
   exists c2,
     store_top a c1 = Done (tt, c2, []) /\
     stack c2 !! stackTop c1 = Some a /\
     (forall i, i <> stackTop c1 -> stack c2 !! i = stack c1 !! i) /\
     stackTop c2 = stackTop c1) /\
  (forall o n fuel', STACK_SIZE < n < 2 ^ 32 -> (Z.to_nat n <= fuel')%nat ->
     Simplest.fib o fuel' n = Undefined /\
     SimpleFusion.fib o fuel' n = Undefined /\
     BetterFusion.fib o fuel' n = Undefined /\
     SimplifyCalls.fib o fuel' n = Undefined).
Proof.
  intros Ha. split; [| split].
  - intros Hfull f r. repeat split; destruct fuel; simpl;
      (eapply CallNode_eval_overflow || eapply CallAnyNode_eval_overflow);
      eassumption.
  - intros Hb. unfold store_top. apply in_bounds_spec in Hb as ->.
    eexists. split; [reflexivity |]. simpl. split; [| split].
    + apply lookup_insert_eq.
    + intros i Hi. apply lookup_insert_ne. congruence.
    + reflexivity.
  - intros o n fuel' Hn Hf.
    rewrite SimpleFusion_fib_is_Simplest, BetterFusion_fib_is_Simplest.
    repeat split; try (apply Simplest_fib_overflow; assumption).
    apply SimplifyCalls_fib_overflow; assumption.
Qed.

Lemma push_is_unchecked_witness :
  eval LeftFirst [[]] [] 1 (ConstNode 1)
    {| stopForReturn := false; returnValue := 0; stack := ∅;
       stackTop := STACK_SIZE |}
  = Done (1, {| stopForReturn := false; returnValue := 0; stack := ∅;
                stackTop := STACK_SIZE |}, []) /\
  eval LeftFirst [[]] [] 1 (CallNode 0%nat (ConstNode 1))
    {| stopForReturn := false; returnValue := 0; stack := ∅;
       stackTop := STACK_SIZE |} = Undefined.
Proof.
  split; [reflexivity |].
  refine (proj1 (proj1 (push_is_unchecked LeftFirst [[]] [] 1 (ConstNode 1)
    {| stopForReturn := false; returnValue := 0; stack := ∅;
       stackTop := STACK_SIZE |} 1 _ [] _) _ 0%nat 0%nat)).
  - reflexivity.
  - simpl. lia.
Defined.

(** * Further properties of the evaluators *)

(** ** Frames of the argument stack *)

(** X1: an evaluation that returns has not written any slot below the
    [stackTop] it started with, so the frames of the enclosing calls are
    intact, and [Arg] reads the same argument after it as before. *)
Theorem enclosing_frames_untouched ord funs nodes fuel n c v c' l :
  eval ord funs nodes fuel n c = Done (v, c', l) ->
  is_u32 (stackTop c) ->
  (forall i, i < stackTop c -> stack c' !! i = stack c !! i) /\
  (forall k fuel',
     eval ord funs nodes fuel' ArgNode c = Done (k, c, []) ->
     eval ord funs nodes fuel' ArgNode c' = Done (k, c', []) /\
     eval ord funs nodes fuel' (OfArg BF_ArgNode) c' = Done (k, c', [])).
Proof.
  intros H Htop. pose proof (effectful_eval _ _ _ _ _ _ _ _ _ H) as He.
  split; [exact (eff_frame _ _ _ He) |].
  intros k fuel' Hk. rewrite eval_ArgNode in Hk. rewrite eval_ArgNode, eval_OfArg.
  assert (Hr : read_top c' = Done (k, c', [])).
  { apply read_top_top_is. apply (top_is_effect k c c' l); [| exact He].
    unfold ArgNode_eval, read_top in Hk.
    destruct (in_bounds (wrap32 (stackTop c - 1))) eqn:Hb; [| discriminate].
    destruct (stack c !! wrap32 (stackTop c - 1)) as [x |] eqn:Hx;
      [| discriminate].
    injection Hk as ->. apply in_bounds_spec in Hb. unfold is_u32 in Htop.
    assert (H1 : 1 <= stackTop c).
    { destruct (Z.eq_dec (stackTop c) 0) as [E | E]; [| lia].
      rewrite E in Hb. destruct Hb as [_ Hb]. vm_compute in Hb. discriminate. }
    rewrite wrap32_small in Hb, Hx by lia. split; [lia | exact Hx]. }
  split; exact Hr.
Qed.

Lemma enclosing_frames_untouched_witness :
  exists c' l,
    eval LeftFirst [Simplest.function] [] 2 (CallNode 0%nat (ConstNode 2))
         (enter_frame 5 new_Context) = Done (1, c', l) /\
    is_u32 (stackTop (enter_frame 5 new_Context)) /\
    stack c' !! 0 = Some 5.
Proof.
  eexists _, _. split; [vm_compute; reflexivity |].
  split; [unfold is_u32; simpl; lia |].
  refine (eq_trans (proj1 (enclosing_frames_untouched LeftFirst
            [Simplest.function] [] 2 (CallNode 0%nat (ConstNode 2))
            (enter_frame 5 new_Context) 1 _ _ _ _) 0 _) _).
  - vm_compute. reflexivity.
  - unfold is_u32; simpl; lia.
  - simpl. lia.
  - vm_compute. reflexivity.
Defined.

(** X2: a call hands its argument to the callee: a function whose first
    statement returns [Arg], or a callee node that is an [Arg], yields
    the value of the argument expression, whatever the context and whatever
    else the body holds. *)
Theorem call_passes_argument ord funs nodes fuel arg c a c1 la :
  eval ord funs nodes (S fuel) arg c = Done (a, c1, la) ->
  0 <= stackTop c1 < STACK_SIZE ->
  (forall f rest,
     funs !! f = Some (ReturnNode ArgNode :: rest) ->
     result_of (eval ord funs nodes (S fuel) (CallNode f arg) c) = Done a /\
     result_of (eval ord funs nodes (S fuel) (BF_CallNode f arg) c) = Done a) /\
  (forall f rest,
     funs !! f = Some (ReturnNode (OfArg BF_ArgNode) :: rest) ->
     result_of (eval ord funs nodes (S fuel) (CallNode f arg) c) = Done a /\
     result_of (eval ord funs nodes (S fuel) (BF_CallNode f arg) c) = Done a) /\
  (forall r, nodes !! r = Some ArgNode \/ nodes !! r = Some (OfArg BF_ArgNode) ->
     result_of (eval ord funs nodes (S fuel) (CallAnyNode r arg) c) = Done a).
Proof.
  intros Ha Hb.
  pose proof (read_top_top_is _ _ (top_is_enter_frame a c1 Hb)) as Hread.
  assert (Hbody : forall rhs rest,
            eval ord funs nodes fuel rhs (enter_frame a c1)
            = Done (a, enter_frame a c1, []) ->
            exists c2,
              run_body (eval ord funs nodes fuel) (ReturnNode rhs :: rest)
                       (enter_frame a c1) = Done (tt, c2, [] ++ [Fired a]) /\
              returnValue c2 = a).
  { intros rhs rest Hrhs. eexists. split.
    - eapply run_body_stops.
      + rewrite eval_ReturnNode. apply ReturnNode_eval_Done. exact Hrhs.
      + reflexivity.
    - reflexivity. }
  assert (Hcall : forall f rhs rest,
            funs !! f = Some (ReturnNode rhs :: rest) ->
            eval ord funs nodes fuel rhs (enter_frame a c1)
            = Done (a, enter_frame a c1, []) ->
            result_of (eval ord funs nodes (S fuel) (CallNode f arg) c) = Done a /\
            result_of (eval ord funs nodes (S fuel) (BF_CallNode f arg) c) = Done a).
  { intros f rhs rest Hf Hrhs.
    destruct (Hbody rhs rest Hrhs) as (c2 & Hrun & Hv).
    assert (H : eval ord funs nodes (S fuel) (CallNode f arg) c
                = Done (a, leave_frame c2, la ++ [Called ([] ++ [Fired a]) a])).
    { rewrite (eval_CallNode_S _ _ _ _ _ _ _ Hf). rewrite <- Hv at 1 3.
      eapply CallNode_eval_Done; eassumption. }
    split; [rewrite H; reflexivity |].
    change (eval ord funs nodes (S fuel) (BF_CallNode f arg) c)
      with (eval ord funs nodes (S fuel) (CallNode f arg) c).
    rewrite H. reflexivity. }
  split; [| split].
  - intros f rest Hf. apply (Hcall f ArgNode rest Hf).
    rewrite eval_ArgNode. exact Hread.
  - intros f rest Hf. apply (Hcall f (OfArg BF_ArgNode) rest Hf).
    rewrite eval_OfArg. exact Hread.
  - intros r Hr.
    assert (Hc : exists callee, nodes !! r = Some callee /\
              eval ord funs nodes fuel callee (enter_frame a c1)
              = Done (a, enter_frame a c1, [])).
    { destruct Hr as [Hr | Hr]; eexists; (split; [exact Hr |]).
      - rewrite eval_ArgNode. exact Hread.
      - rewrite eval_OfArg. exact Hread. }
    destruct Hc as (callee & Hr' & Hcallee).
    rewrite (eval_CallAnyNode_S _ _ _ _ _ _ _ Hr').
    erewrite CallAnyNode_eval_Done; [reflexivity | exact Ha | exact Hb |].
    exact Hcallee.
Qed.

Lemma call_passes_argument_witness :
  eval LeftFirst [[ReturnNode ArgNode]] [] 1
       (AddNode (ConstNode 40) (ConstNode 2)) new_Context
  = Done (42, new_Context, []) /\
  0 <= stackTop new_Context < STACK_SIZE /\
  result_of (eval LeftFirst [[ReturnNode ArgNode]] [] 1
               (CallNode 0%nat (AddNode (ConstNode 40) (ConstNode 2)))
               new_Context) = Done 42.
Proof.
  assert (Ha : eval LeftFirst [[ReturnNode ArgNode]] [] 1
                 (AddNode (ConstNode 40) (ConstNode 2)) new_Context
               = Done (42, new_Context, [])) by reflexivity.
  assert (Hb : 0 <= stackTop new_Context < STACK_SIZE)
    by (unfold STACK_SIZE; simpl; lia).
  split; [exact Ha |]. split; [exact Hb |].
  exact (proj1 (proj1 (call_passes_argument LeftFirst [[ReturnNode ArgNode]] []
                         0 _ new_Context 42 new_Context [] Ha Hb)
                  0%nat [] eq_refl)).
Defined.

(** X3: outside any call frame, with [stackTop = 0] as in a fresh
    context, [Arg] indexes the stack at [2 ^ 32 - 1]: every node that reads
    the argument has undefined behaviour there, and so it has when
    [stackTop] lies beyond the capacity. *)
Theorem argument_read_outside_frame ord funs nodes fuel c k :
  stackTop c = 0 \/ STACK_SIZE < stackTop c < 2 ^ 32 ->
  eval ord funs nodes fuel ArgNode c = Undefined /\
  eval ord funs nodes fuel (OfArg BF_ArgNode) c = Undefined /\
  eval ord funs nodes fuel (LessArgConstNode BF_ArgNode k) c = Undefined /\
  eval ord funs nodes fuel (SubArgConstNode BF_ArgNode k) c = Undefined /\
  eval ord funs nodes fuel (LessConstNode ArgNode 2) c = Undefined /\
  eval ord funs nodes fuel (ReturnNode ArgNode) c = Undefined.
Proof.
  intros Hs.
  assert (Hr : read_top c = Undefined).
  { unfold read_top.
    replace (in_bounds (wrap32 (stackTop c - 1))) with false; [reflexivity |].
    symmetry. apply not_true_is_false. rewrite in_bounds_spec.
    destruct Hs as [-> | Hs].
    - intros [_ Hlt]. vm_compute in Hlt. discriminate.
    - rewrite wrap32_small by (unfold STACK_SIZE in Hs; lia). lia. }
  rewrite eval_ArgNode, eval_OfArg, eval_LessArgConstNode,
    eval_SubArgConstNode, eval_ReturnNode, eval_ArgNode.
  repeat split; try exact Hr.
  - destruct k. unfold LessArgConstNode_eval, LessArgConstNode_compute, binop.
    destruct ord; [apply bind_Undefined_l; exact Hr |].
    eapply bind_Undefined_r; [reflexivity |]. apply bind_Undefined_l. exact Hr.
  - destruct k. unfold SubArgConstNode_eval, SubArgConstNode_compute, binop.
    destruct ord; [apply bind_Undefined_l; exact Hr |].
    eapply bind_Undefined_r; [reflexivity |]. apply bind_Undefined_l. exact Hr.
  - destruct fuel; simpl; apply bind_Undefined_l; exact Hr.
  - apply bind_Undefined_l. exact Hr.
Qed.

Lemma argument_read_outside_frame_witness :
  (stackTop new_Context = 0 \/ STACK_SIZE < stackTop new_Context < 2 ^ 32) /\
  eval LeftFirst [] [] 0 ArgNode new_Context = Undefined.
Proof.
  assert (H : stackTop new_Context = 0 \/
              STACK_SIZE < stackTop new_Context < 2 ^ 32) by (left; reflexivity).
  split; [exact H |].
  exact (proj1 (argument_read_outside_frame LeftFirst [] [] 0 new_Context
                  (BF_ConstNode 0) H)).
Defined.

(** X4: a call that returns has stored its argument in the slot at the
    caller's [stackTop] and the pop does not erase it: after the call the
    slot still holds the argument, while every slot below is as before. *)
Theorem call_leaves_argument_in_slot ord funs nodes fuel n arg c v c' l :
  (exists f, n = CallNode f arg \/ n = BF_CallNode f arg \/ n = CallAnyNode f arg) ->
  eval ord funs nodes fuel n c = Done (v, c', l) ->
  exists a c1 la,
    eval ord funs nodes fuel arg c = Done (a, c1, la) /\
    stack c' !! stackTop c = Some a /\
    stackTop c' = stackTop c /\
    (forall i, i < stackTop c -> stack c' !! i = stack c !! i).
Proof.
  intros [f Hn] H.
  pose proof (effectful_eval _ _ _ _ _ _ _ _ _ H) as He.
  assert (Hslot : exists a c1 la c2 lb,
            eval ord funs nodes fuel arg c = Done (a, c1, la) /\
            0 <= stackTop c1 < STACK_SIZE /\
            effect (enter_frame a c1) c2 lb /\ c' = leave_frame c2).
  { destruct Hn as [-> | [-> | ->]].
    - apply eval_CallNode_inv in H
        as (fuel' & body & a & c1 & la & c2 & lb & -> & _ & Ha & Hb & Hs & -> & _).
      exists a, c1, la, c2, lb.
      split; [exact Ha |]. split; [exact Hb |]. split; [| reflexivity].
      eapply effectful_statements; eassumption.
    - apply eval_BF_CallNode_inv in H
        as (fuel' & body & a & c1 & la & c2 & lb & -> & _ & Ha & Hb & Hs & -> & _).
      exists a, c1, la, c2, lb.
      split; [exact Ha |]. split; [exact Hb |]. split; [| reflexivity].
      eapply effectful_statements; eassumption.
    - apply eval_CallAnyNode_inv in H
        as (fuel' & callee & a & c1 & la & c2 & lb & -> & _ & Ha & Hb & Hs & -> & _).
      exists a, c1, la, c2, lb.
      split; [exact Ha |]. split; [exact Hb |]. split; [| reflexivity].
      eapply effectful_eval; eassumption. }
  destruct Hslot as (a & c1 & la & c2 & lb & Ha & Hb & Hbody & ->).
  pose proof (eff_top _ _ _ (effectful_eval _ _ _ _ _ _ _ _ _ Ha)) as T1.
  exists a, c1, la. split; [exact Ha |]. split; [| split].
  - simpl. rewrite (eff_frame _ _ _ Hbody) by (simpl; lia).
    simpl. rewrite T1. apply lookup_insert_eq.
  - exact (eff_top _ _ _ He).
  - exact (eff_frame _ _ _ He).
Qed.

Lemma call_leaves_argument_in_slot_witness :
  exists c' l,
    (exists f, CallNode 0%nat (ConstNode 3) = CallNode f (ConstNode 3) \/
               CallNode 0%nat (ConstNode 3) = BF_CallNode f (ConstNode 3) \/
               CallNode 0%nat (ConstNode 3) = CallAnyNode f (ConstNode 3)) /\
    eval LeftFirst [Simplest.function] [] 3 (CallNode 0%nat (ConstNode 3))
         new_Context = Done (2, c', l) /\
    exists a c1 la,
      eval LeftFirst [Simplest.function] [] 3 (ConstNode 3) new_Context
      = Done (a, c1, la) /\
      stack c' !! stackTop new_Context = Some a /\
      stackTop c' = stackTop new_Context /\
      (forall i, i < stackTop new_Context ->
                 stack c' !! i = stack new_Context !! i).
Proof.
  eexists _, _.
  assert (Hn : exists f, CallNode 0%nat (ConstNode 3) = CallNode f (ConstNode 3) \/
               CallNode 0%nat (ConstNode 3) = BF_CallNode f (ConstNode 3) \/
               CallNode 0%nat (ConstNode 3) = CallAnyNode f (ConstNode 3))
    by (exists 0%nat; left; reflexivity).
  split; [exact Hn |].
  split; [vm_compute; reflexivity |].
  refine (call_leaves_argument_in_slot LeftFirst [Simplest.function] [] 3
            (CallNode 0%nat (ConstNode 3)) (ConstNode 3) new_Context 2 _ _ Hn _).
  vm_compute. reflexivity.
Defined.

(** ** Trees without calls *)

Lemma eval_BaseNode ord funs nodes fuel :
  eval ord funs nodes fuel BaseNode = Node_eval.
Proof. destruct fuel; reflexivity. Qed.

Lemma eval_LessConstNode ord funs nodes fuel lhs constant :
  eval ord funs nodes fuel (LessConstNode lhs constant)
  = LessConstNode_eval (eval ord funs nodes fuel lhs) constant.
Proof. destruct fuel; reflexivity. Qed.

Lemma eval_SubConstNode ord funs nodes fuel lhs constant :
  eval ord funs nodes fuel (SubConstNode lhs constant)
  = SubConstNode_eval (eval ord funs nodes fuel lhs) constant.
Proof. destruct fuel; reflexivity. Qed.

Lemma read_top_unchanged c : unchanged_or_undefined c (read_top c).
Proof.
  unfold unchanged_or_undefined, read_top.
  destruct (in_bounds _); [| auto]. destruct (stack c !! _); eauto.
Qed.

(** Two operands that leave the context alone give the same outcome in
    either order. *)
Lemma binop_unchanged ord op (lhs rhs : M Z) c ol or :
  lhs c = ol -> rhs c = or ->
  unchanged_or_undefined c ol -> unchanged_or_undefined c or ->
  binop ord op lhs rhs c
  = match ol, or with
    | Done (a, _, _), Done (b, _, _) => Done (op a b, c, [])
    | _, _ => Undefined
    end.
Proof.
  intros Hl Hr [-> | [a ->]] [-> | [b ->]]; unfold binop, bind, ret;
    destruct ord; rewrite ?Hl, ?Hr; try reflexivity; rewrite ?Hl, ?Hr;
    reflexivity.
Qed.

Lemma pure_eval n :
  call_free n = true -> return_free n = true ->
  forall c, exists o,
    unchanged_or_undefined c o /\
    forall ord funs nodes fuel, eval ord funs nodes fuel n c = o.
Proof.
  induction n; simpl; intros Hc Hr c; try discriminate;
    repeat match goal with
           | H : _ && _ = true |- _ => apply andb_true_iff in H as [? ?]
           end.
  - exists (Done (0, c, [])). split; [right; eauto |].
    intros. rewrite eval_BaseNode. reflexivity.
  - exists (Done (value, c, [])). split; [right; eauto |].
    intros. rewrite eval_ConstNode. reflexivity.
  - destruct (IHn1 ltac:(assumption) ltac:(assumption) c) as (o1 & U1 & E1).
    destruct (IHn2 ltac:(assumption) ltac:(assumption) c) as (o2 & U2 & E2).
    eexists. split; [| intros; rewrite eval_AddNode;
                       apply (binop_unchanged _ add32 _ _ c o1 o2); auto].
    destruct U1 as [-> | [a ->]], U2 as [-> | [b ->]];
      (left; reflexivity) || (right; eauto).
  - destruct (IHn1 ltac:(assumption) ltac:(assumption) c) as (o1 & U1 & E1).
    destruct (IHn2 ltac:(assumption) ltac:(assumption) c) as (o2 & U2 & E2).
    eexists. split; [| intros; rewrite eval_SubNode;
                       apply (binop_unchanged _ sub32 _ _ c o1 o2); auto].
    destruct U1 as [-> | [a ->]], U2 as [-> | [b ->]];
      (left; reflexivity) || (right; eauto).
  - destruct (IHn1 ltac:(assumption) ltac:(assumption) c) as (o1 & U1 & E1).
    destruct (IHn2 ltac:(assumption) ltac:(assumption) c) as (o2 & U2 & E2).
    eexists. split; [| intros; rewrite eval_LessNode;
                       apply (binop_unchanged _ less32 _ _ c o1 o2); auto].
    destruct U1 as [-> | [a ->]], U2 as [-> | [b ->]];
      (left; reflexivity) || (right; eauto).
  - destruct (IHn1 ltac:(assumption) ltac:(assumption) c) as (o1 & U1 & E1).
    destruct (IHn2 ltac:(assumption) ltac:(assumption) c) as (o2 & U2 & E2).
    destruct U1 as [-> | [x ->]].
    { exists Undefined. split; [left; reflexivity |]. intros.
      rewrite eval_IfNode. apply bind_Undefined_l. apply E1. }
    destruct (truthy x) eqn:Hx.
    + destruct U2 as [-> | [y ->]].
      * exists Undefined. split; [left; reflexivity |]. intros.
        rewrite eval_IfNode. eapply bind_Undefined_r; [apply E1 |].
        rewrite Hx. apply bind_Undefined_l. apply E2.
      * exists (Done (0, c, [])). split; [right; eauto |]. intros.
        rewrite eval_IfNode.
        rewrite (IfNode_eval_enter _ _ c x c [] y c []); auto.
    + exists (Done (0, c, [])). split; [right; eauto |]. intros.
      rewrite eval_IfNode. rewrite (IfNode_eval_skip _ _ c x c []); auto.
  - exists (read_top c). split; [apply read_top_unchanged |].
    intros. rewrite eval_ArgNode. reflexivity.
  - destruct (IHn ltac:(assumption) ltac:(assumption) c) as (o1 & U1 & E1).
    destruct U1 as [-> | [x ->]].
    + exists Undefined. split; [left; reflexivity |]. intros.
      rewrite eval_LessConstNode. apply bind_Undefined_l. apply E1.
    + exists (Done (less32 x constant, c, [])). split; [right; eauto |]. intros.
      rewrite eval_LessConstNode.
      eapply bind_Done; [apply E1 | reflexivity | reflexivity].
  - destruct (IHn ltac:(assumption) ltac:(assumption) c) as (o1 & U1 & E1).
    destruct U1 as [-> | [x ->]].
    + exists Undefined. split; [left; reflexivity |]. intros.
      rewrite eval_SubConstNode. apply bind_Undefined_l. apply E1.
    + exists (Done (sub32 x constant, c, [])). split; [right; eauto |]. intros.
      rewrite eval_SubConstNode.
      eapply bind_Done; [apply E1 | reflexivity | reflexivity].
  - destruct n as [value]. exists (Done (value, c, [])).
    split; [right; eauto |]. intros. rewrite eval_OfConst. reflexivity.
  - exists (read_top c). split; [apply read_top_unchanged |].
    intros. rewrite eval_OfArg. reflexivity.
  - destruct rhs as [value]. eexists.
    split; [| intros; rewrite eval_LessArgConstNode;
              apply (binop_unchanged _ less32 _ _ c (read_top c)
                       (Done (value, c, [])));
              [reflexivity | reflexivity | apply read_top_unchanged
              | right; eauto]].
    destruct (read_top_unchanged c) as [-> | [a ->]];
      (left; reflexivity) || (right; eauto).
  - destruct rhs as [value]. eexists.
    split; [| intros; rewrite eval_SubArgConstNode;
              apply (binop_unchanged _ sub32 _ _ c (read_top c)
                       (Done (value, c, [])));
              [reflexivity | reflexivity | apply read_top_unchanged
              | right; eauto]].
    destruct (read_top_unchanged c) as [-> | [a ->]];
      (left; reflexivity) || (right; eauto).
  - destruct (IHn1 ltac:(assumption) ltac:(assumption) c) as (o1 & U1 & E1).
    destruct (IHn2 ltac:(assumption) ltac:(assumption) c) as (o2 & U2 & E2).
    destruct (IHn3 ltac:(assumption) ltac:(assumption) c) as (o3 & U3 & E3).
    destruct U1 as [-> | [x ->]].
    { exists Undefined. split; [left; reflexivity |]. intros.
      rewrite eval_IfElseNode. apply bind_Undefined_l. apply E1. }
    destruct (truthy x) eqn:Hx.
    + exists o2. split; [exact U2 |]. intros. rewrite eval_IfElseNode.
      unfold IfElseNode_eval, bind. rewrite E1, Hx, E2.
      destruct U2 as [-> | [y ->]]; reflexivity.
    + exists o3. split; [exact U3 |]. intros. rewrite eval_IfElseNode.
      unfold IfElseNode_eval, bind. rewrite E1, Hx, E3.
      destruct U3 as [-> | [y ->]]; reflexivity.
Qed.

(** X5: a tree without call and without [Return] nodes has no effect:
    when it returns, the context is as before and nothing was logged; and
    its outcome is the same whichever operand is evaluated first, whatever
    the fuel and whatever functions the driver owns. *)
Theorem pure_expression_has_no_effect n ord funs nodes fuel c :
  call_free n = true -> return_free n = true ->
  unchanged_or_undefined c (eval ord funs nodes fuel n c) /\
  forall ord' funs' nodes' fuel',
    eval ord' funs' nodes' fuel' n c = eval ord funs nodes fuel n c.
Proof.
  intros Hc Hr. destruct (pure_eval n Hc Hr c) as (o & U & E).
  rewrite E. split; [exact U |]. intros. apply E.
Qed.

Lemma pure_expression_has_no_effect_witness :
  call_free (LessNode (SubNode ArgNode (ConstNode 1)) (ConstNode 2)) = true /\
  return_free (LessNode (SubNode ArgNode (ConstNode 1)) (ConstNode 2)) = true /\
  eval RightFirst [Simplest.function] [] 7
       (LessNode (SubNode ArgNode (ConstNode 1)) (ConstNode 2))
       (enter_frame 2 new_Context)
  = eval LeftFirst [] [] 0
       (LessNode (SubNode ArgNode (ConstNode 1)) (ConstNode 2))
       (enter_frame 2 new_Context).
Proof.
  split; [reflexivity |]. split; [reflexivity |].
  exact (proj2 (pure_expression_has_no_effect
                  (LessNode (SubNode ArgNode (ConstNode 1)) (ConstNode 2))
                  LeftFirst [] [] 0 (enter_frame 2 new_Context)
                  eq_refl eq_refl)
           RightFirst [Simplest.function] [] 7%nat).
Defined.

(** X6: a tree without call nodes always returns when it is evaluated
    inside a call frame: it needs no fuel and cannot leave the stack. *)
Theorem call_free_tree_returns n :
  call_free n = true ->
  forall ord funs nodes fuel c k,
    top_is k c ->
    exists v c' l, eval ord funs nodes fuel n c = Done (v, c', l).
Proof.
  induction n; simpl; intros Hc ord funs nodes fuel c k Hk; try discriminate;
    repeat match goal with
           | H : _ && _ = true |- _ =>
               let A := fresh "Hcf" in
               let B := fresh "Hcf" in
               apply andb_true_iff in H as [A B]
           end;
    autorewrite with eval_unfold;
    rewrite ?eval_BaseNode, ?eval_LessConstNode, ?eval_SubConstNode.
  - eexists _, _, _. reflexivity.
  - eexists _, _, _. reflexivity.
  - unfold AddNode_eval. destruct ord.
    + destruct (IHn1 ltac:(assumption) LeftFirst funs nodes fuel c k Hk)
        as (a & c1 & l1 & H1).
      pose proof (top_is_effect _ _ _ _ Hk (effectful_eval _ _ _ _ _ _ _ _ _ H1)).
      destruct (IHn2 ltac:(assumption) LeftFirst funs nodes fuel c1 k)
        as (b & c2 & l2 & H2); [assumption |].
      eexists _, _, _. eapply binop_LeftFirst; eassumption.
    + destruct (IHn2 ltac:(assumption) RightFirst funs nodes fuel c k Hk)
        as (b & c1 & l1 & H1).
      pose proof (top_is_effect _ _ _ _ Hk (effectful_eval _ _ _ _ _ _ _ _ _ H1)).
      destruct (IHn1 ltac:(assumption) RightFirst funs nodes fuel c1 k)
        as (a & c2 & l2 & H2); [assumption |].
      eexists _, _, _. eapply binop_RightFirst; eassumption.
  - unfold SubNode_eval. destruct ord.
    + destruct (IHn1 ltac:(assumption) LeftFirst funs nodes fuel c k Hk)
        as (a & c1 & l1 & H1).
      pose proof (top_is_effect _ _ _ _ Hk (effectful_eval _ _ _ _ _ _ _ _ _ H1)).
      destruct (IHn2 ltac:(assumption) LeftFirst funs nodes fuel c1 k)
        as (b & c2 & l2 & H2); [assumption |].
      eexists _, _, _. eapply binop_LeftFirst; eassumption.
    + destruct (IHn2 ltac:(assumption) RightFirst funs nodes fuel c k Hk)
        as (b & c1 & l1 & H1).
      pose proof (top_is_effect _ _ _ _ Hk (effectful_eval _ _ _ _ _ _ _ _ _ H1)).
      destruct (IHn1 ltac:(assumption) RightFirst funs nodes fuel c1 k)
        as (a & c2 & l2 & H2); [assumption |].
      eexists _, _, _. eapply binop_RightFirst; eassumption.
  - unfold LessNode_eval. destruct ord.
    + destruct (IHn1 ltac:(assumption) LeftFirst funs nodes fuel c k Hk)
        as (a & c1 & l1 & H1).
      pose proof (top_is_effect _ _ _ _ Hk (effectful_eval _ _ _ _ _ _ _ _ _ H1)).
      destruct (IHn2 ltac:(assumption) LeftFirst funs nodes fuel c1 k)
        as (b & c2 & l2 & H2); [assumption |].
      eexists _, _, _. eapply binop_LeftFirst; eassumption.
    + destruct (IHn2 ltac:(assumption) RightFirst funs nodes fuel c k Hk)
        as (b & c1 & l1 & H1).
      pose proof (top_is_effect _ _ _ _ Hk (effectful_eval _ _ _ _ _ _ _ _ _ H1)).
      destruct (IHn1 ltac:(assumption) RightFirst funs nodes fuel c1 k)
        as (a & c2 & l2 & H2); [assumption |].
      eexists _, _, _. eapply binop_RightFirst; eassumption.
  - destruct (IHn1 ltac:(assumption) ord funs nodes fuel c k Hk)
      as (x & c1 & l1 & H1).
    pose proof (top_is_effect _ _ _ _ Hk (effectful_eval _ _ _ _ _ _ _ _ _ H1)).
    destruct (truthy x) eqn:Hx.
    + destruct (IHn2 ltac:(assumption) ord funs nodes fuel c1 k)
        as (y & c2 & l2 & H2); [assumption |].
      eexists _, _, _. eapply IfNode_eval_enter; eassumption.
    + eexists _, _, _. eapply IfNode_eval_skip; eassumption.
  - destruct (IHn ltac:(assumption) ord funs nodes fuel c k Hk)
      as (x & c1 & l1 & H1).
    eexists _, _, _. apply ReturnNode_eval_Done. exact H1.
  - eexists _, _, _. apply read_top_top_is. exact Hk.
  - destruct (IHn ltac:(assumption) ord funs nodes fuel c k Hk)
      as (x & c1 & l1 & H1).
    eexists _, _, _. eapply bind_Done; [exact H1 | reflexivity | reflexivity].
  - destruct (IHn ltac:(assumption) ord funs nodes fuel c k Hk)
      as (x & c1 & l1 & H1).
    eexists _, _, _. eapply bind_Done; [exact H1 | reflexivity | reflexivity].
  - destruct n. eexists _, _, _. reflexivity.
  - eexists _, _, _. apply read_top_top_is. exact Hk.
  - destruct rhs. eexists _, _, _.
    apply binop_pure; [apply read_top_top_is; exact Hk | reflexivity].
  - destruct rhs. eexists _, _, _.
    apply binop_pure; [apply read_top_top_is; exact Hk | reflexivity].
  - destruct (IHn1 ltac:(assumption) ord funs nodes fuel c k Hk)
      as (x & c1 & l1 & H1).
    pose proof (top_is_effect _ _ _ _ Hk (effectful_eval _ _ _ _ _ _ _ _ _ H1)).
    destruct (truthy x) eqn:Hx.
    + destruct (IHn2 ltac:(assumption) ord funs nodes fuel c1 k)
        as (y & c2 & l2 & H2); [assumption |].
      eexists _, _, _. eapply IfElseNode_eval_then; eassumption.
    + destruct (IHn3 ltac:(assumption) ord funs nodes fuel c1 k)
        as (y & c2 & l2 & H2); [assumption |].
      eexists _, _, _. eapply IfElseNode_eval_else; eassumption.
Qed.

Lemma call_free_tree_returns_witness :
  call_free (IfNode (LessNode ArgNode (ConstNode 2)) (ReturnNode ArgNode))
  = true /\
  top_is 1 (enter_frame 1 new_Context) /\
  exists v c' l,
    eval LeftFirst [] [] 0
      (IfNode (LessNode ArgNode (ConstNode 2)) (ReturnNode ArgNode))
      (enter_frame 1 new_Context) = Done (v, c', l).
Proof.
  assert (Hk : top_is 1 (enter_frame 1 new_Context)).
  { split; [unfold STACK_SIZE; simpl; lia | reflexivity]. }
  split; [reflexivity |]. split; [exact Hk |].
  exact (call_free_tree_returns
           (IfNode (LessNode ArgNode (ConstNode 2)) (ReturnNode ArgNode))
           eq_refl LeftFirst [] [] 0%nat (enter_frame 1 new_Context) 1 Hk).
Defined.

(** ** Programs without [Return] *)

Lemma silent_ret {A} (a : A) : silent (ret a).
Proof. intros c a' c' l [= <- <- <-]. reflexivity. Qed.

Lemma silent_bind {A B} (m : M A) (k : A -> M B) :
  silent m -> (forall a, silent (k a)) -> silent (bind m k).
Proof.
  intros Hm Hk c b c2 l H.
  apply bind_Done_inv in H as (a & c1 & l1 & l2 & H1 & H2 & ->).
  rewrite fired_app, (Hm _ _ _ _ H1), (Hk _ _ _ _ _ H2). reflexivity.
Qed.

Lemma silent_in_call (m : M Z) : silent m -> silent (in_call m).
Proof.
  intros Hm c v c' l H. apply in_call_Done_inv in H as (lb & H & ->).
  rewrite fired_Called. eapply Hm. exact H.
Qed.

Lemma silent_read_top : silent read_top.
Proof.
  intros c a c' l. unfold read_top.
  destruct (in_bounds _); try discriminate.
  destruct (stack c !! _); try discriminate.
  intros [= <- <- <-]. reflexivity.
Qed.

Lemma silent_store_top a : silent (store_top a).
Proof.
  intros c x c' l. unfold store_top.
  destruct (in_bounds _); try discriminate. intros [= <- <- <-]. reflexivity.
Qed.

Lemma silent_step {A} (m : M A) :
  (forall c, exists a c', m c = Done (a, c', [])) -> silent m.
Proof.
  intros H c a c' l Hm. destruct (H c) as (a0 & c0 & E).
  rewrite E in Hm. injection Hm as <- <- <-. reflexivity.
Qed.

Lemma silent_binop ord op (lhs rhs : M Z) :
  silent lhs -> silent rhs -> silent (binop ord op lhs rhs).
Proof.
  intros Hl Hr. unfold binop. destruct ord;
    repeat (apply silent_bind; [assumption | intros ?]); apply silent_ret.
Qed.

Lemma silent_CallNode_eval (statements : M unit) (arg : M Z) :
  silent statements -> silent arg -> silent (CallNode_eval statements arg).
Proof.
  intros Hs Ha. unfold CallNode_eval.
  apply silent_bind; [assumption | intros a]. apply silent_in_call.
  apply silent_bind; [apply silent_store_top | intros _].
  apply silent_bind; [apply silent_step; intros; eexists _, _; reflexivity
                     | intros _].
  apply silent_bind; [assumption | intros _].
  repeat (apply silent_bind;
          [apply silent_step; intros; eexists _, _; reflexivity | intros _]).
  apply silent_step; intros; eexists _, _; reflexivity.
Qed.

Lemma silent_CallAnyNode_eval (function arg : M Z) :
  silent function -> silent arg -> silent (CallAnyNode_eval function arg).
Proof.
  intros Hs Ha. unfold CallAnyNode_eval.
  apply silent_bind; [assumption | intros a]. apply silent_in_call.
  apply silent_bind; [apply silent_store_top | intros _].
  apply silent_bind; [apply silent_step; intros; eexists _, _; reflexivity
                     | intros _].
  apply silent_bind; [assumption | intros x].
  repeat (apply silent_bind;
          [apply silent_step; intros; eexists _, _; reflexivity | intros _]).
  apply silent_ret.
Qed.

Lemma silent_run_body (ev : Node -> M Z) body :
  Forall (fun s => silent (ev s)) body -> silent (run_body ev body).
Proof.
  induction 1 as [| statement rest Hs _ IH]; simpl.
  - apply silent_ret.
  - apply silent_bind; [exact Hs | intros _].
    apply silent_bind; [apply silent_step; intros; eexists _, _; reflexivity
                       | intros stop].
    destruct stop; [apply silent_ret | exact IH].
Qed.

Lemma silent_eval_with ord (ef : nat -> M unit) (en : nat -> M Z) :
  (forall f, silent (ef f)) -> (forall r, silent (en r)) ->
  forall n, return_free n = true -> silent (eval_with ord ef en n).
Proof.
  intros Hf Hn. induction n; simpl; intros Hr; try discriminate;
    repeat match goal with
           | H : _ && _ = true |- _ =>
               let A := fresh "Hrf" in
               let B := fresh "Hrf" in
               apply andb_true_iff in H as [A B]
           end.
  - apply silent_ret.
  - apply silent_ret.
  - apply silent_binop; auto.
  - apply silent_binop; auto.
  - apply silent_binop; auto.
  - unfold IfNode_eval. apply silent_bind; [auto | intros x].
    destruct (truthy x); [| apply silent_ret].
    apply silent_bind; [auto | intros _; apply silent_ret].
  - apply silent_CallNode_eval; auto.
  - apply silent_read_top.
  - apply silent_bind; [auto | intros ?; apply silent_ret].
  - apply silent_bind; [auto | intros ?; apply silent_ret].
  - destruct n. apply silent_ret.
  - apply silent_read_top.
  - destruct rhs. apply silent_binop; [apply silent_read_top | apply silent_ret].
  - destruct rhs. apply silent_binop; [apply silent_read_top | apply silent_ret].
  - apply silent_CallNode_eval; auto.
  - apply silent_CallAnyNode_eval; auto.
  - unfold IfElseNode_eval. apply silent_bind; [auto | intros x].
    destruct (truthy x); auto.
Qed.

Lemma silent_eval ord funs nodes fuel :
  return_free_program funs nodes ->
  forall n, return_free n = true -> silent (eval ord funs nodes fuel n).
Proof.
  intros [Hfuns Hnodes]. induction fuel as [| fuel IH]; intros n Hn; simpl.
  - apply silent_eval_with; [| | exact Hn]; intros; intros ? ? ? ?; discriminate.
  - apply silent_eval_with; [| | exact Hn].
    + intros f c a c' l. unfold run_function.
      destruct (funs !! f) as [body |] eqn:Hf; [| discriminate].
      apply silent_run_body.
      rewrite Forall_lookup in Hfuns. specialize (Hfuns _ _ Hf).
      eapply Forall_impl; [exact Hfuns |]. intros s Hs. apply IH. exact Hs.
    + intros r c a c' l. unfold run_node.
      destruct (nodes !! r) as [callee |] eqn:Hr; [| discriminate].
      apply IH. rewrite Forall_lookup in Hnodes. exact (Hnodes _ _ Hr).
Qed.

Lemma signal_after_silent l b :
  fired l = [] -> signal_after l b = b \/ signal_after l b = false.
Proof.
  destruct l as [| e l'] using rev_ind; [auto |]. intros H.
  rewrite fired_app in H. apply app_eq_nil in H as [_ H].
  unfold signal_after. rewrite last_snoc.
  destruct e as [x | inner x]; [discriminate | auto].
Qed.

(** X7: in a program that holds no [ReturnNode], as the one of stage 4,
    the return machinery is idle: no [Return] fires, [returnValue] keeps
    its value and the signal is never raised, so that the
    [stopForReturn = false] of [CallAnyNode] changes nothing. *)
Theorem return_free_program_never_signals ord funs nodes fuel n c v c' l :
  return_free_program funs nodes -> return_free n = true ->
  eval ord funs nodes fuel n c = Done (v, c', l) ->
  fired l = [] /\
  returnValue c' = returnValue c /\
  (stopForReturn c = false -> stopForReturn c' = false).
Proof.
  intros Hp Hn H.
  pose proof (silent_eval ord funs nodes fuel Hp n Hn _ _ _ _ H) as Hl.
  pose proof (effectful_eval _ _ _ _ _ _ _ _ _ H) as [_ _ _ R S].
  split; [exact Hl |]. split.
  - rewrite R. apply last_fired_nil. exact Hl.
  - intros Hs. rewrite S, Hs.
    destruct (signal_after_silent l false Hl) as [E | E]; exact E.
Qed.

Lemma return_free_program_never_signals_witness :
  exists c' l,
    return_free_program [] [SimplifyCalls.function] /\
    return_free (CallAnyNode 0%nat (OfConst (BF_ConstNode 5))) = true /\
    eval LeftFirst [] [SimplifyCalls.function] 5
         (CallAnyNode 0%nat (OfConst (BF_ConstNode 5))) new_Context
    = Done (5, c', l) /\
    returnValue c' = 0.
Proof.
  assert (Hp : return_free_program [] [SimplifyCalls.function]).
  { split; [constructor |]. repeat constructor. }
  eexists _, _. split; [exact Hp |]. split; [reflexivity |].
  split; [vm_compute; reflexivity |].
  refine (proj1 (proj2 (return_free_program_never_signals LeftFirst []
            [SimplifyCalls.function] 5
            (CallAnyNode 0%nat (OfConst (BF_ConstNode 5))) new_Context 5 _ _
            Hp eq_refl _))).
  vm_compute. reflexivity.
Defined.

(** ** Depth of calls *)

Lemma log_depth_app l1 l2 :
  log_depth (l1 ++ l2) = Nat.max (log_depth l1) (log_depth l2).
Proof.
  unfold log_depth. induction l1 as [| e l1 IH]; simpl; [reflexivity |].
  rewrite IH. apply Nat.max_assoc.
Qed.

Lemma log_depth_Called lb v : log_depth [Called lb v] = S (log_depth lb).
Proof. unfold log_depth. simpl. reflexivity. Qed.

Lemma within_capacity_ret {A} (a : A) : within_capacity (ret a).
Proof. intros c a' c' l [= <- <- <-]. split; [reflexivity | simpl; lia]. Qed.

Lemma within_capacity_bind {A B} (m : M A) (k : A -> M B) :
  within_capacity m -> (forall a, within_capacity (k a)) ->
  within_capacity (bind m k).
Proof.
  intros Hm Hk c b c2 l H.
  apply bind_Done_inv in H as (a & c1 & l1 & l2 & H1 & H2 & ->).
  destruct (Hm _ _ _ _ H1) as [T1 D1]. destruct (Hk _ _ _ _ _ H2) as [T2 D2].
  split; [congruence |]. rewrite log_depth_app. rewrite T1 in D2. lia.
Qed.

Lemma within_capacity_read_top : within_capacity read_top.
Proof.
  intros c a c' l. unfold read_top.
  destruct (in_bounds _); try discriminate.
  destruct (stack c !! _); try discriminate.
  intros [= <- <- <-]. split; [reflexivity | simpl; lia].
Qed.

Lemma within_capacity_never {A} (m : M A) :
  (forall c a c' l, m c <> Done (a, c', l)) -> within_capacity m.
Proof. intros H c a c' l Hm. destruct (H _ _ _ _ Hm). Qed.

Lemma within_capacity_binop ord op (lhs rhs : M Z) :
  within_capacity lhs -> within_capacity rhs ->
  within_capacity (binop ord op lhs rhs).
Proof.
  intros Hl Hr. unfold binop. destruct ord;
    repeat (apply within_capacity_bind; [assumption | intros ?]);
    apply within_capacity_ret.
Qed.

Lemma within_capacity_ReturnNode_eval (rhs : M Z) :
  within_capacity rhs -> within_capacity (ReturnNode_eval rhs).
Proof.
  intros Hr c a c' l H. unfold ReturnNode_eval in H. inv_bind H.
  destruct (Hr _ _ _ _ Hm) as [T D].
  revert H. unfold bind, set_returnValue, set_stopForReturn, mark, ret.
  intros [= <- <- <-]. simpl. split; [exact T |].
  rewrite log_depth_app. simpl. lia.
Qed.

Lemma within_capacity_frame a c1 c2 lb :
  0 <= stackTop c1 < STACK_SIZE ->
  stackTop c2 = stackTop (enter_frame a c1) /\
  ((0 < log_depth lb)%nat ->
   Z.of_nat (log_depth lb) + stackTop (enter_frame a c1) <= STACK_SIZE) ->
  forall v,
    stackTop (leave_frame c2) = stackTop c1 /\
    ((0 < log_depth [Called lb v])%nat ->
     Z.of_nat (log_depth [Called lb v]) + stackTop c1 <= STACK_SIZE).
Proof.
  intros Hb [T D] v. split.
  - simpl in *. rewrite T.
    replace (stackTop c1 + 1 - 1) with (stackTop c1) by lia.
    apply wrap32_small. unfold STACK_SIZE in Hb. lia.
  - rewrite log_depth_Called. intros _.
    change (stackTop (enter_frame a c1)) with (stackTop c1 + 1) in D.
    destruct (log_depth lb) as [| d] eqn:E; [lia |].
    specialize (D ltac:(lia)). lia.
Qed.

Lemma within_capacity_CallNode_eval (statements : M unit) (arg : M Z) :
  within_capacity statements -> within_capacity arg ->
  within_capacity (CallNode_eval statements arg).
Proof.
  intros Hs Ha c v c' l H.
  apply CallNode_eval_inv in H
    as (a & c1 & la & c2 & lb & H1 & Hb & H2 & -> & -> & ->).
  destruct (Ha _ _ _ _ H1) as [T1 D1].
  destruct (within_capacity_frame a c1 c2 lb Hb (Hs _ _ _ _ H2)
              (returnValue c2)) as [T2 D2].
  split; [congruence |]. rewrite log_depth_app. rewrite T1 in D2. lia.
Qed.

Lemma within_capacity_CallAnyNode_eval (function arg : M Z) :
  within_capacity function -> within_capacity arg ->
  within_capacity (CallAnyNode_eval function arg).
Proof.
  intros Hs Ha c v c' l H.
  apply CallAnyNode_eval_inv in H
    as (a & c1 & la & c2 & lb & H1 & Hb & H2 & -> & ->).
  destruct (Ha _ _ _ _ H1) as [T1 D1].
  destruct (within_capacity_frame a c1 c2 lb Hb (Hs _ _ _ _ H2)
              (returnValue c2)) as [T2 D2].
  split; [congruence |]. rewrite log_depth_app. rewrite T1 in D2. lia.
Qed.

Lemma within_capacity_run_body (ev : Node -> M Z) body :
  (forall n, within_capacity (ev n)) -> within_capacity (run_body ev body).
Proof.
  intros Hev. induction body as [| statement rest IH]; simpl.
  - apply within_capacity_ret.
  - apply within_capacity_bind; [apply Hev | intros _].
    apply within_capacity_bind;
      [intros c a c' l [= <- <- <-]; split; [reflexivity | simpl; lia]
      | intros stop].
    destruct stop; [apply within_capacity_ret | exact IH].
Qed.

Lemma within_capacity_eval_with ord (ef : nat -> M unit) (en : nat -> M Z) :
  (forall f, within_capacity (ef f)) -> (forall r, within_capacity (en r)) ->
  forall n, within_capacity (eval_with ord ef en n).
Proof.
  intros Hf Hn. induction n; simpl.
  - apply within_capacity_ret.
  - apply within_capacity_ret.
  - apply within_capacity_binop; assumption.
  - apply within_capacity_binop; assumption.
  - apply within_capacity_binop; assumption.
  - unfold IfNode_eval. apply within_capacity_bind; [assumption | intros x].
    destruct (truthy x); [| apply within_capacity_ret].
    apply within_capacity_bind; [assumption | intros _; apply within_capacity_ret].
  - apply within_capacity_CallNode_eval; auto.
  - apply within_capacity_ReturnNode_eval; assumption.
  - apply within_capacity_read_top.
  - apply within_capacity_bind; [assumption | intros ?; apply within_capacity_ret].
  - apply within_capacity_bind; [assumption | intros ?; apply within_capacity_ret].
  - destruct n. apply within_capacity_ret.
  - apply within_capacity_read_top.
  - destruct rhs. apply within_capacity_binop;
      [apply within_capacity_read_top | apply within_capacity_ret].
  - destruct rhs. apply within_capacity_binop;
      [apply within_capacity_read_top | apply within_capacity_ret].
  - apply within_capacity_CallNode_eval; auto.
  - apply within_capacity_CallAnyNode_eval; auto.
  - unfold IfElseNode_eval. apply within_capacity_bind; [assumption | intros x].
    destruct (truthy x); assumption.
Qed.

Lemma within_capacity_eval ord funs nodes fuel :
  forall n, within_capacity (eval ord funs nodes fuel n).
Proof.
  induction fuel as [| fuel IH]; intros n; simpl.
  - apply within_capacity_eval_with; intros;
      apply within_capacity_never; discriminate.
  - apply within_capacity_eval_with.
    + intros f c a c' l. unfold run_function.
      destruct (funs !! f); [| discriminate].
      apply within_capacity_run_body. exact IH.
    + intros r c a c' l. unfold run_node.
      destruct (nodes !! r); [| discriminate]. apply IH.
Qed.

(** X8: an evaluation that returns has never nested its calls deeper than
    the slots that were free when it started: from a fresh context at most
    4096 calls are ever active at once. *)
Theorem call_depth_within_capacity ord funs nodes fuel n c v c' l :
  eval ord funs nodes fuel n c = Done (v, c', l) ->
  stackTop c <= STACK_SIZE ->
  Z.of_nat (log_depth l) + stackTop c <= STACK_SIZE /\
  (c = new_Context -> Z.of_nat (log_depth l) <= 4096).
Proof.
  intros H Hs.
  destruct (within_capacity_eval ord funs nodes fuel n _ _ _ _ H) as [_ D].
  assert (Hd : Z.of_nat (log_depth l) + stackTop c <= STACK_SIZE).
  { destruct (log_depth l) as [| d]; [simpl; lia | apply D; lia]. }
  split; [exact Hd |]. intros ->. simpl in Hd. unfold STACK_SIZE in Hd. lia.
Qed.

Lemma call_depth_within_capacity_witness :
  exists c' l,
    eval LeftFirst [Simplest.function] [] 6 (CallNode 0%nat (ConstNode 6))
         new_Context = Done (8, c', l) /\
    stackTop new_Context <= STACK_SIZE /\
    log_depth l = 6%nat /\
    Z.of_nat (log_depth l) + stackTop new_Context <= STACK_SIZE.
Proof.
  eexists _, _. split; [vm_compute; reflexivity |].
  split; [unfold STACK_SIZE; simpl; lia |].
  split; [vm_compute; reflexivity |].
  refine (proj1 (call_depth_within_capacity LeftFirst [Simplest.function] [] 6
                   (CallNode 0%nat (ConstNode 6)) new_Context 8 _ _ _ _)).
  - vm_compute. reflexivity.
  - unfold STACK_SIZE; simpl; lia.
Defined.

(** ** The statement loop *)

Lemma get_stopForReturn_bind {A} (k : bool -> M A) c :
  (stop <- get_stopForReturn ;; k stop) c = k (stopForReturn c) c.
Proof.
  unfold bind, get_stopForReturn.
  destruct (k (stopForReturn c) c) as [[[x c2] l2]| |]; reflexivity.
Qed.

(** X9: running the statements [b1 ++ b2] is running [b1] and then, unless
    [b1] ended with the return signal raised, running [b2] from the context
    [b1] left; a failure of [b1] is the failure of the whole.  So the
    statements after a [Return] that fired are never run. *)
Theorem statements_compose ord funs nodes fuel b1 b2 c :
  run_body (eval ord funs nodes fuel) (b1 ++ b2) c
  = then_run (eval ord funs nodes fuel) b1 b2
      (run_body (eval ord funs nodes fuel) b1 c).
Proof.
  set (ev := eval ord funs nodes fuel). revert c.
  induction b1 as [| s rest IH]; intros c.
  - simpl. destruct (run_body ev b2 c) as [[[x c2] l2]| |];
      rewrite ?andb_false_r; reflexivity.
  - change ((s :: rest) ++ b2) with (s :: (rest ++ b2)).
    simpl run_body. unfold bind.
    destruct (ev s c) as [[[v c1] l1]| |]; try reflexivity.
    fold (bind get_stopForReturn
            (fun stop => if stop then ret tt else run_body ev (rest ++ b2)) c1).
    fold (bind get_stopForReturn
            (fun stop => if stop then ret tt else run_body ev rest) c1).
    rewrite !get_stopForReturn_bind.
    destruct (stopForReturn c1) eqn:Hs.
    + simpl. rewrite Hs. reflexivity.
    + rewrite IH.
      destruct (run_body ev rest c1) as [[[x c2] l2]| |] eqn:Hrest; simpl;
        try reflexivity.
      rewrite !andb_true_r. destruct (stopForReturn c2) eqn:Hs2; simpl.
      * destruct (bool_decide (rest = [])) eqn:Hr; simpl; [| reflexivity].
        apply bool_decide_eq_true in Hr. subst rest.
        simpl in Hrest. injection Hrest as <- <-. congruence.
      * destruct (run_body ev b2 c2) as [[[y c3] l3]| |]; try reflexivity.
        rewrite app_assoc. reflexivity.
Qed.

Lemma keeps_signal_ret {A} (a : A) : keeps_signal (ret a).
Proof. intros c a' c' l [= <- <- <-] H. exact H. Qed.

Lemma keeps_signal_bind {A B} (m : M A) (k : A -> M B) :
  keeps_signal m -> (forall a, keeps_signal (k a)) -> keeps_signal (bind m k).
Proof.
  intros Hm Hk c b c2 l H Hs.
  apply bind_Done_inv in H as (a & c1 & l1 & l2 & H1 & H2 & ->).
  eapply Hk; [exact H2 |]. eapply Hm; eassumption.
Qed.

Lemma keeps_signal_read_top : keeps_signal read_top.
Proof.
  intros c a c' l. unfold read_top.
  destruct (in_bounds _); try discriminate.
  destruct (stack c !! _); try discriminate.
  intros [= <- <- <-] H. exact H.
Qed.

Lemma keeps_signal_binop ord op (lhs rhs : M Z) :
  keeps_signal lhs -> keeps_signal rhs -> keeps_signal (binop ord op lhs rhs).
Proof.
  intros Hl Hr. unfold binop. destruct ord;
    repeat (apply keeps_signal_bind; [assumption | intros ?]);
    apply keeps_signal_ret.
Qed.

Lemma keeps_signal_call_free ord funs nodes fuel n :
  call_free n = true -> keeps_signal (eval ord funs nodes fuel n).
Proof.
  induction n; simpl; intros Hc; try discriminate;
    repeat match goal with
           | H : _ && _ = true |- _ =>
               let A := fresh "Hcf" in
               let B := fresh "Hcf" in
               apply andb_true_iff in H as [A B]
           end;
    autorewrite with eval_unfold;
    rewrite ?eval_BaseNode, ?eval_LessConstNode, ?eval_SubConstNode.
  - apply keeps_signal_ret.
  - apply keeps_signal_ret.
  - apply keeps_signal_binop; auto.
  - apply keeps_signal_binop; auto.
  - apply keeps_signal_binop; auto.
  - unfold IfNode_eval. apply keeps_signal_bind; [auto | intros x].
    destruct (truthy x); [| apply keeps_signal_ret].
    apply keeps_signal_bind; [auto | intros _; apply keeps_signal_ret].
  - intros c a c' l H _. unfold ReturnNode_eval in H. inv_bind H.
    revert H. unfold bind, set_returnValue, set_stopForReturn, mark, ret.
    intros [= <- <- <-]. reflexivity.
  - apply keeps_signal_read_top.
  - apply keeps_signal_bind; [auto | intros ?; apply keeps_signal_ret].
  - apply keeps_signal_bind; [auto | intros ?; apply keeps_signal_ret].
  - destruct n. apply keeps_signal_ret.
  - apply keeps_signal_read_top.
  - destruct rhs. apply keeps_signal_binop;
      [apply keeps_signal_read_top | apply keeps_signal_ret].
  - destruct rhs. apply keeps_signal_binop;
      [apply keeps_signal_read_top | apply keeps_signal_ret].
  - unfold IfElseNode_eval. apply keeps_signal_bind; [auto | intros x].
    destruct (truthy x); auto.
Qed.

(** X10: the loop of the call protocol tests the signal after a statement,
    never before the first: a body entered with the signal already raised
    (as after a [Return] in the argument of the call) runs its first
    statement and, when that statement makes no call, none of the others. *)
Theorem raised_signal_cuts_body ord funs nodes fuel s rest c v c1 l1 :
  stopForReturn c = true -> call_free s = true ->
  eval ord funs nodes fuel s c = Done (v, c1, l1) ->
  run_body (eval ord funs nodes fuel) (s :: rest) c = Done (tt, c1, l1).
Proof.
  intros Hs Hc H. eapply run_body_stops; [exact H |].
  eapply keeps_signal_call_free; eassumption.
Qed.

Lemma raised_signal_cuts_body_witness :
  exists c c1,
    eval LeftFirst SignalAtEntry.funs [] 1 (ReturnNode (ConstNode 5))
         new_Context = Done (0, c, [Fired 5]) /\
    stopForReturn (enter_frame 0 c) = true /\
    call_free (ConstNode 1) = true /\
    eval LeftFirst SignalAtEntry.funs [] 0 (ConstNode 1) (enter_frame 0 c)
    = Done (1, c1, []) /\
    run_body (eval LeftFirst SignalAtEntry.funs [] 0) SignalAtEntry.callee
             (enter_frame 0 c) = Done (tt, c1, []).
Proof.
  eexists _, _. split; [reflexivity |]. split; [reflexivity |].
  split; [reflexivity |]. split; [reflexivity |].
  apply (raised_signal_cuts_body LeftFirst SignalAtEntry.funs [] 0
           (ConstNode 1) [ReturnNode (ConstNode 9)] _ 1 _ []);
    reflexivity.
Defined.

(** The callee of [SignalAtEntry] never reaches its [Return]: the call
    yields the 5 of the argument's [Return], not 9. *)
Example return_in_argument :
  result_of (eval LeftFirst SignalAtEntry.funs [] 1 SignalAtEntry.call
               new_Context) = Done 5 /\
  result_of (eval LeftFirst SignalAtEntry.funs [] 1
               (CallNode 0%nat (ConstNode 0)) new_Context) = Done 9.
Proof. split; vm_compute; reflexivity. Qed.

(** ** Values stay in the range of [uint32_t] *)

Lemma u32b_spec z : u32b z = true <-> is_u32 z.
Proof.
  unfold u32b, is_u32. rewrite andb_true_iff, Z.leb_le, Z.ltb_lt. tauto.
Qed.

Lemma less32_u32 a b : is_u32 (less32 a b).
Proof. unfold less32, is_u32. destruct (a <? b); lia. Qed.

Lemma in_range_ret {A} (good : A -> Prop) (a : A) :
  good a -> in_range good (ret a).
Proof. intros Ha c a' c' l Hc [= <- <- <-]. auto. Qed.

Lemma in_range_bind {A B} (gA : A -> Prop) (gB : B -> Prop)
    (m : M A) (k : A -> M B) :
  in_range gA m -> (forall a, gA a -> in_range gB (k a)) ->
  in_range gB (bind m k).
Proof.
  intros Hm Hk c b c2 l Hc H.
  apply bind_Done_inv in H as (a & c1 & l1 & l2 & H1 & H2 & ->).
  destruct (Hm _ _ _ _ Hc H1) as [Hc1 Ha]. exact (Hk a Ha _ _ _ _ Hc1 H2).
Qed.

Lemma in_range_weaken {A} (g g' : A -> Prop) (m : M A) :
  (forall a, g a -> g' a) -> in_range g m -> in_range g' m.
Proof. intros Hg Hm c a c' l Hc H. destruct (Hm _ _ _ _ Hc H). auto. Qed.

Lemma in_range_never {A} (good : A -> Prop) (m : M A) :
  (forall c a c' l, m c <> Done (a, c', l)) -> in_range good m.
Proof. intros H c a c' l _ Hm. destruct (H _ _ _ _ Hm). Qed.

Lemma in_range_read_top : in_range is_u32 read_top.
Proof.
  intros c a c' l (Hr & Ht & Hs). unfold read_top.
  destruct (in_bounds _); try discriminate.
  destruct (stack c !! _) as [x |] eqn:Hx; try discriminate.
  intros [= <- <- <-]. split; [exact (conj Hr (conj Ht Hs)) |].
  exact (Hs _ _ Hx).
Qed.

Lemma in_range_store_top a : is_u32 a -> in_range (fun _ => True) (store_top a).
Proof.
  intros Ha c x c' l (Hr & Ht & Hs). unfold store_top.
  destruct (in_bounds _); try discriminate.
  intros [= <- <- <-]. split; [| exact I].
  split; [exact Hr |]. split; [exact Ht |]. simpl.
  apply map_Forall_insert_2; assumption.
Qed.

Lemma in_range_incr_top : in_range (fun _ => True) incr_top.
Proof.
  intros c x c' l (Hr & Ht & Hs) [= <- <- <-]. split; [| exact I].
  split; [exact Hr |]. split; [apply wrap32_u32 | exact Hs].
Qed.

Lemma in_range_decr_top : in_range (fun _ => True) decr_top.
Proof.
  intros c x c' l (Hr & Ht & Hs) [= <- <- <-]. split; [| exact I].
  split; [exact Hr |]. split; [apply wrap32_u32 | exact Hs].
Qed.

Lemma in_range_set_stopForReturn b :
  in_range (fun _ => True) (set_stopForReturn b).
Proof. intros c x c' l Hc [= <- <- <-]. split; [exact Hc | exact I]. Qed.

Lemma in_range_set_returnValue v :
  is_u32 v -> in_range (fun _ => True) (set_returnValue v).
Proof.
  intros Hv c x c' l (Hr & Ht & Hs) [= <- <- <-]. split; [| exact I].
  split; [exact Hv |]. split; assumption.
Qed.

Lemma in_range_get_returnValue : in_range is_u32 get_returnValue.
Proof. intros c x c' l Hc [= <- <- <-]. split; [exact Hc | apply Hc]. Qed.

Lemma in_range_binop ord op (lhs rhs : M Z) :
  (forall a b, is_u32 (op a b)) ->
  in_range is_u32 lhs -> in_range is_u32 rhs ->
  in_range is_u32 (binop ord op lhs rhs).
Proof.
  intros Hop Hl Hr. unfold binop. destruct ord;
    (eapply in_range_bind; [eassumption | intros ? _]);
    (eapply in_range_bind; [eassumption | intros ? _]);
    apply in_range_ret; apply Hop.
Qed.

Lemma in_range_mark e : in_range (fun _ => True) (mark e).
Proof. intros c x c' l Hc [= <- <- <-]. split; [exact Hc | exact I]. Qed.

Lemma in_range_get_stopForReturn : in_range (fun _ => True) get_stopForReturn.
Proof. intros c x c' l Hc [= <- <- <-]. split; [exact Hc | exact I]. Qed.

Lemma in_range_ReturnNode_eval (rhs : M Z) :
  in_range is_u32 rhs -> in_range is_u32 (ReturnNode_eval rhs).
Proof.
  intros Hr. unfold ReturnNode_eval.
  eapply in_range_bind; [exact Hr | intros v Hv].
  eapply in_range_bind; [apply in_range_set_returnValue; exact Hv | intros _ _].
  eapply in_range_bind; [apply in_range_set_stopForReturn | intros _ _].
  eapply in_range_bind; [apply in_range_mark | intros _ _].
  apply in_range_ret. unfold is_u32. lia.
Qed.

Lemma in_range_in_call (m : M Z) : in_range is_u32 m -> in_range is_u32 (in_call m).
Proof.
  intros Hm c v c' l Hc H. apply in_call_Done_inv in H as (lb & H & ->).
  exact (Hm _ _ _ _ Hc H).
Qed.

Lemma in_range_CallNode_eval (statements : M unit) (arg : M Z) :
  in_range (fun _ => True) statements -> in_range is_u32 arg ->
  in_range is_u32 (CallNode_eval statements arg).
Proof.
  intros Hs Ha. unfold CallNode_eval.
  eapply in_range_bind; [exact Ha | intros a Hu]. apply in_range_in_call.
  eapply in_range_bind; [apply in_range_store_top; exact Hu | intros _ _].
  eapply in_range_bind; [apply in_range_incr_top | intros _ _].
  eapply in_range_bind; [exact Hs | intros _ _].
  eapply in_range_bind; [apply in_range_set_stopForReturn | intros _ _].
  eapply in_range_bind; [apply in_range_decr_top | intros _ _].
  apply in_range_get_returnValue.
Qed.

Lemma in_range_CallAnyNode_eval (function arg : M Z) :
  in_range is_u32 function -> in_range is_u32 arg ->
  in_range is_u32 (CallAnyNode_eval function arg).
Proof.
  intros Hs Ha. unfold CallAnyNode_eval.
  eapply in_range_bind; [exact Ha | intros a Hu]. apply in_range_in_call.
  eapply in_range_bind; [apply in_range_store_top; exact Hu | intros _ _].
  eapply in_range_bind; [apply in_range_incr_top | intros _ _].
  eapply in_range_bind; [exact Hs | intros result Hres].
  eapply in_range_bind; [apply in_range_set_stopForReturn | intros _ _].
  eapply in_range_bind; [apply in_range_decr_top | intros _ _].
  apply in_range_ret. exact Hres.
Qed.

Lemma in_range_run_body (ev : Node -> M Z) body :
  Forall (fun s => in_range is_u32 (ev s)) body ->
  in_range (fun _ => True) (run_body ev body).
Proof.
  induction 1 as [| statement rest Hs _ IH]; simpl.
  - apply in_range_ret. exact I.
  - eapply in_range_bind; [exact Hs | intros _ _].
    eapply in_range_bind; [apply in_range_get_stopForReturn | intros stop _].
    destruct stop; [apply in_range_ret; exact I | exact IH].
Qed.

Lemma in_range_eval_with ord (ef : nat -> M unit) (en : nat -> M Z) :
  (forall f, in_range (fun _ => True) (ef f)) ->
  (forall r, in_range is_u32 (en r)) ->
  forall n, u32_constants n = true -> in_range is_u32 (eval_with ord ef en n).
Proof.
  intros Hf Hn.
  assert (Hadd : forall a b, is_u32 (add32 a b)) by (intros; apply wrap32_u32).
  assert (Hsub : forall a b, is_u32 (sub32 a b)) by (intros; apply wrap32_u32).
  induction n; simpl; intros Hw;
    repeat match goal with
           | H : _ && _ = true |- _ =>
               let A := fresh "Hw" in
               let B := fresh "Hw" in
               apply andb_true_iff in H as [A B]
           end.
  - apply in_range_ret. unfold is_u32. lia.
  - apply in_range_ret. apply u32b_spec. exact Hw.
  - apply in_range_binop; auto.
  - apply in_range_binop; auto.
  - apply in_range_binop; auto using less32_u32.
  - unfold IfNode_eval. eapply in_range_bind; [auto | intros x _].
    destruct (truthy x); [| apply in_range_ret; unfold is_u32; lia].
    eapply in_range_bind; [auto | intros _ _].
    apply in_range_ret; unfold is_u32; lia.
  - apply in_range_CallNode_eval; auto.
  - apply in_range_ReturnNode_eval; auto.
  - apply in_range_read_top.
  - eapply in_range_bind; [auto | intros ? _].
    apply in_range_ret. apply less32_u32.
  - eapply in_range_bind; [auto | intros ? _].
    apply in_range_ret. apply Hsub.
  - destruct n as [value]. apply in_range_ret. apply u32b_spec. exact Hw.
  - apply in_range_read_top.
  - destruct rhs as [value]. apply in_range_binop; auto using less32_u32.
    + apply in_range_read_top.
    + apply in_range_ret. apply u32b_spec. exact Hw.
  - destruct rhs as [value]. apply in_range_binop; auto.
    + apply in_range_read_top.
    + apply in_range_ret. apply u32b_spec. exact Hw.
  - apply in_range_CallNode_eval; auto.
  - apply in_range_CallAnyNode_eval; auto.
  - unfold IfElseNode_eval. eapply in_range_bind; [auto | intros x _].
    destruct (truthy x); auto.
Qed.

Lemma in_range_eval ord funs nodes fuel :
  u32_program funs nodes ->
  forall n, u32_constants n = true -> in_range is_u32 (eval ord funs nodes fuel n).
Proof.
  intros [Hfuns Hnodes]. induction fuel as [| fuel IH]; intros n Hn; simpl.
  - apply in_range_eval_with; [| | exact Hn]; intros;
      apply in_range_never; discriminate.
  - apply in_range_eval_with; [| | exact Hn].
    + intros f c a c' l. unfold run_function.
      destruct (funs !! f) as [body |] eqn:Hf; [| discriminate].
      apply in_range_run_body.
      rewrite Forall_lookup in Hfuns. specialize (Hfuns _ _ Hf).
      eapply Forall_impl; [exact Hfuns |]. intros s Hs. apply IH. exact Hs.
    + intros r c a c' l. unfold run_node.
      destruct (nodes !! r) as [callee |] eqn:Hr; [| discriminate].
      apply IH. rewrite Forall_lookup in Hnodes. exact (Hnodes _ _ Hr).
Qed.

(** X11: when the constants of the program are [uint32_t] values and the
    context holds [uint32_t] values, every value an evaluation returns and
    every value it leaves in [returnValue], [stackTop] and the stack is
    again in the range of [uint32_t]: no operation escapes the wrap-around
    arithmetic. *)
Theorem values_stay_uint32 ord funs nodes fuel n c v c' l :
  u32_program funs nodes -> u32_constants n = true -> u32_Context c ->
  eval ord funs nodes fuel n c = Done (v, c', l) ->
  is_u32 v /\ u32_Context c'.
Proof.
  intros Hp Hn Hc H.
  destruct (in_range_eval ord funs nodes fuel Hp n Hn _ _ _ _ Hc H) as [Hc' Hv].
  split; assumption.
Qed.

Lemma values_stay_uint32_witness :
  exists c' l,
    u32_program [Simplest.function] [] /\
    u32_constants (CallNode 0%nat (ConstNode 7)) = true /\
    u32_Context new_Context /\
    eval LeftFirst [Simplest.function] [] 7 (CallNode 0%nat (ConstNode 7))
         new_Context = Done (13, c', l) /\
    is_u32 13 /\ u32_Context c'.
Proof.
  assert (Hp : u32_program [Simplest.function] []).
  { split; [| constructor]. repeat constructor. }
  assert (Hc : u32_Context new_Context).
  { split; [unfold is_u32; simpl; lia |].
    split; [unfold is_u32; simpl; lia |].
    intros i x Hx. simpl in Hx. rewrite lookup_empty in Hx. discriminate. }
  eexists _, _. split; [exact Hp |]. split; [reflexivity |].
  split; [exact Hc |]. split; [vm_compute; reflexivity |].
  refine (values_stay_uint32 LeftFirst [Simplest.function] [] 7
            (CallNode 0%nat (ConstNode 7)) new_Context 13 _ _ Hp eq_refl Hc _).
  vm_compute. reflexivity.
Defined.

(** ** The reference function on all of [uint32_t] *)

(** X12: for every [uint32_t] argument, and with fuel for the depth of its
    recursion, the plain recursive [fib] returns the Fibonacci number of
    the argument modulo [2 ^ 32]; more fuel does not change the result. *)
Theorem fib_computes_fibonacci n fuel :
  Z.of_nat n < 2 ^ 32 -> (n <= fuel)%nat -> (1 <= fuel)%nat ->
  fib fuel (Z.of_nat n) = Done (fibonacci n mod 2 ^ 32).
Proof.
  intros Hn Hf H1.
  destruct (fib_returns fuel (Z.of_nat n)) as [v Hv];
    [lia | rewrite Nat2Z.id; exact Hf | exact H1 |].
  rewrite Hv. f_equal. apply (fib_is_fibonacci fuel); assumption.
Qed.

Lemma fib_computes_fibonacci_witness :
  Z.of_nat 25 < 2 ^ 32 /\
  fib 40 (Z.of_nat 25) = Done (fibonacci 25 mod 2 ^ 32) /\
  fibonacci 25 mod 2 ^ 32 = 75025.
Proof.
  assert (H : Z.of_nat 25 < 2 ^ 32) by (simpl; lia).
  split; [exact H |]. split; [| vm_compute; reflexivity].
  apply (fib_computes_fibonacci 25 40 H); lia.
Defined.

(** ** Fusion is transparent for whole programs *)

Lemma unfuse_unfused n : unfused (unfuse n) = true.
Proof.
  induction n; simpl; rewrite ?IHn, ?IHn1, ?IHn2, ?IHn3; try reflexivity.
  - destruct n; reflexivity.
  - destruct n; reflexivity.
  - destruct lhs, rhs; reflexivity.
  - destruct lhs, rhs; reflexivity.
Qed.

(** X13: every program, whatever fused nodes its trees and the bodies of
    its functions hold, does exactly what its unfused form does, which is
    built from the classes of stage 1 (and the two of stage 4) alone: same
    value, same context, same failure, in every context and for every
    fuel. *)
Theorem fused_program_is_unfused_program ord funs nodes fuel n c :
  eval ord (unfuse_functions funs) (unfuse_body nodes) fuel (unfuse n) c
  = eval ord funs nodes fuel n c /\
  unfused (unfuse n) = true /\
  Forall (Forall (fun s => unfused s = true)) (unfuse_functions funs) /\
  Forall (fun s => unfused s = true) (unfuse_body nodes).
Proof.
  split; [apply unfuse_eval |]. split; [apply unfuse_unfused |].
  unfold unfuse_functions, unfuse_body. split.
  - apply Forall_fmap, Forall_forall. intros body _.
    apply Forall_fmap, Forall_forall. intros s _. apply unfuse_unfused.
  - apply Forall_fmap, Forall_forall. intros s _. apply unfuse_unfused.
Qed.

(** ** The redesign of stage 4 preserves results *)

Lemma sim_bind {A B} (P : A -> Context -> B -> Context -> Prop)
    (m1 m4 : M Z) (k1 : Z -> M A) (k4 : Z -> M B) :
  sim expr_post m1 m4 -> (forall a, sim P (k1 a) (k4 a)) ->
  sim P (bind m1 k1) (bind m4 k4).
Proof.
  intros Hm Hk c1 c4 Hc. unfold bind. specialize (Hm c1 c4 Hc).
  destruct (m1 c1) as [[[a c1'] l1]| |], (m4 c4) as [[[b c4'] l4]| |];
    simpl in Hm; try contradiction; try exact I.
  destruct Hm as [-> Hc']. specialize (Hk b c1' c4' Hc').
  destruct (k1 b c1') as [[[x d1] m1']| |], (k4 b c4') as [[[y d4] m4']| |];
    simpl in *; try contradiction; auto.
Qed.

Lemma sim_ret a : sim expr_post (ret a) (ret a).
Proof. intros c1 c4 Hc. simpl. split; [reflexivity | exact Hc]. Qed.

Lemma sim_read_top : sim expr_post read_top read_top.
Proof.
  intros c1 c4 Hc. pose proof Hc as [[Hs Ht] _]. unfold read_top.
  rewrite Hs, Ht. destruct (in_bounds _); [| exact I].
  destruct (stack c4 !! _); [| exact I]. simpl. split; [reflexivity | exact Hc].
Qed.

Lemma sim_binop ord op (l1 l4 r1 r4 : M Z) :
  sim expr_post l1 l4 -> sim expr_post r1 r4 ->
  sim expr_post (binop ord op l1 r1) (binop ord op l4 r4).
Proof.
  intros Hl Hr. unfold binop. destruct ord;
    (apply sim_bind; [assumption | intros ?]);
    (apply sim_bind; [assumption | intros ?]); apply sim_ret.
Qed.

Lemma sim_IfNode_eval (cnd1 cnd4 b1 b4 : M Z) :
  sim expr_post cnd1 cnd4 -> sim expr_post b1 b4 ->
  sim expr_post (IfNode_eval cnd1 b1) (IfNode_eval cnd4 b4).
Proof.
  intros Hc Hb. unfold IfNode_eval. apply sim_bind; [assumption | intros x].
  destruct (truthy x); [| apply sim_ret].
  apply sim_bind; [assumption | intros _; apply sim_ret].
Qed.

Lemma sim_IfElseNode_eval (cnd1 cnd4 i1 i4 e1 e4 : M Z) :
  sim expr_post cnd1 cnd4 -> sim expr_post i1 i4 -> sim expr_post e1 e4 ->
  sim expr_post (IfElseNode_eval cnd1 i1 e1) (IfElseNode_eval cnd4 i4 e4).
Proof.
  intros Hc Hi He. unfold IfElseNode_eval.
  apply sim_bind; [assumption | intros x]. destruct (truthy x); assumption.
Qed.

(** The call protocol, step by step. *)
Lemma CallNode_eval_unfold (statements : M unit) (arg : M Z) c :
  CallNode_eval statements arg c
  = match arg c with
    | Done (a, c1, la) =>
        if in_bounds (stackTop c1)
        then match statements (enter_frame a c1) with
             | Done (_, c2, lb) =>
                 Done (returnValue c2, leave_frame c2,
                       la ++ [Called lb (returnValue c2)])
             | Undefined => Undefined
             | OutOfFuel => OutOfFuel
             end
        else Undefined
    | Undefined => Undefined
    | OutOfFuel => OutOfFuel
    end.
Proof.
  unfold CallNode_eval. unfold bind at 1.
  destruct (arg c) as [[[a c1] la]| |]; try reflexivity.
  unfold in_call, bind, store_top.
  destruct (in_bounds (stackTop c1)) eqn:Hb; [| reflexivity].
  apply in_bounds_spec in Hb. unfold incr_top. simpl.
  rewrite wrap32_small by (unfold STACK_SIZE in Hb; lia).
  fold (enter_frame a c1).
  destruct (statements (enter_frame a c1)) as [[[[] c2] lb]| |];
    try reflexivity.
  simpl. rewrite app_nil_r. reflexivity.
Qed.

Lemma CallAnyNode_eval_unfold (function arg : M Z) c :
  CallAnyNode_eval function arg c
  = match arg c with
    | Done (a, c1, la) =>
        if in_bounds (stackTop c1)
        then match function (enter_frame a c1) with
             | Done (v, c2, lb) =>
                 Done (v, leave_frame c2, la ++ [Called lb (returnValue c2)])
             | Undefined => Undefined
             | OutOfFuel => OutOfFuel
             end
        else Undefined
    | Undefined => Undefined
    | OutOfFuel => OutOfFuel
    end.
Proof.
  unfold CallAnyNode_eval. unfold bind at 1.
  destruct (arg c) as [[[a c1] la]| |]; try reflexivity.
  unfold in_call, bind, store_top.
  destruct (in_bounds (stackTop c1)) eqn:Hb; [| reflexivity].
  apply in_bounds_spec in Hb. unfold incr_top. simpl.
  rewrite wrap32_small by (unfold STACK_SIZE in Hb; lia).
  fold (enter_frame a c1).
  destruct (function (enter_frame a c1)) as [[[v c2] lb]| |];
    try reflexivity.
  simpl. rewrite app_nil_r. reflexivity.
Qed.

(** The call protocol of [CallNode] around a body, against that of
    [CallAnyNode] around the node that replaces the body. *)
Lemma sim_call (statements : M unit) (function arg1 arg4 : M Z) :
  sim body_post statements function -> sim expr_post arg1 arg4 ->
  sim expr_post (CallNode_eval statements arg1)
                (CallAnyNode_eval function arg4).
Proof.
  intros Hs Ha c1 c4 Hc.
  rewrite CallNode_eval_unfold, CallAnyNode_eval_unfold.
  specialize (Ha c1 c4 Hc).
  destruct (arg1 c1) as [[[a d1] la]| |], (arg4 c4) as [[[a4 d4] la4]| |];
    simpl in Ha; try contradiction; try exact I.
  destruct Ha as [-> [[Hst Ht] Hstop]]. rewrite Ht.
  destruct (in_bounds (stackTop d4)); [| exact I].
  assert (Hin : agree (enter_frame a4 d1) (enter_frame a4 d4)).
  { unfold agree, same_stack, enter_frame; simpl.
    rewrite Hst, Ht. repeat split; [reflexivity .. | exact Hstop]. }
  specialize (Hs _ _ Hin).
  destruct (statements (enter_frame a4 d1)) as [[[[] e1] lb]| |],
           (function (enter_frame a4 d4)) as [[[v e4] lb4]| |];
    simpl in Hs; try contradiction; try exact I.
  destruct Hs as [<- [He Het]]. simpl. split; [reflexivity |].
  unfold agree, same_stack, leave_frame; simpl.
  rewrite He, Het. repeat split; reflexivity.
Qed.

(** A guarded body against the [IfElse] that replaces it. *)
Lemma sim_guarded_body (ev1 : Node -> M Z) (cnd a b : Node)
    (cnd4 a4 b4 : M Z) :
  sim expr_post (ev1 cnd) cnd4 -> sim expr_post (ev1 a) a4 ->
  sim expr_post (ev1 b) b4 ->
  ev1 (IfNode cnd (ReturnNode a))
    = IfNode_eval (ev1 cnd) (ReturnNode_eval (ev1 a)) ->
  ev1 (ReturnNode b) = ReturnNode_eval (ev1 b) ->
  sim body_post (run_body ev1 [IfNode cnd (ReturnNode a); ReturnNode b])
                (IfElseNode_eval cnd4 a4 b4).
Proof.
  intros Hc Ha Hb E1 E2 c1 c4 Hagree. simpl run_body. rewrite E1, E2.
  unfold IfNode_eval, IfElseNode_eval, ReturnNode_eval, bind.
  specialize (Hc c1 c4 Hagree).
  destruct (ev1 cnd c1) as [[[x d1] m1]| |], (cnd4 c4) as [[[y d4] m4]| |];
    simpl in Hc; try contradiction; try exact I.
  destruct Hc as [-> Hd]. destruct (truthy y).
  - specialize (Ha d1 d4 Hd).
    destruct (ev1 a d1) as [[[va e1] n1]| |], (a4 d4) as [[[va4 e4] n4]| |];
      simpl in Ha; try contradiction; try exact I.
    destruct Ha as [-> [He _]]. simpl. split; [reflexivity | exact He].
  - simpl. destruct Hd as [Hss Hstop]. rewrite Hstop.
    specialize (Hb d1 d4 (conj Hss Hstop)).
    destruct (ev1 b d1) as [[[vb e1] n1]| |], (b4 d4) as [[[vb4 e4] n4]| |];
      simpl in Hb; try contradiction; try exact I.
    destruct Hb as [-> [He _]]. simpl. split; [reflexivity | exact He].
Qed.

Lemma sim_eval_with ord (ef1 ef4 : nat -> M unit) (en1 en4 : nat -> M Z) :
  (forall f, sim body_post (ef1 f) (en4 f)) ->
  forall e, expression e = true ->
    sim expr_post (eval_with ord ef1 en1 e)
                  (eval_with ord ef4 en4 (simplify_calls e)).
Proof.
  intros Hf. induction e; simpl; intros He; try discriminate;
    repeat match goal with
           | H : _ && _ = true |- _ =>
               let A := fresh "Hex" in
               let B := fresh "Hex" in
               apply andb_true_iff in H as [A B]
           end.
  - apply sim_ret.
  - apply sim_ret.
  - apply sim_binop; auto.
  - apply sim_binop; auto.
  - apply sim_binop; auto.
  - apply sim_IfNode_eval; auto.
  - apply sim_call; auto.
  - apply sim_read_top.
  - apply sim_bind; [auto | intros ?; apply sim_ret].
  - apply sim_bind; [auto | intros ?; apply sim_ret].
  - destruct n. apply sim_ret.
  - apply sim_read_top.
  - destruct rhs. apply sim_binop; [apply sim_read_top | apply sim_ret].
  - destruct rhs. apply sim_binop; [apply sim_read_top | apply sim_ret].
  - apply sim_call; auto.
  - apply sim_IfElseNode_eval; auto.
Qed.

Lemma guarded_body_inv body :
  guarded_body body = true ->
  exists cnd a b,
    body = [IfNode cnd (ReturnNode a); ReturnNode b] /\
    expression cnd = true /\ expression a = true /\ expression b = true.
Proof.
  unfold guarded_body.
  destruct body as [| s1 [| s2 [| s3 rest]]]; try discriminate;
    destruct s1; try discriminate; destruct s1_2; try discriminate;
    destruct s2; try discriminate.
  intros H. apply andb_true_iff in H as [H Hb].
  apply andb_true_iff in H as [Hc Ha]. eauto 8.
Qed.

Lemma sim_eval ord funs nodes funs' fuel :
  Forall (fun body => guarded_body body = true) funs ->
  forall e, expression e = true ->
    sim expr_post (eval ord funs nodes fuel e)
                  (eval ord funs' (simplify_functions funs) fuel
                        (simplify_calls e)).
Proof.
  intros Hg. induction fuel as [| fuel IH]; intros e He; simpl.
  - apply sim_eval_with; [| exact He]. intros f c1 c4 _. exact I.
  - apply sim_eval_with; [| exact He]. intros f c1 c4 Hc.
    unfold run_function, run_node, simplify_functions.
    rewrite list_lookup_fmap.
    destruct (funs !! f) as [body |] eqn:Hf; simpl; [| exact I].
    rewrite Forall_lookup in Hg.
    destruct (guarded_body_inv body (Hg _ _ Hf))
      as (cnd & a & b & -> & Hcnd & Ha & Hb).
    unfold simplify_function. rewrite eval_IfElseNode.
    apply sim_guarded_body; auto using eval_IfNode, eval_ReturnNode.
    rewrite eval_IfNode, eval_ReturnNode. reflexivity.
Qed.

(** X14: the redesign of stage 4 preserves results for every program it
    applies to.  When every function body has the shape [If (c) Return a;
    Return b] over expressions, replacing each body by [IfElse (c, a, b)]
    and each call by a [CallAny] of that node gives, for every expression,
    context and fuel, the same value or the same failure, and the same
    argument stack. *)
Theorem call_simplification_preserves_results
    ord funs nodes funs' fuel e c :
  Forall (fun body => guarded_body body = true) funs ->
  expression e = true -> stopForReturn c = false ->
  result_of (eval ord funs nodes fuel e c)
  = result_of (eval ord funs' (simplify_functions funs) fuel
                 (simplify_calls e) c) /\
  (forall v c1 l1,
     eval ord funs nodes fuel e c = Done (v, c1, l1) ->
     exists c4 l4,
       eval ord funs' (simplify_functions funs) fuel (simplify_calls e) c
       = Done (v, c4, l4) /\
       stack c4 = stack c1 /\ stackTop c4 = stackTop c1).
Proof.
  intros Hg He Hs.
  assert (Hc : agree c c) by (repeat split; [reflexivity .. | exact Hs]).
  pose proof (sim_eval ord funs nodes funs' fuel Hg e He c c Hc) as H.
  destruct (eval ord funs nodes fuel e c) as [[[v c1] l1]| |],
    (eval ord funs' (simplify_functions funs) fuel (simplify_calls e) c)
      as [[[v4 c4] l4]| |];
    simpl in H; try contradiction; (split; [| intros ? ? ?; try discriminate]);
    try reflexivity.
  - destruct H as [-> _]. reflexivity.
  - destruct H as [-> [[Hst Ht] _]]. intros [= <- <- <-]. eauto.
Qed.

Lemma call_simplification_preserves_results_witness :
  Forall (fun body => guarded_body body = true) [BetterFusion.function] /\
  expression (BF_CallNode 0%nat (OfConst (BF_ConstNode 12))) = true /\
  stopForReturn new_Context = false /\
  result_of (eval LeftFirst [BetterFusion.function] [] 12
               (BF_CallNode 0%nat (OfConst (BF_ConstNode 12))) new_Context)
  = result_of (eval LeftFirst [] [SimplifyCalls.function] 12
                 (CallAnyNode 0%nat (OfConst (BF_ConstNode 12))) new_Context).
Proof.
  assert (Hg : Forall (fun body => guarded_body body = true)
                 [BetterFusion.function]) by (repeat constructor).
  split; [exact Hg |]. split; [reflexivity |]. split; [reflexivity |].
  exact (proj1 (call_simplification_preserves_results LeftFirst
                  [BetterFusion.function] [] [] 12
                  (BF_CallNode 0%nat (OfConst (BF_ConstNode 12))) new_Context
                  Hg eq_refl eq_refl)).
Defined.

(** The driver of stage 4 is the simplification of the driver of stage 3:
    they return the same for every argument and every fuel. *)
Lemma SimplifyCalls_fib_is_BetterFusion ord fuel n :
  SimplifyCalls.fib ord fuel n = BetterFusion.fib ord fuel n.
Proof.
  unfold SimplifyCalls.fib, BetterFusion.fib.
  assert (Hg : Forall (fun body => guarded_body body = true)
                 [BetterFusion.function]) by (repeat constructor).
  assert (Hc : agree new_Context new_Context)
    by (repeat split; reflexivity).
  pose proof (sim_eval ord [BetterFusion.function] [] [] fuel Hg
                (BF_CallNode 0%nat (OfConst (BF_ConstNode n))) eq_refl
                new_Context new_Context Hc) as H.
  change (simplify_functions [BetterFusion.function])
    with [SimplifyCalls.function] in H.
  change (simplify_calls (BF_CallNode 0%nat (OfConst (BF_ConstNode n))))
    with (CallAnyNode 0%nat (OfConst (BF_ConstNode n))) in H.
  destruct (eval ord [BetterFusion.function] [] fuel
              (BF_CallNode 0%nat (OfConst (BF_ConstNode n))) new_Context)
    as [[[v c1] l1]| |],
    (eval ord [] [SimplifyCalls.function] fuel
       (CallAnyNode 0%nat (OfConst (BF_ConstNode n))) new_Context)
      as [[[v4 c4] l4]| |];
    simpl in H; try contradiction; try reflexivity.
  destruct H as [-> _]. reflexivity.
Qed.

(** ** Slots at and above [stackTop] are never read *)

Lemma blind_above_ret {A} (a : A) : blind_above (ret a).
Proof. intros c d H. simpl. auto. Qed.

Lemma blind_above_bind {A B} (m : M A) (k : A -> M B) :
  blind_above m -> (forall a, blind_above (k a)) -> blind_above (bind m k).
Proof.
  intros Hm Hk c d H. unfold bind. specialize (Hm c d H).
  destruct (m c) as [[[a c1] l1]| |], (m d) as [[[b d1] l1']| |];
    try contradiction; try exact I.
  destruct Hm as (-> & -> & H1 & T1). specialize (Hk b c1 d1 H1).
  destruct (k b c1) as [[[x c2] l2]| |], (k b d1) as [[[y d2] l2']| |];
    try contradiction; try exact I.
  destruct Hk as (-> & -> & H2 & T2). repeat split; try apply H2; congruence.
Qed.

Lemma blind_above_never {A} (o : outcome (A * Context * list event)) :
  (o = Undefined \/ o = OutOfFuel) -> blind_above (fun _ => o).
Proof. intros [-> | ->] c d _; exact I. Qed.

Lemma blind_above_read_top : blind_above read_top.
Proof.
  intros c d H. pose proof H as (Hs & Hr & Ht & H0 & Hf). unfold read_top.
  rewrite <- Ht. destruct (in_bounds (wrap32 (stackTop c - 1))) eqn:Hb;
    [| exact I].
  apply in_bounds_spec in Hb.
  assert (Hi : wrap32 (stackTop c - 1) < stackTop c).
  { destruct (Z.eq_dec (stackTop c) 0) as [E | E].
    - rewrite E in Hb. destruct Hb as [_ Hb]. vm_compute in Hb. discriminate.
    - unfold wrap32. pose proof (Z.mod_le (stackTop c - 1) (2 ^ 32)). lia. }
  rewrite <- (Hf _ (conj (proj1 Hb) Hi)).
  destruct (stack c !! wrap32 (stackTop c - 1)); [| exact I]. auto.
Qed.

Lemma blind_above_get_stopForReturn : blind_above get_stopForReturn.
Proof. intros c d H. simpl. split; [apply H | auto]. Qed.

Lemma blind_above_binop ord op (lhs rhs : M Z) :
  blind_above lhs -> blind_above rhs -> blind_above (binop ord op lhs rhs).
Proof.
  intros Hl Hr. unfold binop. destruct ord;
    repeat (apply blind_above_bind; [assumption | intros ?]);
    apply blind_above_ret.
Qed.

Lemma blind_above_ReturnNode_eval (rhs : M Z) :
  blind_above rhs -> blind_above (ReturnNode_eval rhs).
Proof.
  intros Hr. unfold ReturnNode_eval.
  apply blind_above_bind; [exact Hr | intros v].
  intros c d (Hs & Hv & Ht & H0 & Hf). simpl.
  repeat split; try reflexivity; assumption.
Qed.

Lemma alike_enter_frame a c d :
  alike c d -> alike (enter_frame a c) (enter_frame a d).
Proof.
  intros (Hs & Hr & Ht & H0 & Hf). unfold alike, enter_frame; simpl.
  repeat split; try assumption; try lia.
  intros i Hi. rewrite <- Ht. destruct (Z.eq_dec (stackTop c) i) as [E | Hne].
  - rewrite E, !lookup_insert_eq. reflexivity.
  - rewrite !lookup_insert_ne by exact Hne. apply Hf. lia.
Qed.

Lemma alike_leave_frame c2 d2 s :
  alike c2 d2 -> stackTop c2 = s + 1 -> 0 <= s < STACK_SIZE ->
  alike (leave_frame c2) (leave_frame d2) /\ stackTop (leave_frame c2) = s.
Proof.
  intros (Hs & Hr & Ht & H0 & Hf) Hc2 Hb. unfold alike, leave_frame; simpl.
  rewrite <- Ht, Hc2. replace (s + 1 - 1) with s by lia.
  rewrite wrap32_small by (unfold STACK_SIZE in Hb; lia).
  repeat split; try assumption; try lia. intros i Hi. apply Hf. lia.
Qed.

Lemma blind_above_CallNode_eval (statements : M unit) (arg : M Z) :
  blind_above statements -> blind_above arg ->
  blind_above (CallNode_eval statements arg).
Proof.
  intros Hs Ha c d H. rewrite !CallNode_eval_unfold. specialize (Ha c d H).
  destruct (arg c) as [[[a c1] la]| |], (arg d) as [[[b d1] la']| |];
    try contradiction; try exact I.
  destruct Ha as (-> & -> & H1 & T1). pose proof H1 as (_ & _ & Ht & _).
  rewrite <- Ht. destruct (in_bounds (stackTop c1)) eqn:Hb; [| exact I].
  apply in_bounds_spec in Hb.
  specialize (Hs _ _ (alike_enter_frame b c1 d1 H1)).
  destruct (statements (enter_frame b c1)) as [[[[] c2] lb]| |],
           (statements (enter_frame b d1)) as [[[[] d2] lb']| |];
    try contradiction; try exact I.
  destruct Hs as (_ & -> & H2 & T2).
  destruct (alike_leave_frame c2 d2 (stackTop c1) H2 T2 Hb) as [H3 T3].
  pose proof H2 as (_ & Hr2 & _). rewrite Hr2.
  repeat split; try apply H3. congruence.
Qed.

Lemma blind_above_CallAnyNode_eval (function arg : M Z) :
  blind_above function -> blind_above arg ->
  blind_above (CallAnyNode_eval function arg).
Proof.
  intros Hs Ha c d H. rewrite !CallAnyNode_eval_unfold. specialize (Ha c d H).
  destruct (arg c) as [[[a c1] la]| |], (arg d) as [[[b d1] la']| |];
    try contradiction; try exact I.
  destruct Ha as (-> & -> & H1 & T1). pose proof H1 as (_ & _ & Ht & _).
  rewrite <- Ht. destruct (in_bounds (stackTop c1)) eqn:Hb; [| exact I].
  apply in_bounds_spec in Hb.
  specialize (Hs _ _ (alike_enter_frame b c1 d1 H1)).
  destruct (function (enter_frame b c1)) as [[[v c2] lb]| |],
           (function (enter_frame b d1)) as [[[v' d2] lb']| |];
    try contradiction; try exact I.
  destruct Hs as (-> & -> & H2 & T2).
  destruct (alike_leave_frame c2 d2 (stackTop c1) H2 T2 Hb) as [H3 T3].
  pose proof H2 as (_ & Hr2 & _). rewrite Hr2.
  repeat split; try apply H3. congruence.
Qed.

Lemma blind_above_run_body (ev : Node -> M Z) body :
  (forall n, blind_above (ev n)) -> blind_above (run_body ev body).
Proof.
  intros Hev. induction body as [| statement rest IH]; simpl.
  - apply blind_above_ret.
  - apply blind_above_bind; [apply Hev | intros _].
    apply blind_above_bind; [apply blind_above_get_stopForReturn | intros stop].
    destruct stop; [apply blind_above_ret | exact IH].
Qed.

Lemma blind_above_eval_with ord (ef : nat -> M unit) (en : nat -> M Z) :
  (forall f, blind_above (ef f)) -> (forall r, blind_above (en r)) ->
  forall n, blind_above (eval_with ord ef en n).
Proof.
  intros Hf Hn. induction n; simpl.
  - apply blind_above_ret.
  - apply blind_above_ret.
  - apply blind_above_binop; assumption.
  - apply blind_above_binop; assumption.
  - apply blind_above_binop; assumption.
  - unfold IfNode_eval. apply blind_above_bind; [assumption | intros x].
    destruct (truthy x); [| apply blind_above_ret].
    apply blind_above_bind; [assumption | intros _; apply blind_above_ret].
  - apply blind_above_CallNode_eval; auto.
  - apply blind_above_ReturnNode_eval; assumption.
  - apply blind_above_read_top.
  - apply blind_above_bind; [assumption | intros ?; apply blind_above_ret].
  - apply blind_above_bind; [assumption | intros ?; apply blind_above_ret].
  - destruct n. apply blind_above_ret.
  - apply blind_above_read_top.
  - destruct rhs. apply blind_above_binop;
      [apply blind_above_read_top | apply blind_above_ret].
  - destruct rhs. apply blind_above_binop;
      [apply blind_above_read_top | apply blind_above_ret].
  - apply blind_above_CallNode_eval; auto.
  - apply blind_above_CallAnyNode_eval; auto.
  - unfold IfElseNode_eval. apply blind_above_bind; [assumption | intros x].
    destruct (truthy x); assumption.
Qed.

Lemma blind_above_eval ord funs nodes fuel :
  forall n, blind_above (eval ord funs nodes fuel n).
Proof.
  induction fuel as [| fuel IH]; intros n; simpl.
  - apply blind_above_eval_with; intros; intros c d _; exact I.
  - apply blind_above_eval_with.
    + intros f c d H. unfold run_function.
      destruct (funs !! f); [| exact I].
      apply blind_above_run_body; [exact IH | exact H].
    + intros r c d H. unfold run_node.
      destruct (nodes !! r); [| exact I]. apply IH. exact H.
Qed.

(** X15: an evaluation never reads a slot at or above the [stackTop] it
    starts with: two contexts that differ only in such slots give the same
    value, the same log and the same failures, and leave contexts that
    again differ only there. *)
Theorem slots_above_stackTop_never_read ord funs nodes fuel n c d :
  alike c d ->
  match eval ord funs nodes fuel n c, eval ord funs nodes fuel n d with
  | Done (a, c', l), Done (b, d', l') => a = b /\ l = l' /\ alike c' d'
  | Undefined, Undefined => True
  | OutOfFuel, OutOfFuel => True
  | _, _ => False
  end.
Proof.
  intros H. pose proof (blind_above_eval ord funs nodes fuel n c d H) as Hb.
  destruct (eval ord funs nodes fuel n c) as [[[a c1] l1]| |],
           (eval ord funs nodes fuel n d) as [[[b d1] l1']| |];
    try contradiction; try exact I.
  destruct Hb as (-> & -> & H1 & _). auto.
Qed.

Lemma slots_above_stackTop_never_read_witness :
  alike new_Context
    {| stopForReturn := false; returnValue := 0;
       stack := <[0 := 7]> (<[1 := 9]> ∅); stackTop := 0 |} /\
  match eval LeftFirst [Simplest.function] [] 3
          (CallNode 0%nat (ConstNode 3)) new_Context,
        eval LeftFirst [Simplest.function] [] 3
          (CallNode 0%nat (ConstNode 3))
          {| stopForReturn := false; returnValue := 0;
             stack := <[0 := 7]> (<[1 := 9]> ∅); stackTop := 0 |}
  with
  | Done (a, c', l), Done (b, d', l') => a = b /\ l = l' /\ alike c' d'
  | Undefined, Undefined => True
  | OutOfFuel, OutOfFuel => True
  | _, _ => False
  end.
Proof.
  assert (H : alike new_Context
    {| stopForReturn := false; returnValue := 0;
       stack := <[0 := 7]> (<[1 := 9]> ∅); stackTop := 0 |}).
  { unfold alike; simpl.
    split; [reflexivity |]. split; [reflexivity |]. split; [reflexivity |].
    split; [lia |]. intros i Hi. lia. }
  split; [exact H |].
  exact (slots_above_stackTop_never_read LeftFirst [Simplest.function] [] 3
           (CallNode 0%nat (ConstNode 3)) _ _ H).
Defined.
